(** * Federation fetch: a shallow embedding of [pkg/api/federation.go]

    The development follows the Go source of [federationServer.fetch]:
    region normalisation, query criteria, the per-record filter chain, the
    two-level find-or-create aggregation, and the polling loop that turns a
    fired context into a partial response.  The calls of the logger write
    to the log only and are left out; the reason a record is skipped for is
    kept as the value of [check]. *)

From Stdlib Require Import ZArith Lia Ascii String List Permutation Sorted.
From stdpp Require Import base tactics option list sorting strings pretty gmap.

Local Open Scope Z_scope.
Local Open Scope string_scope.
Local Open Scope list_scope.

(** ** Go base types *)

(** [error] values are opaque to [fetch]; only their nil-ness is inspected. *)
Definition error := string.

(** The conversion [int32(x)] of a Go [int]: two's-complement wrap-around. *)
Definition int32 (z : Z) : Z := (z + 2 ^ 31) mod 2 ^ 32 - 2 ^ 31.

Module time.
(** A [time.Time] instant, as seconds since the epoch plus nanoseconds. *)
Record Time := mkTime { sec : Z; nsec : Z }.
(** [time.Unix(sec, nsec)] *)
Definition Unix_of (s n : Z) : Time := mkTime s n.
(** [t.Unix()] *)
Definition Unix (t : Time) : Z := sec t.
End time.

(** ** [context.Context], as [fetch] observes it

    The loop polls [ctx.Done()] once per iteration without blocking.  A
    context is the sequence of poll outcomes: [ctx i] is [None] when the
    [default] branch of the [select] is taken at the [i]-th poll, and
    [Some e] when [Done] is closed and [ctx.Err()] is [e]. *)
Module context.
Inductive Err :=
| DeadlineExceeded
| Canceled
| Other (msg : string).

Definition Context := nat -> option Err.

(** [err != context.DeadlineExceeded && err != context.Canceled] *)
Definition unexpected (e : Err) : bool :=
  match e with
  | DeadlineExceeded | Canceled => false
  | Other _ => true
  end.
End context.

(** ** [model.Infection] *)
Module model.
Record Infection := mkInfection {
  K : string;
  DiagnosisKey : list Byte.byte;
  Regions : list string;
  LocalProvenance : bool;
  DiagnosisStatus : Z;
  VerificationAuthorityName : string;
  IntervalNumber : Z;
  IntervalCount : Z;
  CreatedAt : time.Time
}.
End model.

(** ** Protocol messages ([pb]) *)
Module pb.
Record FederationFetchRequest := mkRequest {
  RegionIdentifiers : list string;
  ExcludeRegionIdentifiers : list string;
  LastFetchResponseKeyTimestamp : Z;
  req_NextFetchToken : string
}.

Record DiagnosisKey := mkDiagnosisKey {
  dk_DiagnosisKey : list Byte.byte;
  dk_IntervalNumber : Z;
  dk_IntervalCount : Z
}.

Record ContactTracingInfo := mkInfo {
  cti_DiagnosisStatus : Z;
  cti_VerificationAuthorityName : string;
  cti_DiagnosisKeys : list DiagnosisKey
}.

Record ContactTracingResponse := mkCtr {
  ctr_RegionIdentifiers : list string;
  ctr_ContactTracingInfo : list ContactTracingInfo
}.

Record FederationFetchResponse := mkResponse {
  Response : list ContactTracingResponse;
  FetchResponseKeyTimestamp : Z;
  PartialResponse : bool;
  NextFetchToken : string
}.

(** The zero value [&pb.FederationFetchResponse{}]. *)
Definition empty_response : FederationFetchResponse :=
  mkResponse [] 0 false "".
End pb.

(** ** [database.FetchInfectionsCriteria] and [database.InfectionIterator] *)
Module database.
Record FetchInfectionsCriteria := mkCriteria {
  IncludeRegions : list string;
  SinceTimestamp : time.Time;
  UntilTimestamp : time.Time;
  LastCursor : string;
  OnlyLocalProvenance : bool
}.

(** An iterator is a state together with its two methods.  [Next] returns
    the Go triple [(inf, done, err)] and the advanced iterator; [Cursor]
    returns the pair [(cursor, err)] and does not advance. *)
Record InfectionIterator (It : Type) := mkIterator {
  Next : It -> (option model.Infection * bool * option error) * It;
  Cursor : It -> string * option error
}.
Arguments Next {It} _ _.
Arguments Cursor {It} _ _.
End database.

(** ** String helpers of the Go standard library *)

(** [sort.Strings]: ascending in the byte-wise lexicographic order.  The
    order is total and antisymmetric, so the sorted arrangement of a slice
    is unique and any sorting algorithm computes it. *)
Definition string_le (s1 s2 : string) : Prop := String.leb s1 s2 = true.

#[global] Instance string_le_dec : RelDecision string_le.
Proof. intros s1 s2. unfold string_le. apply _. Defined.

Definition sort_Strings (l : list string) : list string :=
  merge_sort string_le l.

(** [strings.Join(l, "::")] *)
Definition sep : string := "::".
Definition Join (l : list string) : string := String.concat sep l.

(** [fmt.Sprintf("%d", z)] *)
Definition Sprintf_d (z : Z) : string := pretty z.

(** The ASCII fragment of [strings.ToUpper]. *)
Definition ascii_upper (c : ascii) : ascii :=
  let n := nat_of_ascii c in
  if (97 <=? n)%nat && (n <=? 122)%nat then ascii_of_nat (n - 32) else c.

Fixpoint ascii_ToUpper (s : string) : string :=
  match s with
  | EmptyString => EmptyString
  | String c s' => String (ascii_upper c) (ascii_ToUpper s')
  end.

(** ** The aggregation state of one call

    [fetch] keeps two Go maps of pointers into the response it assembles.
    Every [*pb.ContactTracingResponse] is appended to [response.Response]
    when it is allocated and every [*pb.ContactTracingInfo] to the
    [ContactTracingInfo] slice of a response entry, and nothing is ever
    removed or reordered.  A pointer is therefore represented by the position
    of its target: an index into [Response] for [ctrMap], and a pair (index
    of the enclosing entry, index within it) for [ctiMap].  Appending through
    a pointer is an in-place update at that position, so two map keys bound
    to one pointer alias one object. *)
Record Agg := mkAgg {
  ctrMap : gmap string nat;
  ctiMap : gmap string (nat * nat);
  response : pb.FederationFetchResponse
}.

Definition init_Agg : Agg := mkAgg ∅ ∅ pb.empty_response.

Definition with_Response (r : pb.FederationFetchResponse)
    (l : list pb.ContactTracingResponse) : pb.FederationFetchResponse :=
  pb.mkResponse l (pb.FetchResponseKeyTimestamp r) (pb.PartialResponse r)
    (pb.NextFetchToken r).

Definition with_Timestamp (r : pb.FederationFetchResponse) (t : Z)
    : pb.FederationFetchResponse :=
  pb.mkResponse (pb.Response r) t (pb.PartialResponse r) (pb.NextFetchToken r).

(** [response.PartialResponse = true; response.NextFetchToken = cursor] *)
Definition with_Partial (r : pb.FederationFetchResponse) (cursor : string)
    : pb.FederationFetchResponse :=
  pb.mkResponse (pb.Response r) (pb.FetchResponseKeyTimestamp r) true cursor.

(** [ctr.ContactTracingInfo = append(ctr.ContactTracingInfo, cti)] *)
Definition append_cti (cti : pb.ContactTracingInfo)
    (ctr : pb.ContactTracingResponse) : pb.ContactTracingResponse :=
  pb.mkCtr (pb.ctr_RegionIdentifiers ctr) (pb.ctr_ContactTracingInfo ctr ++ [cti]).

(** [cti.DiagnosisKeys = append(cti.DiagnosisKeys, dk)] *)
Definition append_key (dk : pb.DiagnosisKey) (cti : pb.ContactTracingInfo)
    : pb.ContactTracingInfo :=
  pb.mkInfo (pb.cti_DiagnosisStatus cti) (pb.cti_VerificationAuthorityName cti)
    (pb.cti_DiagnosisKeys cti ++ [dk]).

(** The same append, through a [ctiMap] pointer. *)
Definition append_key_at (q : nat * nat) (dk : pb.DiagnosisKey)
    (l : list pb.ContactTracingResponse) : list pb.ContactTracingResponse :=
  alter (fun ctr =>
           pb.mkCtr (pb.ctr_RegionIdentifiers ctr)
             (alter (append_key dk) (snd q) (pb.ctr_ContactTracingInfo ctr)))
        (fst q) l.

(** Number of [ContactTracingInfo] entries of the response entry at [p]. *)
Definition cti_count (l : list pb.ContactTracingResponse) (p : nat) : nat :=
  match l !! p with
  | Some ctr => length (pb.ctr_ContactTracingInfo ctr)
  | None => O
  end.

Definition ctrKey_of (regions : list string) : string :=
  Join (sort_Strings regions).

(** [fmt.Sprintf("%s::%d::%s", ctrKey, status, name)] *)
Definition ctiKey_of (ctrKey : string) (status : Z) (name : string) : string :=
  ctrKey +:+ sep +:+ Sprintf_d status +:+ sep +:+ name.

Definition key_of (inf : model.Infection) : pb.DiagnosisKey :=
  pb.mkDiagnosisKey (model.DiagnosisKey inf) (model.IntervalNumber inf)
    (model.IntervalCount inf).

(** Lines 190-198: find, or create, the [ContactTracingResponse]. *)
Definition find_ctr (st : Agg) (regions : list string) (ctrKey : string)
    : nat * Agg :=
  match ctrMap st !! ctrKey with
  | Some p => (p, st)
  | None =>
      let p := length (pb.Response (response st)) in
      (p, mkAgg (<[ctrKey := p]> (ctrMap st)) (ctiMap st)
             (with_Response (response st)
                (pb.Response (response st) ++ [pb.mkCtr regions []])))
  end.

(** Lines 200-208: find, or create, the [ContactTracingInfo]. *)
Definition find_cti (st : Agg) (p : nat) (ctiKey : string) (status : Z)
    (name : string) : (nat * nat) * Agg :=
  match ctiMap st !! ctiKey with
  | Some q => (q, st)
  | None =>
      let q := (p, cti_count (pb.Response (response st)) p) in
      (q, mkAgg (ctrMap st) (<[ctiKey := q]> (ctiMap st))
             (with_Response (response st)
                (alter (append_cti (pb.mkInfo status name [])) p
                   (pb.Response (response st)))))
  end.

(** Lines 190-220: fold one eligible record into the response. *)
Definition aggregate (st : Agg) (inf : model.Infection) : Agg :=
  let regions := sort_Strings (model.Regions inf) in
  let ctrKey := Join regions in
  let '(p, st1) := find_ctr st regions ctrKey in
  let status := int32 (model.DiagnosisStatus inf) in
  let name := model.VerificationAuthorityName inf in
  let ctiKey := ctiKey_of ctrKey status name in
  let '(q, st2) := find_cti st1 p ctiKey status name in
  let r3 := with_Response (response st2)
              (append_key_at q (key_of inf) (pb.Response (response st2))) in
  let created := time.Unix (model.CreatedAt inf) in
  let r4 := if (pb.FetchResponseKeyTimestamp r3 <? created)%Z
            then with_Timestamp r3 created else r3 in
  mkAgg (ctrMap st2) (ctiMap st2) r4.

(** ** The filter chain, lines 134-188 *)

(** The reason logged when a record is skipped. *)
Inductive Skip :=
| MissingDiagnosisKey
| MissingRegions
| NotLocalProvenance
| InvalidDiagnosisStatus
| OnlyExcludedRegions
| NoRequestedRegion.

(** Lines 161-168: [skip] stays [true] iff every region is excluded. *)
Fixpoint only_excluded (excludedRegions : gset string) (regions : list string)
    : bool :=
  match regions with
  | [] => true
  | region :: rest =>
      if bool_decide (region ∈ excludedRegions)
      then only_excluded excludedRegions rest
      else false
  end.

(** Lines 177-183: [skip] stays [true] iff no region is included. *)
Fixpoint none_included (includedRegions : gset string) (regions : list string)
    : bool :=
  match regions with
  | [] => true
  | region :: rest =>
      if bool_decide (region ∈ includedRegions)
      then false
      else none_included includedRegions rest
  end.

Section Fetch.
(** [strings.ToUpper] and the generated table [pb.DiagnosisStatus_name] come
    from outside the package. *)
Variable ToUpper : string -> string.
Variable DiagnosisStatus_name : gmap Z string.

(** Lines 53-58: both region lists are upper-cased in place. *)
Definition normalize (req : pb.FederationFetchRequest)
    : pb.FederationFetchRequest :=
  pb.mkRequest (map ToUpper (pb.RegionIdentifiers req))
    (map ToUpper (pb.ExcludeRegionIdentifiers req))
    (pb.LastFetchResponseKeyTimestamp req) (pb.req_NextFetchToken req).

(** Lines 63-71, on the normalised request. *)
Definition build_criteria (req : pb.FederationFetchRequest)
    (fetchUntil : time.Time) : database.FetchInfectionsCriteria :=
  let criteria :=
    database.mkCriteria []
      (time.Unix_of (pb.LastFetchResponseKeyTimestamp req) 0)
      fetchUntil (pb.req_NextFetchToken req) true in
  if (length (pb.RegionIdentifiers req) =? 1)%nat
  then database.mkCriteria (pb.RegionIdentifiers req)
         (database.SinceTimestamp criteria) (database.UntilTimestamp criteria)
         (database.LastCursor criteria) (database.OnlyLocalProvenance criteria)
  else criteria.

(** Lines 77-87: the two membership maps. *)
Definition includedRegions (req : pb.FederationFetchRequest) : gset string :=
  list_to_set (pb.RegionIdentifiers req).
Definition excludedRegions (req : pb.FederationFetchRequest) : gset string :=
  list_to_set (pb.ExcludeRegionIdentifiers req).

(** The chain of [continue] statements: the first test that fires names the
    reason, [None] lets the record through to the aggregation. *)
Definition check (included excluded : gset string) (inf : model.Infection)
    : option Skip :=
  if (length (model.DiagnosisKey inf) =? 0)%nat then Some MissingDiagnosisKey
  else if (length (model.Regions inf) =? 0)%nat then Some MissingRegions
  else if negb (model.LocalProvenance inf) then Some NotLocalProvenance
  else if negb (bool_decide
                  (is_Some (DiagnosisStatus_name
                              !! int32 (model.DiagnosisStatus inf))))
       then Some InvalidDiagnosisStatus
  else if only_excluded excluded (model.Regions inf)
       then Some OnlyExcludedRegions
  else if (0 <? size included)%nat
          && none_included included (model.Regions inf)
       then Some NoRequestedRegion
  else None.

(** What one record does to the aggregation state. *)
Definition absorb (included excluded : gset string) (st : Agg)
    (inf : model.Infection) : Agg :=
  match check included excluded inf with
  | Some _ => st
  | None => aggregate st inf
  end.

(** ** The loop, lines 98-221 *)

Inductive Error :=
| ErrQuerying (criteria : database.FetchInfectionsCriteria) (err : error)
| ErrContext (err : context.Err)
| ErrCursor (err : error)
| ErrIterating (err : error).

(** The Go result pair: a response pointer (nil as [None]) and an error. *)
Definition Result : Type := option pb.FederationFetchResponse * option Error.

Section Loop.
Context {It : Type}.
Variable iter : database.InfectionIterator It.
Variable ctx : context.Context.
Variables included excluded : gset string.

Inductive Step :=
| Continue (it : It) (st : Agg)
| Break (it : It) (st : Agg)
| Fail (it : It) (e : Error).

(** One pass through the loop body, at the [i]-th poll of the context. *)
Definition body (i : nat) (it : It) (st : Agg) : Step :=
  match ctx i with
  | Some err =>
      if context.unexpected err then Fail it (ErrContext err)
      else
        match database.Cursor iter it with
        | (_, Some err) => Fail it (ErrCursor err)
        | (cursor, None) =>
            Continue it
              (mkAgg (ctrMap st) (ctiMap st)
                 (with_Partial (response st) cursor))
        end
  | None =>
      let '((inf, done, err), it') := database.Next iter it in
      match err with
      | Some err => Fail it' (ErrIterating err)
      | None =>
          if done then Break it' st
          else
            match inf with
            | None => Continue it' st
            | Some inf => Continue it' (absorb included excluded st inf)
            end
      end
  end.

(** [for !response.PartialResponse { ... }]; [fuel] bounds the number of
    times the loop head is reached, [None] means the bound was hit.  The
    final iterator state is returned next to the result. *)
Fixpoint loop (fuel : nat) (i : nat) (it : It) (st : Agg)
    : option (It * Result) :=
  match fuel with
  | O => None
  | S fuel' =>
      if pb.PartialResponse (response st)
      then Some (it, (Some (response st), None))
      else
        match body i it st with
        | Continue it' st' => loop fuel' (S i) it' st'
        | Break it' st' => Some (it', (Some (response st'), None))
        | Fail it' e => Some (it', (None, Some e))
        end
  end.
End Loop.

(** What a call leaves behind: the request (mutated in place), the iterator
    (absent when it could not be opened) and the returned pair. *)
Record Outcome (It : Type) := mkOutcome {
  out_request : pb.FederationFetchRequest;
  out_iterator : option It;
  out_result : Result
}.
Arguments mkOutcome {It} _ _ _.
Arguments out_request {It} _.
Arguments out_iterator {It} _.
Arguments out_result {It} _.

(** [fetchIterator], without the context argument it merely forwards. *)
Definition fetchIterator (It : Type) : Type :=
  database.FetchInfectionsCriteria -> It * option error.

Definition fetch {It : Type} (iter : database.InfectionIterator It)
    (fuel : nat) (ctx : context.Context) (req : pb.FederationFetchRequest)
    (itFunc : fetchIterator It) (fetchUntil : time.Time)
    : option (Outcome It) :=
  let req := normalize req in
  let criteria := build_criteria req fetchUntil in
  let included := includedRegions req in
  let excluded := excludedRegions req in
  match itFunc criteria with
  | (_, Some err) =>
      Some (mkOutcome req None (None, Some (ErrQuerying criteria err)))
  | (it, None) =>
      match loop iter ctx included excluded fuel 0 it init_Agg with
      | None => None
      | Some (it', r) => Some (mkOutcome req (Some it') r)
      end
  end.
End Fetch.

Arguments mkOutcome {It} _ _ _.
Arguments out_request {It} _.
Arguments out_iterator {It} _.
Arguments out_result {It} _.

(** * Vocabulary of the properties *)

(** ** Records handed out, and how a run of the loop ends *)

Section RunDefs.
Variable DiagnosisStatus_name : gmap Z string.
Context {It : Type}.
Variable iter : database.InfectionIterator It.
Variable ctx : context.Context.
Variables included excluded : gset string.

#[local] Abbreviation absorb' := (absorb DiagnosisStatus_name included excluded).

(** [pull n it]: the records handed out by the first [n] calls of [Next]
    from [it], provided none of them fails or reports exhaustion, and the
    iterator they leave.  Nil records are handed out but carry nothing. *)
Fixpoint pull (n : nat) (it : It) : option (list model.Infection * It) :=
  match n with
  | O => Some ([], it)
  | S n' =>
      match database.Next iter it with
      | ((inf, false, None), it') =>
          match pull n' it' with
          | Some (l, it'') =>
              Some (match inf with Some r => r :: l | None => l end, it'')
          | None => None
          end
      | _ => None
      end
  end.

(** The context stays silent for the [n] polls starting at the [i]-th. *)
Definition quiet (i n : nat) : Prop :=
  forall k, (k < n)%nat -> ctx (i + k)%nat = None.

(** How a call that has entered the loop can come back. *)
Inductive Ending (i : nat) (it : It) (st : Agg) : It -> Result -> Prop :=
| end_exhausted n items it_n inf it' :
    quiet i (S n) -> pull n it = Some (items, it_n) ->
    database.Next iter it_n = ((inf, true, None), it') ->
    Ending i it st it' (Some (response (foldl absorb' st items)), None)
| end_partial n items it_n e cursor :
    quiet i n -> pull n it = Some (items, it_n) ->
    ctx (i + n)%nat = Some e -> context.unexpected e = false ->
    database.Cursor iter it_n = (cursor, None) ->
    Ending i it st it_n
      (Some (with_Partial (response (foldl absorb' st items)) cursor), None)
| end_context n items it_n e :
    quiet i n -> pull n it = Some (items, it_n) ->
    ctx (i + n)%nat = Some e -> context.unexpected e = true ->
    Ending i it st it_n (None, Some (ErrContext e))
| end_cursor n items it_n e cursor err :
    quiet i n -> pull n it = Some (items, it_n) ->
    ctx (i + n)%nat = Some e -> context.unexpected e = false ->
    database.Cursor iter it_n = (cursor, Some err) ->
    Ending i it st it_n (None, Some (ErrCursor err))
| end_iterating n items it_n inf done err it' :
    quiet i (S n) -> pull n it = Some (items, it_n) ->
    database.Next iter it_n = ((inf, done, Some err), it') ->
    Ending i it st it' (None, Some (ErrIterating err)).
End RunDefs.

(** ** Reading the response through pointers *)

(** The region list of the response entry at position [p]. *)
Definition regs_at (L : list pb.ContactTracingResponse) (p : nat)
    : option (list string) :=
  pb.ctr_RegionIdentifiers <$> L !! p.

(** The [ContactTracingInfo] at a path, with the regions of its entry. *)
Definition at_path (L : list pb.ContactTracingResponse) (q : nat * nat)
    : option (list string * pb.ContactTracingInfo) :=
  match L !! fst q with
  | Some ctr =>
      match pb.ctr_ContactTracingInfo ctr !! snd q with
      | Some cti => Some (pb.ctr_RegionIdentifiers ctr, cti)
      | None => None
      end
  | None => None
  end.

(** The [ctiMap] key under which the object at a path was registered. *)
Definition path_key (x : list string * pb.ContactTracingInfo) : string :=
  ctiKey_of (Join (fst x)) (pb.cti_DiagnosisStatus (snd x))
    (pb.cti_VerificationAuthorityName (snd x)).

Definition ctr_keys (ctr : pb.ContactTracingResponse) : list pb.DiagnosisKey :=
  concat (pb.cti_DiagnosisKeys <$> pb.ctr_ContactTracingInfo ctr).

(** Every [DiagnosisKey] of a response, in document order. *)
Definition all_keys (L : list pb.ContactTracingResponse) : list pb.DiagnosisKey :=
  concat (ctr_keys <$> L).

Definition with_key (dk : pb.DiagnosisKey)
    (x : list string * pb.ContactTracingInfo) :=
  (fst x, append_key dk (snd x)).

(** ** Well-formedness of the two indexes

    [ctrMap] binds exactly the joined region list of every response entry to
    the position of that entry, and [ctiMap] binds exactly the key string of
    every [ContactTracingInfo] to its path.  Stored region lists are sorted. *)
Record wf (st : Agg) : Prop := mkWf {
  wf_ctr : forall K p,
    ctrMap st !! K = Some p
    <-> Join <$> regs_at (pb.Response (response st)) p = Some K;
  wf_cti : forall k q,
    ctiMap st !! k = Some q
    <-> path_key <$> at_path (pb.Response (response st)) q = Some k;
  wf_sorted : forall p regs,
    regs_at (pb.Response (response st)) p = Some regs ->
    sort_Strings regs = regs
}.

(** The last step of [aggregate]: the key is appended through the pointer and
    the high-watermark is raised. *)
Definition add_key (st : Agg) (q : nat * nat) (dk : pb.DiagnosisKey)
    (created : Z) : Agg :=
  let r3 := with_Response (response st)
              (append_key_at q dk (pb.Response (response st))) in
  mkAgg (ctrMap st) (ctiMap st)
    (if (pb.FetchResponseKeyTimestamp r3 <? created)%Z
     then with_Timestamp r3 created else r3).

Definition rec_ctrKey (inf : model.Infection) : string :=
  ctrKey_of (model.Regions inf).

Definition rec_ctiKey (inf : model.Infection) : string :=
  ctiKey_of (rec_ctrKey inf) (int32 (model.DiagnosisStatus inf))
    (model.VerificationAuthorityName inf).

(** ** What the response holds after a sequence of eligible records *)

Definition keys_at (L : list pb.ContactTracingResponse) (q : nat * nat)
    : option (list pb.DiagnosisKey) :=
  (fun x => pb.cti_DiagnosisKeys (snd x)) <$> at_path L q.

(** The keys of the records whose [ctiMap] key string is [k], in order. *)
Definition keyseq (k : string) (seen : list model.Infection)
    : list pb.DiagnosisKey :=
  key_of <$> filter (fun r => rec_ctiKey r = k) seen.

(** [max(0, max createdAt)], as the loop computes it. *)
Definition watermark (seen : list model.Infection) : Z :=
  foldl (fun w r => Z.max w (time.Unix (model.CreatedAt r))) 0 seen.

Record content (seen : list model.Infection) (st : Agg) : Prop := mkContent {
  ct_keys : forall k q,
    ctiMap st !! k = Some q ->
    keys_at (pb.Response (response st)) q = Some (keyseq k seen);
  ct_seen_cti : forall r, r ∈ seen -> is_Some (ctiMap st !! rec_ctiKey r);
  ct_seen_ctr : forall r, r ∈ seen -> is_Some (ctrMap st !! rec_ctrKey r);
  ct_all : all_keys (pb.Response (response st)) ≡ₚ key_of <$> seen;
  ct_time : pb.FetchResponseKeyTimestamp (response st) = watermark seen
}.

(** The invariant of the aggregation: both indexes are well formed and the
    response holds exactly what the records seen so far put there. *)
Definition Inv (seen : list model.Infection) (st : Agg) : Prop :=
  wf st /\ content seen st.

(** ** Records that pass the filter chain *)

#[global] Instance Skip_eq_dec : EqDecision Skip.
Proof. solve_decision. Defined.

Section EligibleDefs.
Variable DiagnosisStatus_name : gmap Z string.
Variables included excluded : gset string.

#[local] Abbreviation check' := (check DiagnosisStatus_name included excluded).

(** The records of [items] that reach the aggregation, in order. *)
Definition eligible_records (items : list model.Infection)
    : list model.Infection :=
  filter (fun r => check' r = None) items.
End EligibleDefs.

(** ** Calls that return a response *)

Section CallDefs.
Variable ToUpper : string -> string.
Variable DiagnosisStatus_name : gmap Z string.
Context {It : Type}.
Variable iter : database.InfectionIterator It.
Variable ctx : context.Context.
Variable req : pb.FederationFetchRequest.
Variable itFunc : fetchIterator It.
Variable fetchUntil : time.Time.

(** Everything [itFunc] and the iterator hand to the call before it ends:
    the opened iterator and the records of its first [n] calls of [Next]. *)
Definition handed_out (n : nat) (items : list model.Infection) (it_n : It)
    : Prop :=
  exists it0,
    itFunc (build_criteria (normalize ToUpper req) fetchUntil) = (it0, None)
    /\ pull iter n it0 = Some (items, it_n).

(** The records among them that pass the filter chain of this request. *)
Definition included_records (items : list model.Infection)
    : list model.Infection :=
  eligible_records DiagnosisStatus_name
    (includedRegions (normalize ToUpper req))
    (excludedRegions (normalize ToUpper req)) items.

(** The state the aggregation is in after these records. *)
Definition state_after (items : list model.Infection) : Agg :=
  foldl (absorb DiagnosisStatus_name
           (includedRegions (normalize ToUpper req))
           (excludedRegions (normalize ToUpper req)))
    init_Agg items.

(** The records of a call: those handed out by the [n] calls of [Next] the
    loop made before it ended, which it does at its [n]-th poll of the
    context when the context has fired there, and at the call of [Next]
    that follows when that call reports exhaustion.  This pins [n], the
    records and the iterator state: see [run_records_unique]. *)
Definition run_records (n : nat) (items : list model.Infection) (it_n : It)
    : Prop :=
  handed_out n items it_n
  /\ quiet ctx 0 n
  /\ ((exists e, ctx n = Some e)
      \/ (ctx n = None
          /\ exists inf it',
               database.Next iter it_n = ((inf, true, None), it'))).

(** ** Fatal conditions *)

(** A fatal condition, with the number of records handed out before it and
    the error it is reported as. *)
Inductive fatal_condition : nat -> Error -> Prop :=
| fatal_open it0 err :
    itFunc (build_criteria (normalize ToUpper req) fetchUntil) = (it0, Some err) ->
    fatal_condition 0
      (ErrQuerying (build_criteria (normalize ToUpper req) fetchUntil) err)
| fatal_next n items it_n inf done err it' :
    handed_out n items it_n -> quiet ctx 0 (S n) ->
    database.Next iter it_n = ((inf, done, Some err), it') ->
    fatal_condition n (ErrIterating err)
| fatal_cursor n items it_n e cursor err :
    handed_out n items it_n -> quiet ctx 0 n ->
    ctx n = Some e -> e = context.DeadlineExceeded \/ e = context.Canceled ->
    database.Cursor iter it_n = (cursor, Some err) ->
    fatal_condition n (ErrCursor err)
| fatal_context n items it_n e :
    handed_out n items it_n -> quiet ctx 0 n ->
    ctx n = Some e -> e <> context.DeadlineExceeded -> e <> context.Canceled ->
    fatal_condition n (ErrContext e).
End CallDefs.

(** ** The six rules of the filter chain *)

(** [check] with the two membership maps built from a request. *)
Definition check_request (ToUpper : string -> string)
    (DiagnosisStatus_name : gmap Z string) (req : pb.FederationFetchRequest)
    (inf : model.Infection) : option Skip :=
  check DiagnosisStatus_name (includedRegions (normalize ToUpper req))
    (excludedRegions (normalize ToUpper req)) inf.

(** The rules, in the words of the specification. *)
Module Rules.
Section Rules.
Variable DiagnosisStatus_name : gmap Z string.
Variables included excluded : gset string.
Variable inf : model.Infection.

(** 1. The diagnosis key is non-empty. *)
Definition has_key : Prop := model.DiagnosisKey inf <> [].
(** 2. The region set is non-empty. *)
Definition has_regions : Prop := model.Regions inf <> [].
(** 3. The record is of local provenance. *)
Definition is_local : Prop := model.LocalProvenance inf = true.
(** 4. The status code is one of the enumerated values. *)
Definition status_recognized : Prop :=
  is_Some (DiagnosisStatus_name !! int32 (model.DiagnosisStatus inf)).
(** 5. At least one region is absent from the exclusion set. *)
Definition not_all_excluded : Prop :=
  exists region, region ∈ model.Regions inf /\ region ∉ excluded.
(** 6. The inclusion set is empty or at least one region is in it. *)
Definition some_included : Prop :=
  included = ∅ \/ exists region, region ∈ model.Regions inf /\ region ∈ included.

Definition eligible : Prop :=
  has_key /\ has_regions /\ is_local /\ status_recognized
  /\ not_all_excluded /\ some_included.
End Rules.
End Rules.

(** ** Keys, pairs and first-seen order *)

(** The canonical region-set key of a response entry. *)
Definition ctr_key (ctr : pb.ContactTracingResponse) : string :=
  ctrKey_of (pb.ctr_RegionIdentifiers ctr).

(** The (status, authority) pair of a [ContactTracingInfo]. *)
Definition cti_pair (cti : pb.ContactTracingInfo) : Z * string :=
  (pb.cti_DiagnosisStatus cti, pb.cti_VerificationAuthorityName cti).

Definition created (r : model.Infection) : Z := time.Unix (model.CreatedAt r).

(** The distinct elements of a list, in the order of their first
    occurrences. *)
Definition first_seen {A} `{EqDecision A} (l : list A) : list A :=
  foldl (fun acc x => if decide (x ∈ acc) then acc else (acc ++ [x])%list) [] l.

(** The (status, authority) pair a record is grouped by. *)
Definition pair_of (r : model.Infection) : Z * string :=
  (int32 (model.DiagnosisStatus r), model.VerificationAuthorityName r).

(** The records of one group: same region-set key, same pair. *)
Definition group (K : string) (pr : Z * string) (seen : list model.Infection)
    : list model.Infection :=
  filter (fun x => rec_ctrKey x = K /\ pair_of x = pr) seen.

(** No two records with different (region-set key, status, authority)
    triples render the same [ctiMap] key string. *)
Definition no_collision (seen : list model.Infection) : Prop :=
  forall ra rb, ra ∈ seen -> rb ∈ seen ->
    rec_ctiKey ra = rec_ctiKey rb ->
    rec_ctrKey ra = rec_ctrKey rb /\ pair_of ra = pair_of rb.

(** The pairs of the [ContactTracingInfo] entries of the entry at [p]. *)
Definition pairs_at (L : list pb.ContactTracingResponse) (p : nat)
    : option (list (Z * string)) :=
  (fun ctr => cti_pair <$> pb.ctr_ContactTracingInfo ctr) <$> L !! p.

Record grouped (seen : list model.Infection) (st : Agg) : Prop := mkGrouped {
  gr_creator : forall k q,
    ctiMap st !! k = Some q ->
    exists r0 regs cti,
      r0 ∈ seen /\ rec_ctiKey r0 = k
      /\ at_path (pb.Response (response st)) q = Some (regs, cti)
      /\ Join regs = rec_ctrKey r0 /\ cti_pair cti = pair_of r0;
  gr_infos : forall p K,
    Join <$> regs_at (pb.Response (response st)) p = Some K ->
    pairs_at (pb.Response (response st)) p
    = Some (first_seen (pair_of <$> filter (fun x => rec_ctrKey x = K) seen))
}.

(** * Concrete worlds

    A scripted iterator for replaying calls: the state is the cursor of the
    current position and the outcomes of the calls of [Next] still to come,
    each with the cursor that holds after it.  Past the script the iterator
    reports exhaustion. *)
Module Scripted.
Definition outcome : Type := option model.Infection * bool * option error.
Definition cursor : Type := string * option error.
Definition state : Type := cursor * list (outcome * cursor).

Definition Next (it : state) : outcome * state :=
  match snd it with
  | [] => ((None, true, None), it)
  | (o, c) :: rest => (o, (c, rest))
  end.

Definition Cursor (it : state) : string * option error := fst it.

Definition iterator : database.InfectionIterator state :=
  database.mkIterator state Next Cursor.

(** A record handed out without error, leaving the cursor at [c]. *)
Definition gives (inf : model.Infection) (c : string) : outcome * cursor :=
  ((Some inf, false, None), (c, None)).

(** [itFunc] that opens the script at the cursor of the request. *)
Definition opens (script : list (outcome * cursor)) : fetchIterator state :=
  fun criteria => (((database.LastCursor criteria, None), script), None).

(** A table of recognised diagnosis-status codes. *)
Definition status_names : gmap Z string :=
  <[0%Z := "UNKNOWN"]> (<[1%Z := "CONFIRMED"]> ∅).

Definition never : context.Context := fun _ => None.
Definition fires_at (n : nat) (e : context.Err) : context.Context :=
  fun i => if (i <? n)%nat then None else Some e.

Definition record (k : string) (key : Byte.byte) (regions : list string)
    (status : Z) (name : string) (created : Z) : model.Infection :=
  model.mkInfection k [key] regions true status name 10 144
    (time.mkTime created 0).

Definition request (include exclude : list string) : pb.FederationFetchRequest :=
  pb.mkRequest include exclude 0 "".

Definition horizon : time.Time := time.mkTime 1000 0.

Definition run (fuel : nat) (ctx : context.Context)
    (req : pb.FederationFetchRequest) (script : list (outcome * cursor))
    : option (Outcome state) :=
  fetch ascii_ToUpper status_names iterator fuel ctx req (opens script) horizon.
End Scripted.

(** ** Records and scripts *)

Module Replay.
Import Scripted.

Definition r1 : model.Infection :=
  record "k1" Byte.x01 ["US"; "CA"] 1 "ha" 5.
Definition r2 : model.Infection :=
  record "k2" Byte.x02 ["CA"; "US"] 1 "ha" 7.
Definition nil_record : outcome * cursor := ((None, false, None), ("c1", None)).
Definition failing : outcome * cursor :=
  ((None, false, Some "unavailable"), ("c1", None)).
End Replay.

(** ** Further records and scripts *)

Module Calls.
Import Scripted.

(** Two records with the same regions in different orders, then exhaustion
    (the end-to-end scenario of the specification). *)
Definition script1 : list (outcome * cursor) :=
  [gives Replay.r1 "c1"; gives Replay.r2 "c2"].

Definition dummy : Outcome state :=
  mkOutcome (request [] []) None (None, None).

Definition out1 : Outcome state :=
  Eval vm_compute in default dummy (run 3 never (request [] []) script1).

Definition resp1 : pb.FederationFetchResponse :=
  Eval vm_compute in default pb.empty_response (fst (out_result out1)).

(** The same region twice in one record, and once in the next. *)
Definition ra : model.Infection := record "ka" Byte.x01 ["US"; "US"] 1 "ha" 5.
Definition rb : model.Infection := record "kb" Byte.x02 ["US"] 1 "ha" 6.

(** A record without diagnosis key, and one with a lower-case region. *)
Definition keyless : model.Infection :=
  model.mkInfection "kk" [] ["US"] true 1 "ha" 10 144 (time.mkTime 6 0).
Definition lower : model.Infection := record "kl" Byte.x03 ["us"] 1 "ha" 5.

(** A record created before the epoch. *)
Definition early : model.Infection :=
  record "ke" Byte.x01 ["US"] 1 "ha" (-5).

(** Two records whose [ctiMap] key strings coincide although their region
    lists, and so their [ctrMap] keys, differ. *)
Definition c1 : model.Infection := record "k1" Byte.x01 ["0"] 1 "1::z" 5.
Definition c2 : model.Infection := record "k2" Byte.x02 ["0"; "1"] 1 "z" 6.
End Calls.

(** ** Calls cut short and calls resumed *)

Module Resume.
Import Scripted.

(** The script of [Calls.script1], with the context firing at the second
    poll: one record is handed out, the cursor is ["c1"]. *)
Definition ctx1 : context.Context := fires_at 1 context.DeadlineExceeded.

Definition outP : Outcome state :=
  Eval vm_compute in
    default Calls.dummy (run 3 ctx1 (request [] []) Calls.script1).

Definition respP : pb.FederationFetchResponse :=
  Eval vm_compute in default pb.empty_response (fst (out_result outP)).

(** The same, with the context firing at the third poll. *)
Definition ctx2 : context.Context := fires_at 2 context.Canceled.

Definition outQ : Outcome state :=
  Eval vm_compute in
    default Calls.dummy (run 4 ctx2 (request [] []) Calls.script1).

Definition respQ : pb.FederationFetchResponse :=
  Eval vm_compute in default pb.empty_response (fst (out_result outQ)).

(** The iterator where the first call left it, and the call that resumes
    there: the request carries the token and the watermark of [respP]. *)
Definition left_at : state := (("c1", None), [gives Replay.r2 "c2"]).

Definition resumed : pb.FederationFetchRequest := pb.mkRequest [] [] 5 "c1".

Definition outR : Outcome state :=
  Eval vm_compute in
    default Calls.dummy
      (fetch ascii_ToUpper status_names iterator 3 never resumed
         (opens [gives Replay.r2 "c2"]) horizon).

Definition respR : pb.FederationFetchResponse :=
  Eval vm_compute in default pb.empty_response (fst (out_result outR)).
End Resume.

(** ** Runs with twins, a pre-epoch record, several groups, a collision *)

Module Mixed.
Import Scripted.

(** The same record handed out twice, another record in between. *)
Definition twin : model.Infection := record "kt" Byte.x07 ["US"] 1 "ha" 5.

Definition twins : list (outcome * cursor) :=
  [gives twin "c1"; gives Replay.r1 "c2"; gives twin "c3"].

Definition out_twins : Outcome state :=
  Eval vm_compute in default Calls.dummy (run 4 never (request [] []) twins).

Definition resp_twins : pb.FederationFetchResponse :=
  Eval vm_compute in default pb.empty_response (fst (out_result out_twins)).

(** A record created after the epoch, then one created before it. *)
Definition before : model.Infection :=
  record "kp" Byte.x09 ["US"] 1 "ha" (-5).

Definition around_epoch : list (outcome * cursor) :=
  [gives Replay.r1 "c1"; gives before "c2"].

Definition out_epoch : Outcome state :=
  Eval vm_compute in
    default Calls.dummy (run 3 never (request [] []) around_epoch).

Definition resp_epoch : pb.FederationFetchResponse :=
  Eval vm_compute in default pb.empty_response (fst (out_result out_epoch)).

(** Five records in two region sets and two (status, authority) pairs. *)
Definition g1 : model.Infection := record "g1" Byte.x01 ["US"; "CA"] 1 "ha" 5.
Definition g2 : model.Infection := record "g2" Byte.x02 ["US"] 0 "hb" 6.
Definition g3 : model.Infection := record "g3" Byte.x03 ["CA"; "US"] 0 "hb" 7.
Definition g4 : model.Infection := record "g4" Byte.x04 ["US"] 0 "hb" 8.
Definition g5 : model.Infection := record "g5" Byte.x05 ["US"; "CA"] 1 "ha" 9.

Definition groups : list (outcome * cursor) :=
  [gives g1 "c1"; gives g2 "c2"; gives g3 "c3"; gives g4 "c4"; gives g5 "c5"].

Definition out_groups : Outcome state :=
  Eval vm_compute in default Calls.dummy (run 6 never (request [] []) groups).

Definition resp_groups : pb.FederationFetchResponse :=
  Eval vm_compute in default pb.empty_response (fst (out_result out_groups)).






(** The colliding records of [Calls], followed by a record with the region
    set of the second, listed in the other order, and another authority. *)
Definition sb : model.Infection := record "kb" Byte.x03 ["1"; "0"] 1 "y" 7.

Definition split : list (outcome * cursor) :=
  [gives Calls.c1 "c1"; gives Calls.c2 "c2"; gives sb "c3"].
End Mixed.

(** * Vocabulary of further properties *)

(** The iterator after [k] calls of [Next]. *)
Fixpoint advance {It : Type} (iter : database.InfectionIterator It) (k : nat)
    (it : It) : It :=
  match k with
  | O => it
  | S k' => advance iter k' (snd (database.Next iter it))
  end.

(** Where the entries of the response come from: every region list is the
    sorted region list of a record seen, and every [ContactTracingInfo]
    carries the pair and the key string of a record seen. *)
Record origin (seen : list model.Infection) (st : Agg) : Prop := mkOrigin {
  or_ctr : forall p regs,
    regs_at (pb.Response (response st)) p = Some regs ->
    exists r0, r0 ∈ seen /\ regs = sort_Strings (model.Regions r0);
  or_cti : forall q regs cti,
    at_path (pb.Response (response st)) q = Some (regs, cti) ->
    exists r0,
      r0 ∈ seen /\ rec_ctiKey r0 = path_key (regs, cti)
      /\ cti_pair cti = pair_of r0
}.

(** One response extends another: every entry is still there, at the same
    position and with the same regions, status and authority, and the keys
    it had are a prefix of the keys it has. *)
Definition cti_extends (c c' : pb.ContactTracingInfo) : Prop :=
  cti_pair c = cti_pair c'
  /\ pb.cti_DiagnosisKeys c `prefix_of` pb.cti_DiagnosisKeys c'.

Definition ctr_extends (c c' : pb.ContactTracingResponse) : Prop :=
  pb.ctr_RegionIdentifiers c = pb.ctr_RegionIdentifiers c'
  /\ forall j cti,
       pb.ctr_ContactTracingInfo c !! j = Some cti ->
       exists cti',
         pb.ctr_ContactTracingInfo c' !! j = Some cti' /\ cti_extends cti cti'.

Definition extends (L L' : list pb.ContactTracingResponse) : Prop :=
  forall p ctr,
    L !! p = Some ctr -> exists ctr', L' !! p = Some ctr' /\ ctr_extends ctr ctr'.

(** The request a caller resumes with: the same region lists (in whatever
    case), so the same two membership maps. *)
Definition same_filters (ToUpper : string -> string)
    (req req' : pb.FederationFetchRequest) : Prop :=
  includedRegions (normalize ToUpper req') = includedRegions (normalize ToUpper req)
  /\ excludedRegions (normalize ToUpper req')
     = excludedRegions (normalize ToUpper req).

(** A string without the character of the separator. *)
Fixpoint colon_free (s : string) : bool :=
  match s with
  | EmptyString => true
  | String c s' => negb (Ascii.eqb c ":"%char) && colon_free s'
  end.

(** Two records that differ at most in their datastore key [K] and in the
    order in which they list their regions. *)
Definition same_up_to_order (r r' : model.Infection) : Prop :=
  model.DiagnosisKey r = model.DiagnosisKey r'
  /\ model.Regions r ≡ₚ model.Regions r'
  /\ model.LocalProvenance r = model.LocalProvenance r'
  /\ model.DiagnosisStatus r = model.DiagnosisStatus r'
  /\ model.VerificationAuthorityName r = model.VerificationAuthorityName r'
  /\ model.IntervalNumber r = model.IntervalNumber r'
  /\ model.IntervalCount r = model.IntervalCount r'
  /\ model.CreatedAt r = model.CreatedAt r'.

(** [Replay.r1] under another datastore key, its regions swapped. *)
Definition r1_swapped : model.Infection :=
  Scripted.record "k9" Byte.x01 ["CA"; "US"] 1 "ha" 5.

(** * Properties *)

(** ** The string order and [sort.Strings] *)

Lemma compare_no_Gt_trans (s1 s2 s3 : string) :
  String.compare s1 s2 <> Gt -> String.compare s2 s3 <> Gt ->
  String.compare s1 s3 <> Gt.
Proof.
  revert s2 s3.
  induction s1 as [|a s1 IH]; intros [|b s2] [|c s3]; simpl; try congruence.
  unfold Ascii.compare.
  destruct (N.compare_spec (N_of_ascii a) (N_of_ascii b)) as [Hab|Hab|Hab],
           (N.compare_spec (N_of_ascii b) (N_of_ascii c)) as [Hbc|Hbc|Hbc],
           (N.compare_spec (N_of_ascii a) (N_of_ascii c)) as [Hac|Hac|Hac];
    try congruence; try lia; eauto.
Qed.

Lemma leb_no_Gt (s1 s2 : string) :
  String.leb s1 s2 = true <-> String.compare s1 s2 <> Gt.
Proof. unfold String.leb. destruct (String.compare s1 s2); split; congruence. Qed.

#[global] Instance string_le_trans : Transitive string_le.
Proof.
  intros s1 s2 s3. unfold string_le. rewrite !leb_no_Gt.
  apply compare_no_Gt_trans.
Qed.

#[global] Instance string_le_total : Total string_le.
Proof. intros s1 s2. apply String.leb_total. Qed.

#[global] Instance string_le_antisym : AntiSymm (=) string_le.
Proof. intros s1 s2. apply String.leb_antisym. Qed.

Lemma sort_Strings_Sorted (l : list string) : Sorted string_le (sort_Strings l).
Proof. apply (Sorted_merge_sort string_le). Qed.

Lemma sort_Strings_Permutation (l : list string) : sort_Strings l ≡ₚ l.
Proof. apply (merge_sort_Permutation string_le). Qed.

(** The sorted arrangement depends on the elements only, not their order. *)
Lemma sort_Strings_perm (l1 l2 : list string) :
  l1 ≡ₚ l2 -> sort_Strings l1 = sort_Strings l2.
Proof.
  intros Hp. apply (Sorted_unique string_le); try apply sort_Strings_Sorted.
  now rewrite !sort_Strings_Permutation.
Qed.

Lemma sort_Strings_sorted_id (l : list string) :
  Sorted string_le l -> sort_Strings l = l.
Proof.
  intros Hs. apply (Sorted_unique string_le); auto using sort_Strings_Sorted.
  apply sort_Strings_Permutation.
Qed.

Lemma sort_Strings_idem (l : list string) :
  sort_Strings (sort_Strings l) = sort_Strings l.
Proof. apply sort_Strings_sorted_id, sort_Strings_Sorted. Qed.

Lemma ctrKey_of_sorted (l : list string) :
  ctrKey_of (sort_Strings l) = Join (sort_Strings l).
Proof. unfold ctrKey_of. now rewrite sort_Strings_idem. Qed.

Lemma ctrKey_of_perm (l1 l2 : list string) :
  l1 ≡ₚ l2 -> ctrKey_of l1 = ctrKey_of l2.
Proof. intros Hp. unfold ctrKey_of. now rewrite (sort_Strings_perm l1 l2). Qed.

(** ** The filter chain *)

Lemma only_excluded_spec (excluded : gset string) (regions : list string) :
  only_excluded excluded regions = false <->
  exists region, region ∈ regions /\ region ∉ excluded.
Proof.
  induction regions as [|r rs IH]; simpl.
  - split; [discriminate|]. intros (x & Hx & _). inversion Hx.
  - case_bool_decide as Hr.
    + rewrite IH. split.
      * intros (x & Hx & Hn). exists x. split; [now right|done].
      * intros (x & Hx & Hn). apply elem_of_cons in Hx as [->|Hx]; [done|eauto].
    + split; [|done]. intros _. exists r. split; [now left|done].
Qed.

Lemma none_included_spec (included : gset string) (regions : list string) :
  none_included included regions = false <->
  exists region, region ∈ regions /\ region ∈ included.
Proof.
  induction regions as [|r rs IH]; simpl.
  - split; [discriminate|]. intros (x & Hx & _). inversion Hx.
  - case_bool_decide as Hr.
    + split; [|done]. intros _. exists r. split; [now left|done].
    + rewrite IH. split.
      * intros (x & Hx & Hn). exists x. split; [now right|done].
      * intros (x & Hx & Hn). apply elem_of_cons in Hx as [->|Hx]; [done|eauto].
Qed.

(** ** Runs of the loop *)

Section Runs.
Variable DiagnosisStatus_name : gmap Z string.
Context {It : Type}.
Variable iter : database.InfectionIterator It.
Variable ctx : context.Context.
Variables included excluded : gset string.

#[local] Abbreviation absorb' := (absorb DiagnosisStatus_name included excluded).
#[local] Abbreviation body' := (body DiagnosisStatus_name iter ctx included excluded).
#[local] Abbreviation loop' := (loop DiagnosisStatus_name iter ctx included excluded).

#[local] Abbreviation pull := (pull iter).
#[local] Abbreviation quiet := (quiet ctx).
#[local] Abbreviation Ending :=
  (Ending DiagnosisStatus_name iter ctx included excluded).
#[local] Abbreviation end_exhausted :=
  (end_exhausted DiagnosisStatus_name iter ctx included excluded).
#[local] Abbreviation end_partial :=
  (end_partial DiagnosisStatus_name iter ctx included excluded).
#[local] Abbreviation end_context :=
  (end_context DiagnosisStatus_name iter ctx included excluded).
#[local] Abbreviation end_cursor :=
  (end_cursor DiagnosisStatus_name iter ctx included excluded).
#[local] Abbreviation end_iterating :=
  (end_iterating DiagnosisStatus_name iter ctx included excluded).

Lemma quiet_S (i n : nat) :
  quiet i (S n) -> ctx i = None /\ quiet (S i) n.
Proof.
  intros Hq. split.
  - specialize (Hq O). rewrite Nat.add_0_r in Hq. apply Hq. lia.
  - intros k Hk. specialize (Hq (S k)).
    replace (S i + k)%nat with (i + S k)%nat by lia. apply Hq. lia.
Qed.

Lemma quiet_cons (i n : nat) :
  ctx i = None -> quiet (S i) n -> quiet i (S n).
Proof.
  intros H0 Hq [|k] Hk.
  - now rewrite Nat.add_0_r.
  - replace (i + S k)%nat with (S i + k)%nat by lia. apply Hq. lia.
Qed.

Lemma aggregate_Partial (st : Agg) (inf : model.Infection) :
  pb.PartialResponse (response (aggregate st inf))
  = pb.PartialResponse (response st).
Proof.
  unfold aggregate, find_ctr, find_cti.
  repeat (case_match; simplify_eq; simpl in * ); reflexivity.
Qed.

Lemma aggregate_Token (st : Agg) (inf : model.Infection) :
  pb.NextFetchToken (response (aggregate st inf))
  = pb.NextFetchToken (response st).
Proof.
  unfold aggregate, find_ctr, find_cti.
  repeat (case_match; simplify_eq; simpl in * ); reflexivity.
Qed.

Lemma absorb_Partial (st : Agg) (inf : model.Infection) :
  pb.PartialResponse (response (absorb' st inf))
  = pb.PartialResponse (response st).
Proof. unfold absorb. case_match; auto using aggregate_Partial. Qed.

Lemma absorb_Token (st : Agg) (inf : model.Infection) :
  pb.NextFetchToken (response (absorb' st inf))
  = pb.NextFetchToken (response st).
Proof. unfold absorb. case_match; auto using aggregate_Token. Qed.

Lemma absorb_all_Partial (items : list model.Infection) (st : Agg) :
  pb.PartialResponse (response (foldl absorb' st items))
  = pb.PartialResponse (response st).
Proof.
  revert st. induction items as [|r l IH]; intros st; simpl; [done|].
  now rewrite IH, absorb_Partial.
Qed.

Lemma absorb_all_Token (items : list model.Infection) (st : Agg) :
  pb.NextFetchToken (response (foldl absorb' st items))
  = pb.NextFetchToken (response st).
Proof.
  revert st. induction items as [|r l IH]; intros st; simpl; [done|].
  now rewrite IH, absorb_Token.
Qed.

(** While the context is silent and [Next] hands out records, the loop
    just folds them into the state. *)
Lemma loop_pull (n fuel i : nat) (it it' : It) (st : Agg)
    (items : list model.Infection) :
  pb.PartialResponse (response st) = false ->
  quiet i n ->
  pull n it = Some (items, it') ->
  loop' (n + fuel) i it st = loop' fuel (i + n) it' (foldl absorb' st items).
Proof.
  revert i it st items.
  induction n as [|n IH]; intros i it st items Hp Hq Hpull; simpl in Hpull.
  - simplify_eq. simpl. now rewrite Nat.add_0_r.
  - apply quiet_S in Hq as [H0 Hq].
    destruct (database.Next iter it) as [[[inf done] err] it1] eqn:Hn.
    destruct done; [discriminate|]. destruct err; [discriminate|].
    destruct (pull n it1) as [[l it2]|] eqn:Hpl; [|discriminate].
    simplify_eq. simpl. rewrite Hp. unfold body.
    rewrite H0, Hn.
    replace (i + S n)%nat with (S i + n)%nat by lia.
    destruct inf as [r|]; simpl.
    + apply IH; auto. now rewrite absorb_Partial.
    + apply IH; auto.
Qed.

(** Number of times the loop head is reached on a given ending. *)
Lemma Ending_shift (i : nat) (it it1 it' : It) (st : Agg) (res : Result)
    (inf : option model.Infection) :
  ctx i = None ->
  database.Next iter it = ((inf, false, None), it1) ->
  Ending (S i) it1
    (match inf with Some r => absorb' st r | None => st end) it' res ->
  Ending i it st it' res.
Proof.
  intros H0 Hn He.
  assert (Hpull : forall n items it_n, pull n it1 = Some (items, it_n) ->
            pull (S n) it
            = Some (match inf with Some r => r :: items | None => items end,
                    it_n)).
  { intros n items it_n Hp. simpl. now rewrite Hn, Hp. }
  assert (Hfold : forall items,
            foldl absorb' (match inf with Some r => absorb' st r | None => st end)
              items
            = foldl absorb' st
                (match inf with Some r => r :: items | None => items end)).
  { intros items. now destruct inf. }
  inversion He; subst; rewrite ?Hfold.
  - eapply end_exhausted; eauto using quiet_cons.
  - replace (S i + n)%nat with (i + S n)%nat in * by lia.
    eapply end_partial; eauto using quiet_cons.
  - replace (S i + n)%nat with (i + S n)%nat in * by lia.
    eapply end_context; eauto using quiet_cons.
  - replace (S i + n)%nat with (i + S n)%nat in * by lia.
    eapply end_cursor; eauto using quiet_cons.
  - eapply end_iterating; eauto using quiet_cons.
Qed.

Lemma quiet_0 (i : nat) : quiet i 0.
Proof. intros k Hk. lia. Qed.

(** Every result of the loop is one of the five endings. *)
Lemma loop_Ending (fuel i : nat) (it it' : It) (st : Agg) (res : Result) :
  pb.PartialResponse (response st) = false ->
  loop' fuel i it st = Some (it', res) ->
  Ending i it st it' res.
Proof.
  revert i it st.
  induction fuel as [|fuel IH]; intros i it st Hp Hl; simpl in Hl;
    [discriminate|].
  rewrite Hp in Hl. unfold body in Hl.
  destruct (ctx i) as [e|] eqn:Hc.
  - destruct (context.unexpected e) eqn:Hu.
    + simplify_eq.
      eapply (end_context _ _ _ 0); eauto using quiet_0.
      now rewrite Nat.add_0_r.
    + destruct (database.Cursor iter it) as [cursor [err|]] eqn:Hcur.
      * simplify_eq.
        eapply (end_cursor _ _ _ 0); eauto using quiet_0.
        now rewrite Nat.add_0_r.
      * destruct fuel as [|fuel]; [discriminate|]. simpl in Hl.
        simplify_eq.
        apply (end_partial _ _ _ 0 [] _ e cursor); auto using quiet_0.
        now rewrite Nat.add_0_r.
  - destruct (database.Next iter it) as [[[inf done] err] it1] eqn:Hn.
    destruct err as [err|].
    + simplify_eq.
      eapply (end_iterating _ _ _ 0); eauto using quiet_cons, quiet_0.
    + destruct done.
      * simplify_eq.
        eapply (end_exhausted _ _ _ 0 []); eauto using quiet_cons, quiet_0.
      * eapply Ending_shift; eauto.
        destruct inf as [r|]; apply IH; auto.
        now rewrite absorb_Partial.
Qed.
End Runs.

(** ** Appending through pointers *)

Section Pointers.
Implicit Types (L : list pb.ContactTracingResponse) (p : nat) (q : nat * nat).

Lemma regs_at_push L regs p :
  regs_at (L ++ [pb.mkCtr regs []]) p
  = if decide (p = length L) then Some regs else regs_at L p.
Proof.
  unfold regs_at. case_decide as Hp.
  - subst. now rewrite list_lookup_middle.
  - destruct (decide (p < length L)%nat) as [Hlt|Hge].
    + now rewrite lookup_app_l.
    + rewrite !lookup_ge_None_2; [done|lia|]. rewrite length_app. simpl. lia.
Qed.

Lemma at_path_push L regs q :
  at_path (L ++ [pb.mkCtr regs []]) q = at_path L q.
Proof.
  unfold at_path. destruct (decide (fst q < length L)%nat) as [Hlt|Hge].
  - now rewrite lookup_app_l.
  - rewrite (lookup_ge_None_2 L) by lia.
    destruct (decide (fst q = length L)) as [->|Hne].
    + rewrite list_lookup_middle by done. simpl. done.
    + rewrite lookup_ge_None_2; [done|]. rewrite length_app. simpl. lia.
Qed.

Lemma all_keys_push L regs :
  all_keys (L ++ [pb.mkCtr regs []]) = all_keys L.
Proof.
  unfold all_keys. rewrite fmap_app, concat_app. simpl.
  now rewrite !app_nil_r.
Qed.

Lemma regs_at_alter L p p' (f : pb.ContactTracingResponse -> pb.ContactTracingResponse) :
  (forall ctr, pb.ctr_RegionIdentifiers (f ctr) = pb.ctr_RegionIdentifiers ctr) ->
  regs_at (alter f p L) p' = regs_at L p'.
Proof.
  intros Hf. unfold regs_at. destruct (decide (p = p')) as [->|Hne].
  - rewrite list_lookup_alter_eq. destruct (L !! p'); simpl; [|done].
    now rewrite Hf.
  - now rewrite list_lookup_alter_ne.
Qed.

Lemma regs_at_append_key L q dk p :
  regs_at (append_key_at q dk L) p = regs_at L p.
Proof. unfold append_key_at. now apply regs_at_alter. Qed.

Lemma regs_at_append_cti L p cti p' :
  regs_at (alter (append_cti cti) p L) p' = regs_at L p'.
Proof. now apply regs_at_alter. Qed.

(** Appending a [ContactTracingInfo] to the entry at [p] creates exactly the
    path [(p, cti_count L p)]. *)
Lemma at_path_append_cti L p regs cti q :
  regs_at L p = Some regs ->
  at_path (alter (append_cti cti) p L) q
  = if decide (q = (p, cti_count L p)) then Some (regs, cti) else at_path L q.
Proof.
  intros Hr. unfold regs_at in Hr. unfold at_path, cti_count.
  destruct (L !! p) as [ctr|] eqn:Hp; [|discriminate]. simpl in Hr.
  simplify_eq. destruct q as [p' j]. simpl.
  destruct (decide (p' = p)) as [->|Hne].
  - rewrite list_lookup_alter_eq, Hp. simpl.
    case_decide as Hq.
    + simplify_eq. now rewrite list_lookup_middle.
    + assert (j <> length (pb.ctr_ContactTracingInfo ctr)) by congruence.
      destruct (decide (j < length (pb.ctr_ContactTracingInfo ctr))%nat).
      * now rewrite lookup_app_l.
      * rewrite !lookup_ge_None_2; [done|lia|]. rewrite length_app. simpl. lia.
  - rewrite list_lookup_alter_ne by done.
    case_decide as Hq; [congruence|done].
Qed.

Lemma all_keys_alter L p (f : pb.ContactTracingResponse -> pb.ContactTracingResponse) :
  (forall ctr, ctr_keys (f ctr) = ctr_keys ctr) ->
  all_keys (alter f p L) = all_keys L.
Proof.
  intros Hf. unfold all_keys. f_equal.
  revert p. induction L as [|c L IH]; intros [|p]; simpl; try done.
  - now rewrite Hf.
  - f_equal. apply IH.
Qed.

Lemma all_keys_append_cti L p status name :
  all_keys (alter (append_cti (pb.mkInfo status name [])) p L) = all_keys L.
Proof.
  apply all_keys_alter. intros ctr. unfold ctr_keys, append_cti. simpl.
  rewrite fmap_app, concat_app. simpl. now rewrite !app_nil_r.
Qed.

(** Appending a key through a pointer changes the object at that path and
    nothing else. *)
Lemma at_path_append_key L q dk q' :
  at_path (append_key_at q dk L) q'
  = if decide (q' = q) then with_key dk <$> at_path L q else at_path L q'.
Proof.
  unfold at_path, append_key_at. destruct q as [p j], q' as [p' j']. simpl.
  destruct (decide (p' = p)) as [->|Hne].
  - rewrite list_lookup_alter_eq. destruct (L !! p) as [ctr|] eqn:Hp; simpl.
    + destruct (decide (j' = j)) as [->|Hj].
      * rewrite list_lookup_alter_eq, decide_True by done.
        now destruct (pb.ctr_ContactTracingInfo ctr !! j).
      * rewrite list_lookup_alter_ne by done.
        rewrite decide_False by congruence. done.
    + now case_decide.
  - rewrite list_lookup_alter_ne by done.
    rewrite decide_False by congruence. done.
Qed.

Lemma concat_alter_snoc {A} (ll : list (list A)) (j : nat) (x : A) :
  (j < length ll)%nat ->
  concat (alter (fun l : list A => (l ++ [x])%list) j ll) ≡ₚ x :: concat ll.
Proof.
  revert j. induction ll as [|l ll IH]; intros [|j] Hj; simpl in Hj; try lia.
  - change (((l ++ [x]) ++ concat ll)%list ≡ₚ x :: (l ++ concat ll)%list).
    rewrite <- app_assoc. simpl. symmetry. apply Permutation_middle.
  - change ((l ++ concat (alter (fun l : list A => (l ++ [x])%list) j ll))%list
            ≡ₚ x :: (l ++ concat ll)%list).
    rewrite IH by lia. symmetry. apply Permutation_middle.
Qed.

Lemma all_keys_append_key L q dk :
  is_Some (at_path L q) ->
  all_keys (append_key_at q dk L) ≡ₚ dk :: all_keys L.
Proof.
  intros [x Hx]. unfold at_path in Hx. destruct q as [p j]. simpl in Hx.
  destruct (L !! p) as [ctr|] eqn:Hp; [|discriminate].
  destruct (pb.ctr_ContactTracingInfo ctr !! j) as [cti|] eqn:Hj; [|discriminate].
  unfold all_keys, append_key_at. simpl.
  assert (Hlen : length (take p L) = p).
  { apply length_take_le. apply lookup_lt_Some in Hp. lia. }
  rewrite <- (take_drop_middle L p ctr Hp).
  rewrite alter_app_r_alt by lia.
  rewrite Hlen, Nat.sub_diag. simpl.
  rewrite !fmap_app, !concat_app. simpl.
  transitivity (concat (ctr_keys <$> take p L)
                  ++ (dk :: ctr_keys ctr)
                  ++ concat (ctr_keys <$> drop (S p) L))%list.
  - apply Permutation_app_head, Permutation_app_tail.
    unfold ctr_keys. simpl.
    rewrite <- (concat_alter_snoc _ j dk).
    + rewrite (list_fmap_alter _ (append_key dk)
                 (fun l : list pb.DiagnosisKey => (l ++ [dk])%list)); [done|].
      apply Forall_forall. done.
    + rewrite length_fmap. eapply lookup_lt_Some; eauto.
  - simpl. symmetry. apply Permutation_middle.
Qed.
End Pointers.

(** ** The indexes stay well formed *)

Lemma wf_init : wf init_Agg.
Proof.
  split; simpl.
  - intros K p. rewrite lookup_empty. cbn. split; discriminate.
  - intros k q. rewrite lookup_empty. cbn. split; discriminate.
  - intros p regs. cbn. discriminate.
Qed.

Lemma regs_at_length (L : list pb.ContactTracingResponse) :
  regs_at L (length L) = None.
Proof. unfold regs_at. now rewrite lookup_ge_None_2. Qed.

Lemma aggregate_eq (st : Agg) (inf : model.Infection) :
  aggregate st inf
  = let a := find_ctr st (sort_Strings (model.Regions inf)) (rec_ctrKey inf) in
    let b := find_cti (snd a) (fst a) (rec_ctiKey inf)
               (int32 (model.DiagnosisStatus inf))
               (model.VerificationAuthorityName inf) in
    add_key (snd b) (fst b) (key_of inf) (time.Unix (model.CreatedAt inf)).
Proof.
  unfold aggregate, rec_ctiKey, rec_ctrKey, ctrKey_of.
  destruct (find_ctr _ _ _) as [p st1]. simpl.
  destruct (find_cti _ _ _ _ _) as [q st2]. reflexivity.
Qed.

Lemma add_key_Response (st : Agg) q dk created :
  pb.Response (response (add_key st q dk created))
  = append_key_at q dk (pb.Response (response st)).
Proof. unfold add_key. simpl. now case_match. Qed.

Lemma path_key_with_key dk (o : option (list string * pb.ContactTracingInfo)) :
  path_key <$> (with_key dk <$> o) = path_key <$> o.
Proof. now destruct o as [[regs cti]|]. Qed.

Lemma find_ctr_wf (st : Agg) (regs : list string) :
  wf st -> sort_Strings regs = regs ->
  wf (snd (find_ctr st regs (Join regs)))
  /\ ctrMap (snd (find_ctr st regs (Join regs))) !! Join regs
     = Some (fst (find_ctr st regs (Join regs))).
Proof.
  intros [Hc Hi Hs] Hsorted. unfold find_ctr.
  destruct (ctrMap st !! Join regs) as [p|] eqn:HK; simpl.
  { split; [by split|done]. }
  split; [|apply lookup_insert_eq].
  split; simpl.
  - intros K p. rewrite lookup_insert, regs_at_push.
    repeat case_decide; subst; simpl.
    + done.
    + rewrite <- Hc, HK. split; [congruence|discriminate].
    + rewrite Hc, regs_at_length. simpl. split; [discriminate|congruence].
    + apply Hc.
  - intros k q. rewrite at_path_push. apply Hi.
  - intros p regs'. rewrite regs_at_push. case_decide.
    + congruence.
    + apply Hs.
Qed.

Lemma find_cti_wf (st : Agg) (p : nat) (K : string) (status : Z)
    (name : string) :
  wf st -> ctrMap st !! K = Some p ->
  wf (snd (find_cti st p (ctiKey_of K status name) status name))
  /\ ctiMap (snd (find_cti st p (ctiKey_of K status name) status name))
       !! ctiKey_of K status name
     = Some (fst (find_cti st p (ctiKey_of K status name) status name)).
Proof.
  intros [Hc Hi Hs] HK. unfold find_cti.
  destruct (ctiMap st !! ctiKey_of K status name) as [q|] eqn:Hk; simpl.
  { split; [by split|done]. }
  split; [|apply lookup_insert_eq].
  apply Hc in HK.
  destruct (regs_at (pb.Response (response st)) p) as [regs|] eqn:Hr;
    [|discriminate].
  simpl in HK. simplify_eq.
  split; simpl.
  - intros K p'. rewrite regs_at_append_cti. apply Hc.
  - intros k q.
    rewrite lookup_insert, (at_path_append_cti _ _ regs) by done.
    repeat case_decide; subst; simpl.
    + done.
    + split; [congruence|]. intros Hq. apply Hi in Hq. congruence.
    + unfold path_key. simpl. split; [|congruence].
      intros Hq. apply Hi in Hq.
      unfold at_path, cti_count in Hq. simpl in Hq.
      destruct (pb.Response (response st) !! p) as [ctr|]; [|discriminate].
      rewrite lookup_ge_None_2 in Hq by lia. discriminate.
    + apply Hi.
  - intros p' regs'. rewrite regs_at_append_cti. apply Hs.
Qed.

Lemma add_key_wf (st : Agg) q dk created :
  wf st -> wf (add_key st q dk created).
Proof.
  intros [Hc Hi Hs]. split.
  - intros K p. rewrite add_key_Response, regs_at_append_key. apply Hc.
  - intros k q'. rewrite add_key_Response, at_path_append_key.
    case_decide; subst; [rewrite path_key_with_key|]; apply Hi.
  - intros p regs. rewrite add_key_Response, regs_at_append_key. apply Hs.
Qed.

Lemma aggregate_wf (st : Agg) (inf : model.Infection) :
  wf st -> wf (aggregate st inf).
Proof.
  intros Hwf. rewrite aggregate_eq. simpl.
  unfold rec_ctiKey, rec_ctrKey, ctrKey_of.
  destruct (find_ctr_wf st (sort_Strings (model.Regions inf)) Hwf
              (sort_Strings_idem _)) as [Hwf1 HK].
  destruct (find_cti_wf _ _ _ (int32 (model.DiagnosisStatus inf))
              (model.VerificationAuthorityName inf) Hwf1 HK) as [Hwf2 _].
  now apply add_key_wf.
Qed.

(** ** The content invariant *)

Lemma content_init : content [] init_Agg.
Proof.
  split; simpl; try done.
  - intros r Hr. inversion Hr.
  - intros r Hr. inversion Hr.
Qed.

Lemma keyseq_fresh (k : string) (seen : list model.Infection) :
  (forall r, r ∈ seen -> rec_ctiKey r <> k) -> keyseq k seen = [].
Proof.
  unfold keyseq. induction seen as [|r l IH]; intros Hf; [done|].
  rewrite filter_cons, decide_False.
  - apply IH. intros r' Hr'. apply Hf. now right.
  - apply Hf. now left.
Qed.

Lemma keyseq_snoc (k : string) (seen : list model.Infection)
    (r : model.Infection) :
  keyseq k (seen ++ [r])
  = (keyseq k seen ++ if decide (rec_ctiKey r = k) then [key_of r] else [])%list.
Proof.
  unfold keyseq. rewrite filter_app, fmap_app. f_equal.
  rewrite filter_cons. now case_decide.
Qed.

Lemma find_ctr_content (seen : list model.Infection) (st : Agg)
    (regs : list string) (K : string) :
  content seen st -> content seen (snd (find_ctr st regs K)).
Proof.
  intros [Hk Hsi Hsr Ha Ht]. unfold find_ctr.
  destruct (ctrMap st !! K) as [p|] eqn:HK; simpl; [by split|].
  split; simpl; auto.
  - intros k q Hq. unfold keys_at. rewrite at_path_push. now apply Hk.
  - intros r Hr. rewrite lookup_insert. case_decide; eauto.
  - now rewrite all_keys_push.
Qed.

Lemma find_cti_content (seen : list model.Infection) (st : Agg) (p : nat)
    (K : string) (status : Z) (name : string) :
  wf st -> content seen st -> ctrMap st !! K = Some p ->
  content seen (snd (find_cti st p (ctiKey_of K status name) status name)).
Proof.
  intros [Hc Hi Hs] [Hk Hsi Hsr Ha Ht] HK. unfold find_cti.
  destruct (ctiMap st !! ctiKey_of K status name) as [q|] eqn:Hq; simpl;
    [by split|].
  apply Hc in HK.
  destruct (regs_at (pb.Response (response st)) p) as [regs|] eqn:Hr;
    [|discriminate].
  split; simpl; auto.
  - intros k q. rewrite lookup_insert. unfold keys_at.
    rewrite (at_path_append_cti _ _ regs) by done.
    repeat case_decide; subst; simpl.
    + intros _. rewrite keyseq_fresh; [done|].
      intros r Hin Heq. apply Hsi in Hin as [q' Hq']. congruence.
    + congruence.
    + intros Hq'. apply Hi in Hq'.
      unfold at_path, cti_count in Hq'. simpl in Hq'.
      destruct (pb.Response (response st) !! p) as [ctr|]; [|discriminate].
      rewrite lookup_ge_None_2 in Hq' by lia. discriminate.
    + apply Hk.
  - intros r Hin. rewrite lookup_insert. case_decide; eauto.
  - now rewrite all_keys_append_cti.
Qed.

Lemma add_key_content (seen : list model.Infection) (st : Agg)
    (r : model.Infection) (p : nat) (q : nat * nat) :
  wf st -> content seen st ->
  ctrMap st !! rec_ctrKey r = Some p ->
  ctiMap st !! rec_ctiKey r = Some q ->
  content (seen ++ [r])
    (add_key st q (key_of r) (time.Unix (model.CreatedAt r))).
Proof.
  intros [Hc Hi Hs] [Hk Hsi Hsr Ha Ht] HK Hq.
  split.
  - intros k q' Hq'. change (ctiMap st !! k = Some q') in Hq'.
    rewrite add_key_Response, keyseq_snoc. unfold keys_at.
    rewrite at_path_append_key.
    pose proof (Hk _ _ Hq') as Hold. unfold keys_at in Hold.
    case_decide as Hqq.
    + subst q'. assert (k = rec_ctiKey r) as ->.
      { apply Hi in Hq, Hq'. congruence. }
      rewrite decide_True by done.
      destruct (at_path (pb.Response (response st)) q) as [[regs cti]|];
        simpl in *; [|discriminate].
      injection Hold as Hold. now rewrite Hold.
    + rewrite decide_False by congruence. now rewrite app_nil_r.
  - intros r' Hr'. change (is_Some (ctiMap st !! rec_ctiKey r')).
    apply elem_of_app in Hr' as [Hr'|Hr']; [eauto|].
    apply list_elem_of_singleton in Hr' as ->. eauto.
  - intros r' Hr'. change (is_Some (ctrMap st !! rec_ctrKey r')).
    apply elem_of_app in Hr' as [Hr'|Hr']; [eauto|].
    apply list_elem_of_singleton in Hr' as ->. eauto.
  - rewrite add_key_Response, all_keys_append_key.
    + rewrite Ha, fmap_app. simpl. apply Permutation_cons_append.
    + apply Hi in Hq.
      destruct (at_path (pb.Response (response st)) q); [eauto|discriminate].
  - unfold watermark. rewrite foldl_app. simpl. fold (watermark seen).
    rewrite <- Ht. unfold add_key. simpl.
    destruct (Z.ltb_spec (pb.FetchResponseKeyTimestamp (response st))
                (time.Unix (model.CreatedAt r))); simpl; lia.
Qed.

Lemma Inv_init : Inv [] init_Agg.
Proof. split; [apply wf_init|apply content_init]. Qed.

Lemma aggregate_Inv (seen : list model.Infection) (st : Agg)
    (r : model.Infection) :
  Inv seen st -> Inv (seen ++ [r]) (aggregate st r).
Proof.
  intros [Hwf Hct]. split; [now apply aggregate_wf|].
  rewrite aggregate_eq. simpl.
  pose proof (find_ctr_wf st (sort_Strings (model.Regions r)) Hwf
                (sort_Strings_idem _)) as [Hwf1 HK].
  pose proof (find_ctr_content seen st (sort_Strings (model.Regions r))
                (rec_ctrKey r) Hct) as Hct1.
  unfold rec_ctiKey in *. unfold rec_ctrKey, ctrKey_of in *.
  pose proof (find_cti_wf _ _ _ (int32 (model.DiagnosisStatus r))
                (model.VerificationAuthorityName r) Hwf1 HK) as [Hwf2 Hq].
  pose proof (find_cti_content seen _ _ _ (int32 (model.DiagnosisStatus r))
                (model.VerificationAuthorityName r) Hwf1 Hct1 HK) as Hct2.
  eapply add_key_content; eauto.
  unfold find_cti. case_match; simpl; apply HK.
Qed.

Lemma aggregate_all_Inv (items seen : list model.Infection) (st : Agg) :
  Inv seen st -> Inv (seen ++ items) (foldl aggregate st items).
Proof.
  revert seen st. induction items as [|r l IH]; intros seen st HI; simpl.
  - now rewrite app_nil_r.
  - replace (seen ++ r :: l)%list with ((seen ++ [r]) ++ l)%list
      by now rewrite <- app_assoc.
    apply IH. now apply aggregate_Inv.
Qed.

(** ** Eligible records *)

Section Eligible.
Variable DiagnosisStatus_name : gmap Z string.
Variables included excluded : gset string.

#[local] Abbreviation check' := (check DiagnosisStatus_name included excluded).
#[local] Abbreviation absorb' := (absorb DiagnosisStatus_name included excluded).

#[local] Abbreviation eligible_records :=
  (eligible_records DiagnosisStatus_name included excluded).

Lemma absorb_all_eq (items : list model.Infection) (st : Agg) :
  foldl absorb' st items = foldl aggregate st (eligible_records items).
Proof.
  unfold eligible_records.
  revert st. induction items as [|r l IH]; intros st; [done|].
  rewrite filter_cons. simpl. unfold absorb at 2.
  case_decide as Hc.
  - rewrite Hc. simpl. apply IH.
  - destruct (check' r); [apply IH|done].
Qed.

(** The invariant holds in every state the loop can reach. *)
Lemma reach_Inv (items : list model.Infection) :
  Inv (eligible_records items) (foldl absorb' init_Agg items).
Proof.
  rewrite absorb_all_eq.
  apply (aggregate_all_Inv (eligible_records items) [] init_Agg Inv_init).
Qed.
End Eligible.

(** ** Returned responses *)

Section Call.
Variable ToUpper : string -> string.
Variable DiagnosisStatus_name : gmap Z string.
Context {It : Type}.
Variable iter : database.InfectionIterator It.
Variable ctx : context.Context.
Variable req : pb.FederationFetchRequest.
Variable itFunc : fetchIterator It.
Variable fetchUntil : time.Time.

#[local] Abbreviation handed_out :=
  (handed_out ToUpper iter req itFunc fetchUntil).
#[local] Abbreviation included_records :=
  (included_records ToUpper DiagnosisStatus_name req).
#[local] Abbreviation state_after :=
  (state_after ToUpper DiagnosisStatus_name req).

Lemma state_after_Inv (items : list model.Infection) :
  Inv (included_records items) (state_after items).
Proof. apply reach_Inv. Qed.

(** A returned response is the aggregate of the records handed out, with
    the partial flag and the token set on top when the context fired. *)
Lemma fetch_returns (fuel : nat) (out : Outcome It)
    (resp : pb.FederationFetchResponse) :
  fetch ToUpper DiagnosisStatus_name iter fuel ctx req itFunc fetchUntil
  = Some out ->
  out_result out = (Some resp, None) ->
  exists n items it_n,
    handed_out n items it_n
    /\ quiet ctx 0 n
    /\ pb.Response resp = pb.Response (response (state_after items))
    /\ pb.FetchResponseKeyTimestamp resp
       = pb.FetchResponseKeyTimestamp (response (state_after items)).
Proof.
  unfold fetch. intros Hf Hr.
  destruct (itFunc _) as [it0 [err|]] eqn:Hit.
  { simplify_eq; simpl in *; discriminate. }
  destruct (loop _ _ _ _ _ _ _ _ _) as [[it' r]|] eqn:Hl; [|discriminate].
  simplify_eq; simpl in *.
  apply loop_Ending in Hl; [|done].
  inversion Hl as [n items it_n inf it1 Hq Hp Hn
                  |n items it_n e cursor Hq Hp Hc Hu Hcur| | |];
    simplify_eq.
  - exists n, items, it_n. repeat split; try done.
    + exists it0. done.
    + intros k Hk. apply Hq. lia.
  - exists n, items, it'. repeat split; try done.
    exists it0. done.
Qed.

(** The same, with the records pinned to the run: the response aggregates
    the records handed out until the loop ended, all of them and no
    others. *)
Lemma fetch_run (fuel : nat) (out : Outcome It)
    (resp : pb.FederationFetchResponse) :
  fetch ToUpper DiagnosisStatus_name iter fuel ctx req itFunc fetchUntil
  = Some out ->
  out_result out = (Some resp, None) ->
  exists n items it_n,
    run_records ToUpper iter ctx req itFunc fetchUntil n items it_n
    /\ pb.Response resp = pb.Response (response (state_after items))
    /\ pb.FetchResponseKeyTimestamp resp
       = pb.FetchResponseKeyTimestamp (response (state_after items)).
Proof.
  unfold fetch. intros Hf Hr.
  destruct (itFunc _) as [it0 [err|]] eqn:Hit.
  { simplify_eq; simpl in *; discriminate. }
  destruct (loop _ _ _ _ _ _ _ _ _) as [[it' r]|] eqn:Hl; [|discriminate].
  simplify_eq; simpl in *.
  apply loop_Ending in Hl; [|done].
  inversion Hl as [n items it_n inf it1 Hq Hp Hn
                  |n items it_n e cursor Hq Hp Hc Hu Hcur| | |];
    simplify_eq.
  - exists n, items, it_n. split; [|done].
    split; [exists it0; done|].
    split; [intros k Hk; apply Hq; lia|].
    right. split; [apply (Hq n); lia|]. eauto.
  - exists n, items, it'. split; [|done].
    split; [exists it0; done|]. split; [done|].
    left. exists e. simpl in Hc. done.
Qed.
End Call.

(** * The loop: partial responses, exhaustion, fatal errors *)

Section ControlFlow.
Variable ToUpper : string -> string.
Variable DiagnosisStatus_name : gmap Z string.
Context {It : Type}.
Variable iter : database.InfectionIterator It.
Variable ctx : context.Context.
Variable req : pb.FederationFetchRequest.
Variable itFunc : fetchIterator It.
Variable fetchUntil : time.Time.

#[local] Abbreviation fetch' fuel :=
  (fetch ToUpper DiagnosisStatus_name iter fuel ctx req itFunc fetchUntil).
#[local] Abbreviation handed_out' :=
  (handed_out ToUpper iter req itFunc fetchUntil).
#[local] Abbreviation state_after' :=
  (state_after ToUpper DiagnosisStatus_name req).
#[local] Abbreviation included_records' :=
  (included_records ToUpper DiagnosisStatus_name req).

#[local] Abbreviation fatal_condition :=
  (fatal_condition ToUpper iter ctx req itFunc fetchUntil).
#[local] Abbreviation fatal_open :=
  (fatal_open ToUpper iter ctx req itFunc fetchUntil).
#[local] Abbreviation fatal_next :=
  (fatal_next ToUpper iter ctx req itFunc fetchUntil).
#[local] Abbreviation fatal_cursor :=
  (fatal_cursor ToUpper iter ctx req itFunc fetchUntil).
#[local] Abbreviation fatal_context :=
  (fatal_context ToUpper iter ctx req itFunc fetchUntil).

Lemma unexpected_false (e : context.Err) :
  context.unexpected e = false
  <-> e = context.DeadlineExceeded \/ e = context.Canceled.
Proof. destruct e; simpl; intuition congruence. Qed.

Lemma unexpected_true (e : context.Err) :
  context.unexpected e = true
  <-> e <> context.DeadlineExceeded /\ e <> context.Canceled.
Proof. destruct e; simpl; intuition congruence. Qed.

Lemma state_after_Partial (items : list model.Infection) :
  pb.PartialResponse (response (state_after' items)) = false.
Proof. unfold state_after. now rewrite absorb_all_Partial. Qed.

Lemma state_after_Token (items : list model.Infection) :
  pb.NextFetchToken (response (state_after' items)) = "".
Proof. unfold state_after. now rewrite absorb_all_Token. Qed.

(** The loop started by a call, once [n] records have been handed out. *)
Lemma fetch_after_pull (n fuel : nat) (items : list model.Infection)
    (it0 it_n : It) :
  itFunc (build_criteria (normalize ToUpper req) fetchUntil) = (it0, None) ->
  pull iter n it0 = Some (items, it_n) ->
  quiet ctx 0 n ->
  fetch' (n + fuel)
  = match loop DiagnosisStatus_name iter ctx
            (includedRegions (normalize ToUpper req))
            (excludedRegions (normalize ToUpper req))
            fuel n it_n (state_after' items) with
    | None => None
    | Some (it', r) => Some (mkOutcome (normalize ToUpper req) (Some it') r)
    end.
Proof.
  intros Hit Hp Hq. unfold fetch. rewrite Hit.
  rewrite (loop_pull _ _ _ _ _ n fuel 0 it0 it_n init_Agg items); auto.
Qed.

(** [C1], as the code has it: when the context fires with
    deadline-exceeded or cancellation before the iterator reports
    exhaustion, and the iterator yields a cursor, the call returns a
    successful response with [PartialResponse = true] and [NextFetchToken]
    equal to that cursor (empty exactly when the cursor is); [Next] is not
    called again (the iterator is left as the [n] calls before the signal
    left it) and the response aggregates exactly the records handed out
    before the signal. *)
Theorem C1_signal_gives_partial (n fuel : nat) (items : list model.Infection)
    (it_n : It) (e : context.Err) (cursor : string) :
  handed_out' n items it_n ->
  quiet ctx 0 n -> ctx n = Some e ->
  e = context.DeadlineExceeded \/ e = context.Canceled ->
  database.Cursor iter it_n = (cursor, None) ->
  (n + 2 <= fuel)%nat ->
  exists out resp,
    fetch' fuel = Some out
    /\ out_result out = (Some resp, None)
    /\ pb.PartialResponse resp = true
    /\ pb.NextFetchToken resp = cursor
    /\ out_iterator out = Some it_n
    /\ pb.Response resp = pb.Response (response (state_after' items))
    /\ all_keys (pb.Response resp) ≡ₚ key_of <$> included_records' items.
Proof.
  intros (it0 & Hit & Hp) Hq Hc He Hcur Hfuel.
  replace fuel with (n + S (S (fuel - n - 2)))%nat by lia.
  rewrite (fetch_after_pull n _ items it0 it_n) by done.
  apply unexpected_false in He.
  cbn [loop]. rewrite state_after_Partial. unfold body.
  rewrite Hc, He, Hcur. cbn.
  eexists _, _. repeat split.
  apply (ct_all _ _ (proj2 (state_after_Inv ToUpper DiagnosisStatus_name req items))).
Qed.

(** [C5]: when the iterator reports exhaustion before the context fires,
    the call returns [PartialResponse = false] and [NextFetchToken = ""],
    with the aggregate of the records handed out; a nil record without the
    exhaustion flag leaves the state alone and the loop goes on. *)
Theorem C5_exhaustion_gives_complete (n fuel : nat)
    (items : list model.Infection) (it_n it' : It)
    (inf : option model.Infection) :
  handed_out' n items it_n ->
  quiet ctx 0 (S n) ->
  database.Next iter it_n = ((inf, true, None), it') ->
  (n + 1 <= fuel)%nat ->
  (exists out resp,
     fetch' fuel = Some out
     /\ out_result out = (Some resp, None)
     /\ pb.PartialResponse resp = false
     /\ pb.NextFetchToken resp = ""
     /\ resp = response (state_after' items))
  /\ (forall i it st it1,
        ctx i = None ->
        database.Next iter it = ((None, false, None), it1) ->
        body DiagnosisStatus_name iter ctx
          (includedRegions (normalize ToUpper req))
          (excludedRegions (normalize ToUpper req)) i it st
        = Continue it1 st).
Proof.
  intros (it0 & Hit & Hp) Hq Hn Hfuel. split.
  - replace fuel with (n + S (fuel - n - 1))%nat by lia.
    rewrite (fetch_after_pull n _ items it0 it_n); try done.
    2: { intros k Hk. apply Hq. lia. }
    pose proof (Hq n ltac:(lia)) as Hc. simpl in Hc.
    cbn [loop]. rewrite state_after_Partial. unfold body.
    rewrite Hc, Hn. cbn.
    eexists _, _. repeat split.
    + apply state_after_Partial.
    + apply state_after_Token.
  - intros i it st it1 Hc Hnil. unfold body. now rewrite Hc, Hnil.
Qed.

(** [C6]: each of the four fatal conditions makes the call return an error
    and a nil response; whatever a call returns is either a response without
    error or an error without response, and an error always stems from one
    of the four; a record the filter chain rejects is skipped, the loop
    continuing with the state unchanged. *)
Theorem C6_fatal_aborts (n fuel : nat) (e : Error) :
  fatal_condition n e ->
  (n + 1 <= fuel)%nat ->
  (exists out, fetch' fuel = Some out /\ out_result out = (None, Some e))
  /\ (forall fuel' out,
        fetch' fuel' = Some out ->
        (exists resp, out_result out = (Some resp, None))
        \/ (exists m e', out_result out = (None, Some e')
                         /\ fatal_condition m e'))
  /\ (forall i it st it1 inf reason,
        ctx i = None ->
        database.Next iter it = ((Some inf, false, None), it1) ->
        check DiagnosisStatus_name
          (includedRegions (normalize ToUpper req))
          (excludedRegions (normalize ToUpper req)) inf = Some reason ->
        body DiagnosisStatus_name iter ctx
          (includedRegions (normalize ToUpper req))
          (excludedRegions (normalize ToUpper req)) i it st
        = Continue it1 st).
Proof.
  intros Hfatal Hfuel. split; [|split].
  - destruct Hfatal as [it0 err Hit
                       |m items it_n inf done err it' (it0 & Hit & Hp) Hq Hn
                       |m items it_n e cursor err (it0 & Hit & Hp) Hq Hc He Hcur
                       |m items it_n e (it0 & Hit & Hp) Hq Hc He1 He2].
    + unfold fetch. rewrite Hit. eauto.
    + replace fuel with (m + S (fuel - m - 1))%nat by lia.
      rewrite (fetch_after_pull m _ items it0 it_n); try done.
      2: { intros k Hk. apply Hq. lia. }
      pose proof (Hq m ltac:(lia)) as Hc. simpl in Hc.
      cbn [loop]. rewrite state_after_Partial. unfold body.
      rewrite Hc, Hn. eauto.
    + replace fuel with (m + S (fuel - m - 1))%nat by lia.
      rewrite (fetch_after_pull m _ items it0 it_n) by done.
      apply unexpected_false in He.
      cbn [loop]. rewrite state_after_Partial. unfold body.
      rewrite Hc, He, Hcur. eauto.
    + replace fuel with (m + S (fuel - m - 1))%nat by lia.
      rewrite (fetch_after_pull m _ items it0 it_n) by done.
      assert (Hu : context.unexpected e = true) by now apply unexpected_true.
      cbn [loop]. rewrite state_after_Partial. unfold body.
      rewrite Hc, Hu. eauto.
  - intros fuel' out Hf. unfold fetch in Hf.
    destruct (itFunc _) as [it0 [err|]] eqn:Hit.
    { simplify_eq. right. eexists 0%nat, _. split; [done|].
      eapply fatal_open; eauto. }
    destruct (loop _ _ _ _ _ _ _ _ _) as [[it' r]|] eqn:Hl; [|discriminate].
    simplify_eq. simpl.
    apply loop_Ending in Hl; [|done].
    assert (Hq0 : forall m, quiet ctx 0 (S m) -> quiet ctx 0 m).
    { intros m Hq k Hk. apply Hq. lia. }
    inversion Hl as [m items it_n inf it1 Hq Hp Hn
                    |m items it_n e' cursor Hq Hp Hc Hu Hcur
                    |m items it_n e' Hq Hp Hc Hu
                    |m items it_n e' cursor err Hq Hp Hc Hu Hcur
                    |m items it_n inf done err it1 Hq Hp Hn]; simplify_eq.
    + left. eauto.
    + left. eauto.
    + right. exists m, (ErrContext e'). split; [done|].
      apply unexpected_true in Hu as [? ?].
      eapply fatal_context; eauto. exists it0. eauto.
    + right. exists m, (ErrCursor err). split; [done|].
      apply unexpected_false in Hu.
      eapply fatal_cursor; eauto. exists it0. eauto.
    + right. exists m, (ErrIterating err). split; [done|].
      eapply fatal_next; eauto. exists it0. eauto.
  - intros i it st it1 inf reason Hc Hn Hchk. unfold body.
    rewrite Hc, Hn. unfold absorb. now rewrite Hchk.
Qed.
End ControlFlow.

(** ** Replayed calls *)

Lemma quiet_fires_at (n : nat) (e : context.Err) :
  quiet (Scripted.fires_at n e) 0 n.
Proof.
  intros k Hk. unfold Scripted.fires_at. simpl.
  destruct (Nat.ltb_spec k n); [reflexivity|lia].
Defined.

Lemma quiet_never (n : nat) : quiet Scripted.never 0 n.
Proof. intros k Hk. reflexivity. Defined.

(** The context fires after the first of two records: the response is
    partial, carries the cursor after that record and only its key. *)
Lemma C1_signal_gives_partial_witness :
  exists out resp,
    Scripted.run 3 (Scripted.fires_at 1 context.DeadlineExceeded)
      (Scripted.request [] [])
      [Scripted.gives Replay.r1 "c1"; Scripted.gives Replay.r2 "c2"]
    = Some out
    /\ out_result out = (Some resp, None)
    /\ pb.PartialResponse resp = true
    /\ pb.NextFetchToken resp = "c1"
    /\ out_iterator out = Some (("c1", None), [Scripted.gives Replay.r2 "c2"])
    /\ pb.Response resp
       = pb.Response
           (response (state_after ascii_ToUpper Scripted.status_names
                        (Scripted.request [] []) [Replay.r1]))
    /\ all_keys (pb.Response resp)
       ≡ₚ key_of <$> included_records ascii_ToUpper Scripted.status_names
                       (Scripted.request [] []) [Replay.r1].
Proof.
  apply (C1_signal_gives_partial ascii_ToUpper Scripted.status_names
           Scripted.iterator (Scripted.fires_at 1 context.DeadlineExceeded)
           (Scripted.request [] [])
           (Scripted.opens
              [Scripted.gives Replay.r1 "c1"; Scripted.gives Replay.r2 "c2"])
           Scripted.horizon 1 3 [Replay.r1]
           (("c1", None), [Scripted.gives Replay.r2 "c2"])
           context.DeadlineExceeded "c1").
  - eexists. split; reflexivity.
  - apply quiet_fires_at.
  - reflexivity.
  - left. reflexivity.
  - reflexivity.
  - lia.
Defined.

(** The context has fired with deadline-exceeded when the loop starts, the
    iterator still has a record to hand out, and the cursor of its position
    is the empty one the request came with: the partial response carries an
    empty [NextFetchToken]. *)
Lemma C1_counterexample :
  Scripted.fires_at 0 context.DeadlineExceeded 0%nat
  = Some context.DeadlineExceeded
  /\ fst (Scripted.Next (("", None), [Scripted.gives Replay.r1 "c1"]))
     = (Some Replay.r1, false, None)
  /\ exists out resp,
       Scripted.run 2 (Scripted.fires_at 0 context.DeadlineExceeded)
         (Scripted.request [] []) [Scripted.gives Replay.r1 "c1"]
       = Some out
       /\ out_result out = (Some resp, None)
       /\ pb.PartialResponse resp = true
       /\ pb.NextFetchToken resp = "".
Proof.
  split; [reflexivity|]. split; [reflexivity|].
  eexists _, _. split; [vm_compute; reflexivity|].
  repeat split.
Qed.

(** Two records with a nil record in between, then exhaustion. *)
Lemma C5_exhaustion_gives_complete_witness :
  (exists out resp,
     Scripted.run 4 Scripted.never (Scripted.request [] [])
       [Scripted.gives Replay.r1 "c1"; Replay.nil_record;
        Scripted.gives Replay.r2 "c2"]
     = Some out
     /\ out_result out = (Some resp, None)
     /\ pb.PartialResponse resp = false
     /\ pb.NextFetchToken resp = ""
     /\ resp = response (state_after ascii_ToUpper Scripted.status_names
                           (Scripted.request [] []) [Replay.r1; Replay.r2]))
  /\ (forall i it st it1,
        Scripted.never i = None ->
        database.Next Scripted.iterator it = ((None, false, None), it1) ->
        body Scripted.status_names Scripted.iterator Scripted.never
          (includedRegions (normalize ascii_ToUpper (Scripted.request [] [])))
          (excludedRegions (normalize ascii_ToUpper (Scripted.request [] [])))
          i it st
        = Continue it1 st).
Proof.
  apply (C5_exhaustion_gives_complete ascii_ToUpper Scripted.status_names
           Scripted.iterator Scripted.never (Scripted.request [] [])
           (Scripted.opens
              [Scripted.gives Replay.r1 "c1"; Replay.nil_record;
               Scripted.gives Replay.r2 "c2"])
           Scripted.horizon 3 4 [Replay.r1; Replay.r2]
           (("c2", None), []) (("c2", None), []) None).
  - eexists. split; reflexivity.
  - apply quiet_never.
  - reflexivity.
  - lia.
Defined.

(** [Next] fails after the first record. *)
Lemma C6_fatal_aborts_witness :
  exists out,
    Scripted.run 2 Scripted.never (Scripted.request [] [])
      [Scripted.gives Replay.r1 "c1"; Replay.failing]
    = Some out
    /\ out_result out = (None, Some (ErrIterating "unavailable")).
Proof.
  apply (C6_fatal_aborts ascii_ToUpper Scripted.status_names
           Scripted.iterator Scripted.never (Scripted.request [] [])
           (Scripted.opens [Scripted.gives Replay.r1 "c1"; Replay.failing])
           Scripted.horizon 1 2 (ErrIterating "unavailable")).
  - apply (fatal_next _ _ _ _ _ _ 1 [Replay.r1]
             (("c1", None), [Replay.failing]) None false "unavailable"
             (("c1", None), [])).
    + eexists. split; reflexivity.
    + apply quiet_never.
    + reflexivity.
  - lia.
Defined.

(** * Normalisation and query criteria *)

(** [C7]: the call upper-cases every entry of both region lists of the
    request in place and leaves its other fields alone; the criteria it then
    hands to [itFunc] have [SinceTimestamp] at the request's last-fetch
    timestamp, [UntilTimestamp] at [fetchUntil], [LastCursor] at the
    request's token, [OnlyLocalProvenance] set, and a region filter exactly
    when one inclusion region was supplied, in which case it is that region
    (upper-cased).  [itFunc] is consulted at these criteria only. *)
Theorem C7_normalize_then_criteria (ToUpper : string -> string)
    (DiagnosisStatus_name : gmap Z string) (It : Type)
    (iter : database.InfectionIterator It) (fuel : nat)
    (ctx : context.Context) (req : pb.FederationFetchRequest)
    (itFunc : fetchIterator It) (fetchUntil : time.Time) :
  let req' := normalize ToUpper req in
  let criteria := build_criteria req' fetchUntil in
  (length (pb.RegionIdentifiers req') = length (pb.RegionIdentifiers req)
   /\ forall i, pb.RegionIdentifiers req' !! i
                = ToUpper <$> pb.RegionIdentifiers req !! i)
  /\ (length (pb.ExcludeRegionIdentifiers req')
      = length (pb.ExcludeRegionIdentifiers req)
      /\ forall i, pb.ExcludeRegionIdentifiers req' !! i
                   = ToUpper <$> pb.ExcludeRegionIdentifiers req !! i)
  /\ pb.LastFetchResponseKeyTimestamp req'
     = pb.LastFetchResponseKeyTimestamp req
  /\ pb.req_NextFetchToken req' = pb.req_NextFetchToken req
  /\ time.Unix (database.SinceTimestamp criteria)
     = pb.LastFetchResponseKeyTimestamp req
  /\ database.SinceTimestamp criteria
     = time.Unix_of (pb.LastFetchResponseKeyTimestamp req) 0
  /\ database.UntilTimestamp criteria = fetchUntil
  /\ database.LastCursor criteria = pb.req_NextFetchToken req
  /\ database.OnlyLocalProvenance criteria = true
  /\ database.IncludeRegions criteria
     = match pb.RegionIdentifiers req with
       | [region] => [ToUpper region]
       | _ => []
       end
  /\ (database.IncludeRegions criteria <> []
      <-> length (pb.RegionIdentifiers req) = 1%nat)
  /\ (forall out,
        fetch ToUpper DiagnosisStatus_name iter fuel ctx req itFunc fetchUntil
        = Some out ->
        out_request out = req')
  /\ (forall itFunc' : fetchIterator It,
        itFunc' criteria = itFunc criteria ->
        fetch ToUpper DiagnosisStatus_name iter fuel ctx req itFunc' fetchUntil
        = fetch ToUpper DiagnosisStatus_name iter fuel ctx req itFunc fetchUntil)
  /\ (forall it err,
        itFunc criteria = (it, Some err) ->
        fetch ToUpper DiagnosisStatus_name iter fuel ctx req itFunc fetchUntil
        = Some (mkOutcome req' None (None, Some (ErrQuerying criteria err)))).
Proof.
  intros req' criteria. subst req' criteria.
  assert (Hfields : forall r : pb.FederationFetchRequest,
            database.SinceTimestamp (build_criteria r fetchUntil)
            = time.Unix_of (pb.LastFetchResponseKeyTimestamp r) 0
            /\ database.UntilTimestamp (build_criteria r fetchUntil) = fetchUntil
            /\ database.LastCursor (build_criteria r fetchUntil)
               = pb.req_NextFetchToken r
            /\ database.OnlyLocalProvenance (build_criteria r fetchUntil) = true).
  { intros r. unfold build_criteria. now case_match. }
  destruct (Hfields (normalize ToUpper req)) as (Hs & Hu & Hc & Hl).
  assert (Hincl : database.IncludeRegions
                    (build_criteria (normalize ToUpper req) fetchUntil)
                  = match pb.RegionIdentifiers req with
                    | [region] => [ToUpper region]
                    | _ => []
                    end).
  { unfold build_criteria, normalize. simpl.
    destruct (pb.RegionIdentifiers req) as [|r [|r' l]]; reflexivity. }
  repeat match goal with |- _ /\ _ => split end; try done.
  - apply length_map.
  - intros i. apply (list_lookup_fmap ToUpper).
  - apply length_map.
  - intros i. apply (list_lookup_fmap ToUpper).
  - now rewrite Hs.
  - rewrite Hincl.
    destruct (pb.RegionIdentifiers req) as [|r [|r' l]]; simpl; split;
      intros H; first [done | lia].
  - intros out. unfold fetch. cbv zeta.
    repeat case_match; intros; simplify_eq; reflexivity.
  - intros itFunc' Heq. unfold fetch. cbv zeta. now rewrite Heq.
  - intros it err Heq. unfold fetch. cbv zeta. now rewrite Heq.
Qed.

(** * The filter chain against its six rules *)

Section FilterChain.
Variable DiagnosisStatus_name : gmap Z string.
Variables included excluded : gset string.
Variable inf : model.Infection.

#[local] Abbreviation check' := (check DiagnosisStatus_name included excluded inf).
#[local] Abbreviation R1 := (Rules.has_key inf).
#[local] Abbreviation R2 := (Rules.has_regions inf).
#[local] Abbreviation R3 := (Rules.is_local inf).
#[local] Abbreviation R4 := (Rules.status_recognized DiagnosisStatus_name inf).
#[local] Abbreviation R5 := (Rules.not_all_excluded excluded inf).
#[local] Abbreviation R6 := (Rules.some_included included inf).

Lemma length_eqb_0 {A} (l : list A) : (length l =? 0)%nat = true <-> l = [].
Proof. destruct l; simpl; split; congruence. Qed.

Lemma size_ltb_0 (X : gset string) : (0 <? size X)%nat = true <-> X <> ∅.
Proof.
  rewrite Nat.ltb_lt. split.
  - intros Hs ->. rewrite size_empty in Hs. lia.
  - intros Hne. destruct (size X) eqn:Hs; [|lia].
    apply size_empty_iff, leibniz_equiv in Hs. done.
Qed.

(** The outcome of [check] in terms of the six rules: which rule fails
    first, if any. *)
Lemma check_cases :
  (check' = None /\ R1 /\ R2 /\ R3 /\ R4 /\ R5 /\ R6)
  \/ (check' = Some MissingDiagnosisKey /\ ~ R1)
  \/ (check' = Some MissingRegions /\ R1 /\ ~ R2)
  \/ (check' = Some NotLocalProvenance /\ R1 /\ R2 /\ ~ R3)
  \/ (check' = Some InvalidDiagnosisStatus /\ R1 /\ R2 /\ R3 /\ ~ R4)
  \/ (check' = Some OnlyExcludedRegions /\ R1 /\ R2 /\ R3 /\ R4 /\ ~ R5)
  \/ (check' = Some NoRequestedRegion /\ R1 /\ R2 /\ R3 /\ R4 /\ R5 /\ ~ R6).
Proof.
  unfold check, Rules.has_key, Rules.has_regions, Rules.is_local,
    Rules.status_recognized, Rules.not_all_excluded, Rules.some_included.
  destruct (length (model.DiagnosisKey inf) =? 0)%nat eqn:H1.
  { apply length_eqb_0 in H1. right. left. split; [done|]. congruence. }
  assert (model.DiagnosisKey inf <> []) as H1'.
  { intros He. apply length_eqb_0 in He. congruence. }
  destruct (length (model.Regions inf) =? 0)%nat eqn:H2.
  { apply length_eqb_0 in H2. right. right. left. repeat split; congruence. }
  assert (model.Regions inf <> []) as H2'.
  { intros He. apply length_eqb_0 in He. congruence. }
  destruct (model.LocalProvenance inf) eqn:H3; simpl.
  2: { do 3 right. left. repeat split; congruence. }
  case_bool_decide as H4; simpl.
  2: { do 4 right. left. repeat split; done. }
  destruct (only_excluded excluded (model.Regions inf)) eqn:H5.
  { do 5 right. left. repeat split; try done.
    intros H. apply only_excluded_spec in H. congruence. }
  apply only_excluded_spec in H5.
  destruct (0 <? size included)%nat eqn:H6; simpl.
  - apply size_ltb_0 in H6.
    destruct (none_included included (model.Regions inf)) eqn:H7.
    + do 6 right. repeat split; try done.
      intros [He|H]; [done|]. apply none_included_spec in H. congruence.
    + apply none_included_spec in H7. left. repeat split; try done. now right.
  - left. repeat split; try done. left.
    destruct (decide (included = ∅)) as [|Hne]; [done|].
    apply size_ltb_0 in Hne. congruence.
Qed.

Lemma check_None_iff : check' = None <-> Rules.eligible DiagnosisStatus_name included excluded inf.
Proof.
  unfold Rules.eligible.
  destruct check_cases as [H|[H|[H|[H|[H|[H|H]]]]]];
    destruct H as [-> H]; split; intros; try discriminate; tauto.
Qed.

End FilterChain.







(** * The aggregate: grouping, keys and the high-watermark *)

Lemma wf_ctr_key (st : Agg) (p : nat) (ctr : pb.ContactTracingResponse) :
  wf st -> pb.Response (response st) !! p = Some ctr ->
  ctrMap st !! ctr_key ctr = Some p.
Proof.
  intros [Hc _ Hs] Hp. apply Hc. unfold regs_at. rewrite Hp. simpl.
  unfold ctr_key, ctrKey_of. rewrite (Hs p); [done|].
  unfold regs_at. now rewrite Hp.
Qed.

Lemma wf_NoDup_ctr (st : Agg) :
  wf st -> NoDup (ctr_key <$> pb.Response (response st)).
Proof.
  intros Hwf. apply NoDup_alt. intros i j k Hi Hj.
  apply list_lookup_fmap_Some in Hi as (ci & -> & Hi).
  apply list_lookup_fmap_Some in Hj as (cj & Hk & Hj).
  apply (wf_ctr_key st _ _ Hwf) in Hi, Hj. congruence.
Qed.

Lemma wf_NoDup_cti (st : Agg) (ctr : pb.ContactTracingResponse) :
  wf st -> ctr ∈ pb.Response (response st) ->
  NoDup (cti_pair <$> pb.ctr_ContactTracingInfo ctr).
Proof.
  intros Hwf Hin. apply list_elem_of_lookup in Hin as [p Hp].
  apply NoDup_alt. intros i j pr Hi Hj.
  apply list_lookup_fmap_Some in Hi as (ci & -> & Hi).
  apply list_lookup_fmap_Some in Hj as (cj & Hpr & Hj).
  assert (Hki : ctiMap st !! path_key (pb.ctr_RegionIdentifiers ctr, ci)
                = Some (p, i)).
  { apply (wf_cti st Hwf). unfold at_path. simpl. now rewrite Hp, Hi. }
  assert (Hkj : ctiMap st !! path_key (pb.ctr_RegionIdentifiers ctr, cj)
                = Some (p, j)).
  { apply (wf_cti st Hwf). unfold at_path. simpl. now rewrite Hp, Hj. }
  unfold path_key, cti_pair in *. simpl in *.
  injection Hpr as Hs Hn. rewrite Hs, Hn in Hki. congruence.
Qed.

Lemma Inv_ctr_of (seen : list model.Infection) (st : Agg)
    (r : model.Infection) :
  Inv seen st -> r ∈ seen ->
  exists p ctr,
    pb.Response (response st) !! p = Some ctr /\ ctr_key ctr = rec_ctrKey r.
Proof.
  intros [Hwf Hct] Hr.
  destruct (ct_seen_ctr _ _ Hct r Hr) as [p Hp].
  pose proof Hp as Hp'. apply (wf_ctr st Hwf) in Hp'.
  unfold regs_at in Hp'.
  destruct (pb.Response (response st) !! p) as [ctr|] eqn:Hl; [|discriminate].
  exists p, ctr. split; [done|].
  simpl in Hp'. injection Hp' as Hp'.
  unfold ctr_key, ctrKey_of. rewrite (wf_sorted st Hwf p); [done|].
  unfold regs_at. now rewrite Hl.
Qed.

Lemma Inv_cti_of (seen : list model.Infection) (st : Agg)
    (r : model.Infection) :
  Inv seen st -> r ∈ seen ->
  exists q regs cti,
    at_path (pb.Response (response st)) q = Some (regs, cti)
    /\ pb.cti_DiagnosisKeys cti = keyseq (rec_ctiKey r) seen.
Proof.
  intros [Hwf Hct] Hr.
  destruct (ct_seen_cti _ _ Hct r Hr) as [q Hq].
  pose proof (ct_keys _ _ Hct _ _ Hq) as Hk. unfold keys_at in Hk.
  destruct (at_path (pb.Response (response st)) q) as [[regs cti]|] eqn:Hat;
    [|discriminate].
  exists q, regs, cti. split; [done|]. simpl in Hk. congruence.
Qed.

Lemma keyseq_twice (k : string) (ra rb : model.Infection)
    (l1 l2 l3 : list model.Infection) :
  rec_ctiKey ra = k -> rec_ctiKey rb = k ->
  keyseq k (l1 ++ ra :: l2 ++ rb :: l3)
  = keyseq k l1 ++ key_of ra :: keyseq k l2 ++ key_of rb :: keyseq k l3.
Proof.
  intros Ha Hb. unfold keyseq.
  rewrite filter_app, filter_cons, decide_True by done.
  rewrite filter_app, filter_cons, decide_True by done.
  now rewrite fmap_app, fmap_cons, fmap_app, fmap_cons.
Qed.

Lemma watermark_snoc (seen : list model.Infection) (r : model.Infection) :
  watermark (seen ++ [r]) = Z.max (watermark seen) (created r).
Proof. unfold watermark. now rewrite foldl_app. Qed.

Lemma watermark_nonneg (seen : list model.Infection) : (0 <= watermark seen)%Z.
Proof.
  induction seen as [|r l IH] using rev_ind; [done|].
  rewrite watermark_snoc. lia.
Qed.

Lemma watermark_upper (seen : list model.Infection) (r : model.Infection) :
  r ∈ seen -> (created r <= watermark seen)%Z.
Proof.
  induction seen as [|x l IH] using rev_ind; [inversion 1|].
  rewrite watermark_snoc. intros Hr.
  apply elem_of_app in Hr as [Hr|Hr].
  - specialize (IH Hr). lia.
  - apply list_elem_of_singleton in Hr as ->. lia.
Qed.

Lemma watermark_attained (seen : list model.Infection) :
  watermark seen = 0%Z
  \/ exists r, r ∈ seen /\ created r = watermark seen.
Proof.
  induction seen as [|x l IH] using rev_ind; [now left|].
  rewrite watermark_snoc.
  destruct (Z.max_spec (watermark l) (created x)) as [[Hlt ->]|[Hge ->]].
  - right. exists x. split; [|done]. apply elem_of_app. right. now left.
  - destruct IH as [IH|(r & Hr & IH)]; [now left|].
    right. exists r. split; [|done]. apply elem_of_app. now left.
Qed.

Lemma aggregate_Timestamp (st : Agg) (r : model.Infection) :
  pb.FetchResponseKeyTimestamp (response (aggregate st r))
  = if (pb.FetchResponseKeyTimestamp (response st) <? created r)%Z
    then created r
    else pb.FetchResponseKeyTimestamp (response st).
Proof.
  unfold aggregate, find_ctr, find_cti, created.
  repeat (case_match; simplify_eq; simpl in * ); try reflexivity; congruence.
Qed.

Section Returned.
Variable ToUpper : string -> string.
Variable DiagnosisStatus_name : gmap Z string.
Context {It : Type}.
Variable iter : database.InfectionIterator It.
Variable ctx : context.Context.
Variable req : pb.FederationFetchRequest.
Variable itFunc : fetchIterator It.
Variable fetchUntil : time.Time.

#[local] Abbreviation fetch' fuel :=
  (fetch ToUpper DiagnosisStatus_name iter fuel ctx req itFunc fetchUntil).
#[local] Abbreviation handed_out' :=
  (handed_out ToUpper iter req itFunc fetchUntil).
#[local] Abbreviation included_records' :=
  (included_records ToUpper DiagnosisStatus_name req).
#[local] Abbreviation run_records' :=
  (run_records ToUpper iter ctx req itFunc fetchUntil).
#[local] Abbreviation eligible' :=
  (Rules.eligible DiagnosisStatus_name
     (includedRegions (normalize ToUpper req))
     (excludedRegions (normalize ToUpper req))).

(** A returned response satisfies the aggregation invariant for the
    eligible records among those handed out. *)
Lemma returned_Inv (fuel : nat) (out : Outcome It)
    (resp : pb.FederationFetchResponse) :
  fetch' fuel = Some out ->
  out_result out = (Some resp, None) ->
  exists n items it_n st,
    handed_out' n items it_n
    /\ Inv (included_records' items) st
    /\ pb.Response resp = pb.Response (response st)
    /\ pb.FetchResponseKeyTimestamp resp
       = pb.FetchResponseKeyTimestamp (response st).
Proof.
  intros Hf Hr.
  destruct (fetch_returns _ _ _ _ _ _ _ _ _ _ Hf Hr)
    as (n & items & it_n & Hh & _ & HR & HT).
  exists n, items, it_n, (state_after ToUpper DiagnosisStatus_name req items).
  repeat split; try done; apply state_after_Inv.
Qed.

(** A returned response satisfies the aggregation invariant for the
    eligible records of the run. *)
Lemma returned_run (fuel : nat) (out : Outcome It)
    (resp : pb.FederationFetchResponse) :
  fetch' fuel = Some out ->
  out_result out = (Some resp, None) ->
  exists n items it_n st,
    run_records' n items it_n
    /\ Inv (included_records' items) st
    /\ pb.Response resp = pb.Response (response st)
    /\ pb.FetchResponseKeyTimestamp resp
       = pb.FetchResponseKeyTimestamp (response st).
Proof.
  intros Hf Hr.
  destruct (fetch_run _ _ _ _ _ _ _ _ _ _ Hf Hr)
    as (n & items & it_n & Hrun & HR & HT).
  exists n, items, it_n, (state_after ToUpper DiagnosisStatus_name req items).
  repeat split; try done; try apply Hrun; apply state_after_Inv.
Qed.

Lemma elem_of_included_records (items : list model.Infection)
    (r : model.Infection) :
  r ∈ included_records' items
  <-> Rules.eligible DiagnosisStatus_name
        (includedRegions (normalize ToUpper req))
        (excludedRegions (normalize ToUpper req)) r
      /\ r ∈ items.
Proof.
  unfold included_records, eligible_records.
  rewrite list_elem_of_filter, check_None_iff. done.
Qed.

(** What holds of the region-set keys of every returned response: no two
    [ContactTracingResponse] entries share a canonical region-set key and no
    two [ContactTracingInfo] entries of one [ContactTracingResponse] share a
    (status, authority) pair; two eligible records of the run whose region
    lists are equal up to order have the same canonical key, and the
    response has exactly one [ContactTracingResponse] with that key. *)
Lemma grouping_unique (fuel : nat) (out : Outcome It)
    (resp : pb.FederationFetchResponse) :
  fetch' fuel = Some out ->
  out_result out = (Some resp, None) ->
  NoDup (ctr_key <$> pb.Response resp)
  /\ (forall ctr, ctr ∈ pb.Response resp ->
        NoDup (cti_pair <$> pb.ctr_ContactTracingInfo ctr))
  /\ exists n items it_n,
       run_records' n items it_n
       /\ all_keys (pb.Response resp) ≡ₚ key_of <$> included_records' items
       /\ forall ra rb,
            ra ∈ included_records' items -> rb ∈ included_records' items ->
            model.Regions ra ≡ₚ model.Regions rb ->
            rec_ctrKey ra = rec_ctrKey rb
            /\ exists p ctr,
                 pb.Response resp !! p = Some ctr
                 /\ ctr_key ctr = rec_ctrKey ra
                 /\ forall p' ctr',
                      pb.Response resp !! p' = Some ctr' ->
                      ctr_key ctr' = rec_ctrKey rb -> p' = p.
Proof.
  intros Hf Hr.
  destruct (returned_run fuel out resp Hf Hr)
    as (n & items & it_n & st & Hh & HI & HR & _).
  rewrite HR. destruct HI as [Hwf Hct].
  split; [now apply wf_NoDup_ctr|].
  split; [intros ctr; now apply wf_NoDup_cti|].
  exists n, items, it_n. split; [done|]. split; [apply (ct_all _ _ Hct)|].
  intros ra rb Ha Hb Hperm.
  assert (Hk : rec_ctrKey ra = rec_ctrKey rb) by now apply ctrKey_of_perm.
  split; [done|].
  destruct (Inv_ctr_of _ st ra (conj Hwf Hct) Ha) as (p & ctr & Hp & Hkey).
  exists p, ctr. repeat split; try done.
  intros p' ctr' Hp' Hkey'.
  apply (wf_ctr_key st _ _ Hwf) in Hp, Hp'. congruence.
Qed.

(** [C4], as the code has it: the returned [FetchResponseKeyTimestamp] is 0
    when no record is included, and equals the maximum [createdAt] among the
    included records whenever one of them was created at or after the
    epoch. *)
Theorem C4_watermark_is_max (fuel : nat) (out : Outcome It)
    (resp : pb.FederationFetchResponse) :
  fetch' fuel = Some out ->
  out_result out = (Some resp, None) ->
  exists n items it_n,
    handed_out' n items it_n
    /\ all_keys (pb.Response resp) ≡ₚ key_of <$> included_records' items
    /\ (included_records' items = [] ->
        pb.FetchResponseKeyTimestamp resp = 0%Z)
    /\ ((exists r, r ∈ included_records' items /\ (0 <= created r)%Z) ->
        (forall r, r ∈ included_records' items ->
                   (created r <= pb.FetchResponseKeyTimestamp resp)%Z)
        /\ exists r, r ∈ included_records' items
                     /\ created r = pb.FetchResponseKeyTimestamp resp).
Proof.
  intros Hf Hr.
  destruct (returned_Inv fuel out resp Hf Hr)
    as (n & items & it_n & st & Hh & [Hwf Hct] & HR & HT).
  exists n, items, it_n. rewrite HR, HT, (ct_time _ _ Hct).
  split; [done|]. split; [apply (ct_all _ _ Hct)|]. split.
  - intros ->. reflexivity.
  - intros (r & Hr' & Hpos). split; [apply watermark_upper|].
    destruct (watermark_attained (included_records' items)) as [H0|H1];
      [|done].
    exists r. split; [done|].
    pose proof (watermark_upper _ r Hr'). lia.
Qed.

(** [C9]: every eligible record contributes exactly one [DiagnosisKey].
    The records are those of the run, all that the iterator handed out
    before the loop ended, and the eligible ones are those that pass the
    six rules.  The keys of a returned response are, up to order, the keys
    of the eligible records, one each, so their number is the number of
    eligible records; the [ContactTracingInfo] a record is filed under
    holds the keys of all eligible records with its key string, in order,
    so two eligible records with the same regions, status, authority, key
    bytes and intervals leave two equal entries in one
    [ContactTracingInfo]. *)
Theorem C9_no_deduplication (fuel : nat) (out : Outcome It)
    (resp : pb.FederationFetchResponse) :
  fetch' fuel = Some out ->
  out_result out = (Some resp, None) ->
  exists n items it_n,
    run_records' n items it_n
    /\ (forall r, r ∈ included_records' items <-> eligible' r /\ r ∈ items)
    /\ all_keys (pb.Response resp) ≡ₚ key_of <$> included_records' items
    /\ length (all_keys (pb.Response resp))
       = length (included_records' items)
    /\ (forall r, r ∈ included_records' items ->
          exists q regs cti,
            at_path (pb.Response resp) q = Some (regs, cti)
            /\ pb.cti_DiagnosisKeys cti
               = keyseq (rec_ctiKey r) (included_records' items))
    /\ (forall ra rb l1 l2 l3,
          included_records' items = l1 ++ ra :: l2 ++ rb :: l3 ->
          model.Regions ra = model.Regions rb ->
          model.DiagnosisStatus ra = model.DiagnosisStatus rb ->
          model.VerificationAuthorityName ra
          = model.VerificationAuthorityName rb ->
          key_of ra = key_of rb ->
          exists q regs cti A B C,
            at_path (pb.Response resp) q = Some (regs, cti)
            /\ pb.cti_DiagnosisKeys cti
               = A ++ key_of ra :: B ++ key_of ra :: C).
Proof.
  intros Hf Hr.
  destruct (returned_run fuel out resp Hf Hr)
    as (n & items & it_n & st & Hh & HI & HR & HT).
  exists n, items, it_n. rewrite HR.
  pose proof (ct_all _ _ (proj2 HI)) as Hall.
  split; [done|]. split; [apply elem_of_included_records|].
  split; [done|]. split; [|split].
  - rewrite Hall. apply length_fmap.
  - intros r Hin. now apply (Inv_cti_of _ st r HI).
  - intros ra rb l1 l2 l3 Heq Hregs Hst Hname Hkey.
    assert (Hin : ra ∈ included_records' items).
    { rewrite Heq. apply elem_of_app. right. now left. }
    destruct (Inv_cti_of _ st ra HI Hin) as (q & regs & cti & Hq & Hk).
    rewrite Heq in Hk. rewrite (keyseq_twice _ ra rb) in Hk; [|done|].
    + rewrite <- Hkey in Hk. eauto 10.
    + unfold rec_ctiKey, rec_ctrKey. now rewrite Hregs, Hst, Hname.
Qed.

(** [C10]: the returned high-watermark is never negative and equals
    [max(0, maximum createdAt over the included records)]: it bounds every
    included record from above and is 0 or the [createdAt] of one of them.
    The included records are the eligible records of the run, whatever
    their [createdAt]: the key of an eligible record created at or before
    the epoch is in the response.  Each aggregation step raises the
    watermark only when the record's [createdAt] strictly exceeds it, so
    such a record neither sets nor lowers a watermark that is not
    negative. *)
Theorem C10_watermark_nonnegative (fuel : nat) (out : Outcome It)
    (resp : pb.FederationFetchResponse) :
  fetch' fuel = Some out ->
  out_result out = (Some resp, None) ->
  (0 <= pb.FetchResponseKeyTimestamp resp)%Z
  /\ (exists n items it_n,
        run_records' n items it_n
        /\ (forall r, r ∈ included_records' items <-> eligible' r /\ r ∈ items)
        /\ all_keys (pb.Response resp) ≡ₚ key_of <$> included_records' items
        /\ (forall r, r ∈ items -> eligible' r -> (created r <= 0)%Z ->
                      key_of r ∈ all_keys (pb.Response resp))
        /\ pb.FetchResponseKeyTimestamp resp
           = watermark (included_records' items)
        /\ (forall r, r ∈ included_records' items ->
                      (created r <= pb.FetchResponseKeyTimestamp resp)%Z)
        /\ (pb.FetchResponseKeyTimestamp resp = 0%Z
            \/ exists r, r ∈ included_records' items
                         /\ created r = pb.FetchResponseKeyTimestamp resp)
        /\ ((forall r, r ∈ included_records' items -> (created r <= 0)%Z) ->
            pb.FetchResponseKeyTimestamp resp = 0%Z))
  /\ (forall st r,
        pb.FetchResponseKeyTimestamp (response (aggregate st r))
        = if (pb.FetchResponseKeyTimestamp (response st) <? created r)%Z
          then created r
          else pb.FetchResponseKeyTimestamp (response st))
  /\ (forall st r,
        (0 <= pb.FetchResponseKeyTimestamp (response st))%Z ->
        (created r <= 0)%Z ->
        pb.FetchResponseKeyTimestamp (response (aggregate st r))
        = pb.FetchResponseKeyTimestamp (response st)).
Proof.
  intros Hf Hr.
  destruct (returned_run fuel out resp Hf Hr)
    as (n & items & it_n & st & Hh & [Hwf Hct] & HR & HT).
  rewrite HR, HT, (ct_time _ _ Hct).
  split; [apply watermark_nonneg|]. split; [|split].
  - exists n, items, it_n.
    split; [done|]. split; [apply elem_of_included_records|].
    split; [apply (ct_all _ _ Hct)|]. split.
    { intros r Hin He _. rewrite (ct_all _ _ Hct).
      apply list_elem_of_fmap_2, elem_of_included_records. done. }
    split; [done|].
    split; [apply watermark_upper|]. split; [apply watermark_attained|].
    intros Hle.
    destruct (watermark_attained (included_records' items))
      as [H0|(r & Hin & Heq)]; [done|].
    pose proof (Hle r Hin).
    pose proof (watermark_nonneg (included_records' items)).
    lia.
  - apply aggregate_Timestamp.
  - intros st0 r Hpos Hle. rewrite aggregate_Timestamp.
    destruct (Z.ltb_spec (pb.FetchResponseKeyTimestamp (response st0))
                (created r)); [lia|done].
Qed.
End Returned.

(** ** Replayed calls, continued *)

#[local] Abbreviation plain := (Scripted.request [] []).
#[local] Abbreviation plain_run script :=
  (run_records ascii_ToUpper Scripted.iterator Scripted.never plain
     (Scripted.opens script) Scripted.horizon).
#[local] Abbreviation plain_included :=
  (included_records ascii_ToUpper Scripted.status_names plain).
#[local] Abbreviation plain_eligible :=
  (Rules.eligible Scripted.status_names
     (includedRegions (normalize ascii_ToUpper plain))
     (excludedRegions (normalize ascii_ToUpper plain))).

(** A record that lists a region twice: [US; US] and [US] get one
    [ContactTracingResponse] each, nothing removes the repetition. *)
Lemma repeated_region_two_entries :
  (forall x, x ∈ model.Regions Calls.ra <-> x ∈ model.Regions Calls.rb)
  /\ check_request ascii_ToUpper Scripted.status_names
       (Scripted.request [] []) Calls.ra = None
  /\ check_request ascii_ToUpper Scripted.status_names
       (Scripted.request [] []) Calls.rb = None
  /\ exists out resp,
       Scripted.run 3 Scripted.never (Scripted.request [] [])
         [Scripted.gives Calls.ra "c1"; Scripted.gives Calls.rb "c2"]
       = Some out
       /\ out_result out = (Some resp, None)
       /\ pb.Response resp
          = [pb.mkCtr ["US"; "US"] [pb.mkInfo 1 "ha" [key_of Calls.ra]];
             pb.mkCtr ["US"] [pb.mkInfo 1 "ha" [key_of Calls.rb]]].
Proof.
  split.
  { intros x. simpl. rewrite !elem_of_cons, elem_of_nil. tauto. }
  split; [vm_compute; reflexivity|]. split; [vm_compute; reflexivity|].
  eexists _, _. split; [vm_compute; reflexivity|].
  split; reflexivity.
Qed.

(** [C3] at a failing input.  The records [Calls.c2] and [Mixed.sb] are
    eligible and list the same two regions, each once, in opposite orders:
    their canonical region-set keys are equal.  An earlier record renders
    the [ctiMap] key string of [Calls.c2], so the key of [Calls.c2] is
    appended under the regions [0] of that record, while the key of
    [Mixed.sb] goes to the [ContactTracingResponse] of their common region
    set [0; 1]: no [ContactTracingResponse] holds both keys. *)
Theorem C3_same_regions_split :
  (forall x, x ∈ model.Regions Calls.c2 <-> x ∈ model.Regions Mixed.sb)
  /\ NoDup (model.Regions Calls.c2) /\ NoDup (model.Regions Mixed.sb)
  /\ rec_ctrKey Calls.c2 = rec_ctrKey Mixed.sb
  /\ included_records ascii_ToUpper Scripted.status_names
       (Scripted.request [] []) [Calls.c1; Calls.c2; Mixed.sb]
     = [Calls.c1; Calls.c2; Mixed.sb]
  /\ exists out resp,
       Scripted.run 4 Scripted.never (Scripted.request [] []) Mixed.split
       = Some out
       /\ out_result out = (Some resp, None)
       /\ pb.Response resp
          = [pb.mkCtr ["0"]
               [pb.mkInfo 1 "1::z" [key_of Calls.c1; key_of Calls.c2]];
             pb.mkCtr ["0"; "1"] [pb.mkInfo 1 "y" [key_of Mixed.sb]]]
       /\ (forall ctr,
             ctr ∈ pb.Response resp ->
             ~ (key_of Calls.c2 ∈ ctr_keys ctr
                /\ key_of Mixed.sb ∈ ctr_keys ctr))
       /\ (exists ctr,
             ctr ∈ pb.Response resp
             /\ key_of Calls.c2 ∈ ctr_keys ctr
             /\ ctr_key ctr <> rec_ctrKey Calls.c2).
Proof.
  split.
  { intros x. simpl. rewrite !elem_of_cons, elem_of_nil. tauto. }
  split.
  { simpl. repeat constructor; rewrite ?elem_of_cons, ?elem_of_nil;
      intros H; intuition discriminate. }
  split.
  { simpl. repeat constructor; rewrite ?elem_of_cons, ?elem_of_nil;
      intros H; intuition discriminate. }
  split; [vm_compute; reflexivity|]. split; [vm_compute; reflexivity|].
  eexists _, _. split; [vm_compute; reflexivity|].
  split; [reflexivity|]. split; [reflexivity|]. split.
  - intros ctr Hctr [H2 Hb]. cbn [pb.Response] in Hctr.
    apply elem_of_cons in Hctr as [->|Hctr].
    + unfold ctr_keys in Hb. simpl in Hb.
      rewrite !elem_of_cons, elem_of_nil in Hb.
      destruct Hb as [Hb|[Hb|[]]]; vm_compute in Hb; discriminate Hb.
    + apply list_elem_of_singleton in Hctr as ->.
      unfold ctr_keys in H2. simpl in H2.
      rewrite !elem_of_cons, elem_of_nil in H2.
      destruct H2 as [H2|[]]. vm_compute in H2. discriminate H2.
  - eexists. split; [left|]. split.
    + unfold ctr_keys. simpl. right. left.
    + vm_compute. discriminate.
Qed.

Lemma C4_watermark_is_max_witness :
  exists n items it_n,
    handed_out ascii_ToUpper Scripted.iterator (Scripted.request [] [])
      (Scripted.opens Calls.script1) Scripted.horizon n items it_n
    /\ all_keys (pb.Response Calls.resp1)
       ≡ₚ key_of <$> included_records ascii_ToUpper Scripted.status_names
                       (Scripted.request [] []) items
    /\ (included_records ascii_ToUpper Scripted.status_names
          (Scripted.request [] []) items = [] ->
        pb.FetchResponseKeyTimestamp Calls.resp1 = 0%Z)
    /\ ((exists r, r ∈ included_records ascii_ToUpper Scripted.status_names
                         (Scripted.request [] []) items
                   /\ (0 <= created r)%Z) ->
        (forall r, r ∈ included_records ascii_ToUpper Scripted.status_names
                         (Scripted.request [] []) items ->
                   (created r <= pb.FetchResponseKeyTimestamp Calls.resp1)%Z)
        /\ exists r, r ∈ included_records ascii_ToUpper Scripted.status_names
                           (Scripted.request [] []) items
                     /\ created r = pb.FetchResponseKeyTimestamp Calls.resp1).
Proof.
  apply (C4_watermark_is_max ascii_ToUpper Scripted.status_names
           Scripted.iterator Scripted.never (Scripted.request [] [])
           (Scripted.opens Calls.script1) Scripted.horizon 3 Calls.out1
           Calls.resp1).
  - vm_compute. reflexivity.
  - vm_compute. reflexivity.
Defined.

(** One eligible record, created five seconds before the epoch: it is
    included, the maximum [createdAt] among the included records is -5, and
    the returned [FetchResponseKeyTimestamp] is 0. *)
Lemma C4_counterexample :
  included_records ascii_ToUpper Scripted.status_names
    (Scripted.request [] []) [Calls.early] = [Calls.early]
  /\ created Calls.early = (-5)%Z
  /\ exists out resp,
       Scripted.run 2 Scripted.never (Scripted.request [] [])
         [Scripted.gives Calls.early "c1"]
       = Some out
       /\ out_result out = (Some resp, None)
       /\ all_keys (pb.Response resp) = [key_of Calls.early]
       /\ pb.FetchResponseKeyTimestamp resp = 0%Z
       /\ pb.FetchResponseKeyTimestamp resp <> created Calls.early.
Proof.
  split; [vm_compute; reflexivity|]. split; [reflexivity|].
  eexists _, _. split; [vm_compute; reflexivity|].
  repeat split. discriminate.
Qed.

(** [C8] at a failing input.  The two records are eligible and have
    different region sets, but [fmt.Sprintf("%s::%d::%s", ...)] renders
    ("0", 1, "1::z") and ("0::1", 1, "z") alike.  The second record finds the
    [ContactTracingInfo] of the first in [ctiMap]: its key is appended under
    the regions [0] and the authority "1::z", and the [ContactTracingResponse]
    created for its own regions [0; 1] stays empty. *)
Theorem C8_key_collision :
  rec_ctrKey Calls.c1 <> rec_ctrKey Calls.c2
  /\ rec_ctiKey Calls.c1 = rec_ctiKey Calls.c2
  /\ included_records ascii_ToUpper Scripted.status_names
       (Scripted.request [] []) [Calls.c1; Calls.c2] = [Calls.c1; Calls.c2]
  /\ exists out resp,
       Scripted.run 3 Scripted.never (Scripted.request [] [])
         [Scripted.gives Calls.c1 "c1"; Scripted.gives Calls.c2 "c2"]
       = Some out
       /\ out_result out = (Some resp, None)
       /\ pb.Response resp
          = [pb.mkCtr ["0"]
               [pb.mkInfo 1 "1::z" [key_of Calls.c1; key_of Calls.c2]];
             pb.mkCtr ["0"; "1"] []]
       /\ forall ctr cti,
            ctr ∈ pb.Response resp ->
            cti ∈ pb.ctr_ContactTracingInfo ctr ->
            cti_pair cti <> pair_of Calls.c2.
Proof.
  split; [vm_compute; discriminate|]. split; [vm_compute; reflexivity|].
  split; [vm_compute; reflexivity|].
  eexists _, _. split; [vm_compute; reflexivity|].
  split; [reflexivity|]. split; [reflexivity|].
  intros ctr cti Hctr Hcti. cbn [pb.Response] in Hctr.
  apply elem_of_cons in Hctr as [->|Hctr].
  - apply list_elem_of_singleton in Hcti as ->. vm_compute. discriminate.
  - apply list_elem_of_singleton in Hctr as ->. inversion Hcti.
Qed.

(** The run of [Mixed.twins]: the record handed out first comes again as
    the third, and its key is in the response twice. *)
Lemma C9_no_deduplication_witness :
  (exists n items it_n,
     plain_run Mixed.twins n items it_n
     /\ (forall r, r ∈ plain_included items <-> plain_eligible r /\ r ∈ items)
     /\ all_keys (pb.Response Mixed.resp_twins)
        ≡ₚ key_of <$> plain_included items
     /\ length (all_keys (pb.Response Mixed.resp_twins))
        = length (plain_included items)
     /\ (forall r, r ∈ plain_included items ->
           exists q regs cti,
             at_path (pb.Response Mixed.resp_twins) q = Some (regs, cti)
             /\ pb.cti_DiagnosisKeys cti
                = keyseq (rec_ctiKey r) (plain_included items))
     /\ (forall ra rb l1 l2 l3,
           plain_included items = l1 ++ ra :: l2 ++ rb :: l3 ->
           model.Regions ra = model.Regions rb ->
           model.DiagnosisStatus ra = model.DiagnosisStatus rb ->
           model.VerificationAuthorityName ra
           = model.VerificationAuthorityName rb ->
           key_of ra = key_of rb ->
           exists q regs cti A B C,
             at_path (pb.Response Mixed.resp_twins) q = Some (regs, cti)
             /\ pb.cti_DiagnosisKeys cti
                = A ++ key_of ra :: B ++ key_of ra :: C))
  /\ pb.Response Mixed.resp_twins
     = [pb.mkCtr ["US"]
          [pb.mkInfo 1 "ha" [key_of Mixed.twin; key_of Mixed.twin]];
        pb.mkCtr ["CA"; "US"] [pb.mkInfo 1 "ha" [key_of Replay.r1]]].
Proof.
  split; [|reflexivity].
  apply (C9_no_deduplication ascii_ToUpper Scripted.status_names
           Scripted.iterator Scripted.never (Scripted.request [] [])
           (Scripted.opens Mixed.twins) Scripted.horizon 4 Mixed.out_twins
           Mixed.resp_twins).
  - vm_compute. reflexivity.
  - vm_compute. reflexivity.
Defined.

(** The run of [Mixed.around_epoch]: the record created before the epoch is
    in the response and the watermark is that of the other record. *)
Lemma C10_watermark_nonnegative_witness :
  ((0 <= pb.FetchResponseKeyTimestamp Mixed.resp_epoch)%Z
   /\ (exists n items it_n,
         plain_run Mixed.around_epoch n items it_n
         /\ (forall r,
               r ∈ plain_included items <-> plain_eligible r /\ r ∈ items)
         /\ all_keys (pb.Response Mixed.resp_epoch)
            ≡ₚ key_of <$> plain_included items
         /\ (forall r, r ∈ items -> plain_eligible r -> (created r <= 0)%Z ->
                       key_of r ∈ all_keys (pb.Response Mixed.resp_epoch))
         /\ pb.FetchResponseKeyTimestamp Mixed.resp_epoch
            = watermark (plain_included items)
         /\ (forall r, r ∈ plain_included items ->
                       (created r
                        <= pb.FetchResponseKeyTimestamp Mixed.resp_epoch)%Z)
         /\ (pb.FetchResponseKeyTimestamp Mixed.resp_epoch = 0%Z
             \/ exists r, r ∈ plain_included items
                          /\ created r
                             = pb.FetchResponseKeyTimestamp Mixed.resp_epoch)
         /\ ((forall r, r ∈ plain_included items -> (created r <= 0)%Z) ->
             pb.FetchResponseKeyTimestamp Mixed.resp_epoch = 0%Z))
   /\ (forall st r,
         pb.FetchResponseKeyTimestamp (response (aggregate st r))
         = if (pb.FetchResponseKeyTimestamp (response st) <? created r)%Z
           then created r
           else pb.FetchResponseKeyTimestamp (response st))
   /\ (forall st r,
         (0 <= pb.FetchResponseKeyTimestamp (response st))%Z ->
         (created r <= 0)%Z ->
         pb.FetchResponseKeyTimestamp (response (aggregate st r))
         = pb.FetchResponseKeyTimestamp (response st)))
  /\ created Mixed.before = (-5)%Z
  /\ all_keys (pb.Response Mixed.resp_epoch)
     = [key_of Replay.r1; key_of Mixed.before]
  /\ pb.FetchResponseKeyTimestamp Mixed.resp_epoch = 5%Z.
Proof.
  split; [|repeat split].
  apply (C10_watermark_nonnegative ascii_ToUpper Scripted.status_names
           Scripted.iterator Scripted.never (Scripted.request [] [])
           (Scripted.opens Mixed.around_epoch) Scripted.horizon 3
           Mixed.out_epoch Mixed.resp_epoch).
  - vm_compute. reflexivity.
  - vm_compute. reflexivity.
Defined.

(** * First-seen order, and grouping when key strings do not collide *)

Lemma first_seen_snoc {A} `{EqDecision A} (l : list A) (x : A) :
  first_seen (l ++ [x])
  = if decide (x ∈ first_seen l) then first_seen l
    else (first_seen l ++ [x])%list.
Proof. unfold first_seen. now rewrite foldl_app. Qed.

Lemma elem_of_first_seen {A} `{EqDecision A} (l : list A) (x : A) :
  x ∈ first_seen l <-> x ∈ l.
Proof.
  induction l as [|y l IH] using rev_ind; [done|].
  rewrite first_seen_snoc, elem_of_app, list_elem_of_singleton.
  case_decide as Hy.
  - rewrite IH. split; [tauto|]. intros [?| ->]; [done|]. now apply IH.
  - rewrite elem_of_app, list_elem_of_singleton, IH. done.
Qed.

Lemma filter_fresh {A} (P : A -> Prop) `{!forall x, Decision (P x)}
    (l : list A) :
  (forall x, x ∈ l -> ~ P x) -> filter P l = [].
Proof.
  induction l as [|y l IH]; intros Hf; [done|].
  rewrite filter_cons, decide_False.
  - apply IH. intros x Hx. apply Hf. now right.
  - apply Hf. now left.
Qed.

Lemma filter_ext_in {A} (P Q : A -> Prop) `{!forall x, Decision (P x)}
    `{!forall x, Decision (Q x)} (l : list A) :
  (forall x, x ∈ l -> (P x <-> Q x)) -> filter P l = filter Q l.
Proof.
  induction l as [|y l IH]; intros Hf; [done|].
  rewrite !filter_cons. rewrite IH by (intros x Hx; apply Hf; now right).
  destruct (Hf y ltac:(now left)).
  repeat case_decide; tauto.
Qed.

Lemma rec_ctiKey_eq (ra rb : model.Infection) :
  rec_ctrKey ra = rec_ctrKey rb -> pair_of ra = pair_of rb ->
  rec_ctiKey ra = rec_ctiKey rb.
Proof.
  unfold rec_ctiKey, pair_of. intros -> Hp. injection Hp as -> ->. done.
Qed.

Lemma pairs_at_push (L : list pb.ContactTracingResponse) regs p :
  pairs_at (L ++ [pb.mkCtr regs []]) p
  = if decide (p = length L) then Some [] else pairs_at L p.
Proof.
  unfold pairs_at. case_decide as Hp.
  - subst. now rewrite list_lookup_middle.
  - destruct (decide (p < length L)%nat) as [Hlt|Hge].
    + now rewrite lookup_app_l.
    + rewrite !lookup_ge_None_2; [done|lia|]. rewrite length_app. simpl. lia.
Qed.

Lemma pairs_at_append_cti (L : list pb.ContactTracingResponse) p cti p' :
  pairs_at (alter (append_cti cti) p L) p'
  = if decide (p' = p)
    then (fun l => (l ++ [cti_pair cti])%list) <$> pairs_at L p
    else pairs_at L p'.
Proof.
  unfold pairs_at. case_decide as Hp.
  - subst. rewrite list_lookup_alter_eq. destruct (L !! p); [|done].
    simpl. now rewrite fmap_app.
  - now rewrite list_lookup_alter_ne.
Qed.

Lemma pairs_at_append_key (L : list pb.ContactTracingResponse) q dk p :
  pairs_at (append_key_at q dk L) p = pairs_at L p.
Proof.
  unfold pairs_at, append_key_at.
  destruct (decide (fst q = p)) as [<-|Hne].
  - rewrite list_lookup_alter_eq. destruct (L !! fst q); [|done]. simpl.
    f_equal.
    rewrite (list_fmap_alter cti_pair (append_key dk) id).
    + now rewrite list_alter_id.
    + apply Forall_forall. done.
  - now rewrite list_lookup_alter_ne.
Qed.

Lemma ctr_key_alter (L : list pb.ContactTracingResponse) p
    (f : pb.ContactTracingResponse -> pb.ContactTracingResponse) :
  (forall ctr, pb.ctr_RegionIdentifiers (f ctr) = pb.ctr_RegionIdentifiers ctr) ->
  ctr_key <$> alter f p L = ctr_key <$> L.
Proof.
  intros Hf. rewrite (list_fmap_alter ctr_key f id).
  - now rewrite list_alter_id.
  - apply Forall_forall. intros ctr _. unfold ctr_key. now rewrite Hf.
Qed.

Lemma wf_ctr_key_elem (st : Agg) (K : string) :
  wf st ->
  K ∈ ctr_key <$> pb.Response (response st) <-> is_Some (ctrMap st !! K).
Proof.
  intros Hwf. rewrite list_elem_of_fmap. split.
  - intros (ctr & -> & Hin). apply list_elem_of_lookup in Hin as [p Hp].
    exists p. now apply wf_ctr_key.
  - intros [p Hp]. pose proof Hp as Hp'. apply (wf_ctr st Hwf) in Hp'.
    unfold regs_at in Hp'.
    destruct (pb.Response (response st) !! p) as [ctr|] eqn:Hl;
      [|discriminate].
    exists ctr. split; [|eapply list_elem_of_lookup_2; eauto].
    pose proof (wf_ctr_key st p ctr Hwf Hl) as Hk.
    simpl in Hp'. injection Hp' as Hp'.
    unfold ctr_key, ctrKey_of. rewrite (wf_sorted st Hwf p); [done|].
    unfold regs_at. now rewrite Hl.
Qed.

(** Top-level entries appear in the order their keys are first seen. *)
Lemma aggregate_ctr_keys (st : Agg) (r : model.Infection) :
  wf st ->
  ctr_key <$> pb.Response (response (aggregate st r))
  = if decide (rec_ctrKey r ∈ ctr_key <$> pb.Response (response st))
    then ctr_key <$> pb.Response (response st)
    else ((ctr_key <$> pb.Response (response st)) ++ [rec_ctrKey r])%list.
Proof.
  intros Hwf. rewrite aggregate_eq. cbv zeta.
  rewrite add_key_Response. unfold append_key_at.
  rewrite ctr_key_alter by done.
  assert (Hcti : forall st1 p k s a,
            ctr_key <$> pb.Response (response (snd (find_cti st1 p k s a)))
            = ctr_key <$> pb.Response (response st1)).
  { intros st1 p k s a. unfold find_cti. case_match; simpl; [done|].
    now apply ctr_key_alter. }
  rewrite Hcti. unfold find_ctr.
  pose proof (wf_ctr_key_elem st (rec_ctrKey r) Hwf) as Hel.
  destruct (ctrMap st !! rec_ctrKey r) as [p|] eqn:HK; simpl.
  - rewrite decide_True; [done|]. apply Hel. eauto.
  - rewrite decide_False.
    + rewrite fmap_app. simpl. unfold ctr_key at 2. simpl.
      now rewrite ctrKey_of_sorted.
    + rewrite Hel. intros [? ?]. discriminate.
Qed.

Lemma aggregate_all_ctr_keys (items seen : list model.Infection) (st : Agg) :
  wf st ->
  ctr_key <$> pb.Response (response st) = first_seen (rec_ctrKey <$> seen) ->
  ctr_key <$> pb.Response (response (foldl aggregate st items))
  = first_seen (rec_ctrKey <$> (seen ++ items)%list).
Proof.
  revert seen st. induction items as [|r l IH]; intros seen st Hwf Hk; simpl.
  - now rewrite app_nil_r.
  - replace (seen ++ r :: l)%list with ((seen ++ [r]) ++ l)%list
      by now rewrite <- app_assoc.
    apply IH; [now apply aggregate_wf|].
    rewrite aggregate_ctr_keys by done. rewrite fmap_app.
    change (rec_ctrKey <$> [r]) with [rec_ctrKey r].
    now rewrite first_seen_snoc, Hk.
Qed.

Lemma grouped_init : grouped [] init_Agg.
Proof.
  split; simpl.
  - intros k q Hq. rewrite lookup_empty in Hq. discriminate.
  - intros p K. cbn. discriminate.
Qed.

Lemma no_collision_app_l (l1 l2 : list model.Infection) :
  no_collision (l1 ++ l2) -> no_collision l1.
Proof.
  intros Hn ra rb Ha Hb. apply Hn; apply elem_of_app; now left.
Qed.

Lemma find_ctr_grouped (seen : list model.Infection) (st : Agg)
    (regs : list string) :
  content seen st -> grouped seen st ->
  grouped seen (snd (find_ctr st regs (Join regs))).
Proof.
  intros Hct [Hcr Hin]. unfold find_ctr.
  destruct (ctrMap st !! Join regs) as [p|] eqn:HK; simpl; [by split|].
  split; simpl.
  - intros k q Hq. destruct (Hcr k q Hq) as (r0 & rg & cti & H).
    exists r0, rg, cti. now rewrite at_path_push.
  - intros p K. rewrite regs_at_push, pairs_at_push.
    case_decide as Hp; [|apply Hin].
    simpl. intros [= <-]. rewrite filter_fresh; [done|].
    intros x Hx Heq. apply (ct_seen_ctr _ _ Hct) in Hx as [p' Hp'].
    congruence.
Qed.

Lemma filter_snoc_ctrKey (K : string) (seen : list model.Infection)
    (r : model.Infection) :
  pair_of <$> filter (fun x => rec_ctrKey x = K) (seen ++ [r])
  = ((pair_of <$> filter (fun x => rec_ctrKey x = K) seen)
     ++ if decide (rec_ctrKey r = K) then [pair_of r] else [])%list.
Proof.
  rewrite filter_app, fmap_app. f_equal.
  rewrite filter_cons. now case_decide.
Qed.

Lemma elem_of_pairs (K : string) (pr : Z * string)
    (seen : list model.Infection) :
  pr ∈ pair_of <$> filter (fun x => rec_ctrKey x = K) seen
  <-> exists r0, r0 ∈ seen /\ rec_ctrKey r0 = K /\ pair_of r0 = pr.
Proof.
  rewrite list_elem_of_fmap. setoid_rewrite list_elem_of_filter.
  split; intros (r0 & H); exists r0; intuition congruence.
Qed.

(** Steps 2 and 3 of [aggregate] on a state whose entry for the record's
    regions is in place. *)
Lemma add_key_grouped (seen : list model.Infection) (st : Agg)
    (r : model.Infection) (p : nat) :
  wf st -> content seen st -> grouped seen st ->
  ctrMap st !! rec_ctrKey r = Some p ->
  no_collision (seen ++ [r]) ->
  grouped (seen ++ [r])
    (add_key
       (snd (find_cti st p (rec_ctiKey r) (int32 (model.DiagnosisStatus r))
               (model.VerificationAuthorityName r)))
       (fst (find_cti st p (rec_ctiKey r) (int32 (model.DiagnosisStatus r))
               (model.VerificationAuthorityName r)))
       (key_of r) (time.Unix (model.CreatedAt r))).
Proof.
  intros Hwf Hct [Hcr Hin] HK Hnc.
  assert (Hr : r ∈ (seen ++ [r])%list) by (apply elem_of_app; right; now left).
  assert (Hregs : exists regs,
             regs_at (pb.Response (response st)) p = Some regs
             /\ Join regs = rec_ctrKey r).
  { apply (wf_ctr st Hwf) in HK.
    destruct (regs_at (pb.Response (response st)) p) as [regs|];
      [|discriminate].
    exists regs. split; [done|]. simpl in HK. congruence. }
  destruct Hregs as (regs & Hregs & HJ).
  unfold find_cti.
  destruct (ctiMap st !! rec_ctiKey r) as [q|] eqn:Hq; simpl.
  - (* the ContactTracingInfo is found *)
    destruct (Hcr _ _ Hq) as (r0 & rg0 & cti0 & Hr0 & Hk0 & Hat0 & HJ0 & Hp0).
    destruct (Hnc r0 r) as [HK0 Hpr0]; [apply elem_of_app; now left|done|done|].
    split.
    + intros k q' Hq'. change (ctiMap st !! k = Some q') in Hq'.
      destruct (Hcr _ _ Hq') as (r1 & rg1 & cti1 & Hr1 & Hk1 & Hat1 & HJ1 & Hp1).
      rewrite add_key_Response, at_path_append_key.
      case_decide as Hqq.
      * subst q'. rewrite Hat1. simpl.
        exists r1, rg1, (append_key (key_of r) cti1).
        repeat split; try done. apply elem_of_app. now left.
      * exists r1, rg1, cti1. repeat split; try done.
        apply elem_of_app. now left.
    + intros p' K'. rewrite add_key_Response, regs_at_append_key,
        pairs_at_append_key, filter_snoc_ctrKey.
      intros HK'. rewrite (Hin _ _ HK'). f_equal.
      case_decide as HKK; [|now rewrite app_nil_r].
      rewrite first_seen_snoc, decide_True; [done|].
      apply elem_of_first_seen, elem_of_pairs.
      exists r0. repeat split; congruence.
  - (* the ContactTracingInfo is created *)
    split.
    + intros k q' Hq'. cbn [add_key ctiMap] in Hq'.
      rewrite lookup_insert in Hq'.
      rewrite add_key_Response. simpl. rewrite at_path_append_key.
      rewrite !(at_path_append_cti _ _ regs) by done.
      case_decide as Hk.
      * injection Hq' as <-. subst k. rewrite !decide_True by done. simpl.
        eexists r, regs, _. repeat split; try done.
      * destruct (Hcr _ _ Hq') as (r1 & rg1 & cti1 & Hr1 & Hk1 & Hat1 & HJ1 & Hp1).
        assert (Hne : q' <> (p, cti_count (pb.Response (response st)) p)).
        { intros ->. unfold at_path, cti_count in Hat1. simpl in Hat1.
          destruct (pb.Response (response st) !! p) as [ctr|];
            [|discriminate].
          rewrite lookup_ge_None_2 in Hat1 by lia. discriminate. }
        rewrite !decide_False by done.
        exists r1, rg1, cti1. repeat split; try done.
        apply elem_of_app. now left.
    + intros p' K'. rewrite add_key_Response. simpl.
      rewrite regs_at_append_key, regs_at_append_cti, pairs_at_append_key,
        pairs_at_append_cti, filter_snoc_ctrKey.
      intros HK'. pose proof (Hin _ _ HK') as Hold.
      case_decide as Hpp.
      * subst p'. rewrite Hregs in HK'. simpl in HK'.
        assert (K' = rec_ctrKey r) as -> by congruence.
        rewrite Hold, decide_True by done. simpl. f_equal.
        rewrite first_seen_snoc, decide_False; [done|].
        rewrite elem_of_first_seen, elem_of_pairs.
        intros (r0 & Hr0 & HK0 & Hp0).
        apply (ct_seen_cti _ _ Hct) in Hr0 as [q0 Hq0].
        rewrite (rec_ctiKey_eq r0 r) in Hq0 by done. congruence.
      * rewrite Hold, decide_False; [now rewrite app_nil_r|].
        intros <-. apply (wf_ctr st Hwf) in HK'. congruence.
Qed.

Lemma aggregate_grouped (seen : list model.Infection) (st : Agg)
    (r : model.Infection) :
  Inv seen st -> grouped seen st -> no_collision (seen ++ [r]) ->
  grouped (seen ++ [r]) (aggregate st r).
Proof.
  intros [Hwf Hct] Hgr Hnc. rewrite aggregate_eq. cbv zeta.
  pose proof (find_ctr_wf st (sort_Strings (model.Regions r)) Hwf
                (sort_Strings_idem _)) as [Hwf1 HK].
  pose proof (find_ctr_content seen st (sort_Strings (model.Regions r))
                (rec_ctrKey r) Hct) as Hct1.
  pose proof (find_ctr_grouped seen st (sort_Strings (model.Regions r))
                Hct Hgr) as Hgr1.
  eapply add_key_grouped; eauto.
Qed.

Lemma aggregate_all_grouped (items seen : list model.Infection) (st : Agg) :
  Inv seen st -> grouped seen st -> no_collision (seen ++ items) ->
  grouped (seen ++ items) (foldl aggregate st items).
Proof.
  revert seen st. induction items as [|r l IH]; intros seen st HI Hgr Hnc;
    simpl.
  - now rewrite app_nil_r.
  - replace (seen ++ r :: l)%list with ((seen ++ [r]) ++ l)%list in *
      by now rewrite <- app_assoc.
    apply IH.
    + now apply aggregate_Inv.
    + apply aggregate_grouped; eauto using no_collision_app_l.
    + done.
Qed.

Section ReturnedGrouping.
Variable ToUpper : string -> string.
Variable DiagnosisStatus_name : gmap Z string.
Context {It : Type}.
Variable iter : database.InfectionIterator It.
Variable ctx : context.Context.
Variable req : pb.FederationFetchRequest.
Variable itFunc : fetchIterator It.
Variable fetchUntil : time.Time.

#[local] Abbreviation included_records' :=
  (included_records ToUpper DiagnosisStatus_name req).

Lemma state_after_grouped (items : list model.Infection) :
  no_collision (included_records' items) ->
  grouped (included_records' items)
    (state_after ToUpper DiagnosisStatus_name req items).
Proof.
  intros Hnc. unfold state_after. rewrite absorb_all_eq.
  apply (aggregate_all_grouped _ [] init_Agg Inv_init grouped_init Hnc).
Qed.

Lemma state_after_ctr_keys (items : list model.Infection) :
  ctr_key <$> pb.Response
                (response (state_after ToUpper DiagnosisStatus_name req items))
  = first_seen (rec_ctrKey <$> included_records' items).
Proof.
  unfold state_after. rewrite absorb_all_eq.
  apply (aggregate_all_ctr_keys _ [] init_Agg wf_init). reflexivity.
Qed.

(** The insertion-order fold, as far as the code delivers it.  The
    records are those of the run, all that the iterator handed out before
    the loop ended.  The top-level entries of a returned response always
    appear in first-seen order of the canonical region-set keys of the
    eligible ones.  When no two eligible records with
    different (region set, status, authority) triples render the same
    [ctiMap] key string, the [ContactTracingInfo] entries of every
    [ContactTracingResponse] appear in first-seen order of their pairs and
    each holds the keys of the records of its group, in processing order. *)
Theorem grouping_without_collisions (fuel : nat) (out : Outcome It)
    (resp : pb.FederationFetchResponse) :
  fetch ToUpper DiagnosisStatus_name iter fuel ctx req itFunc fetchUntil
  = Some out ->
  out_result out = (Some resp, None) ->
  exists n items it_n,
    run_records ToUpper iter ctx req itFunc fetchUntil n items it_n
    /\ ctr_key <$> pb.Response resp
       = first_seen (rec_ctrKey <$> included_records' items)
    /\ (no_collision (included_records' items) ->
        forall p ctr,
          pb.Response resp !! p = Some ctr ->
          cti_pair <$> pb.ctr_ContactTracingInfo ctr
          = first_seen
              (pair_of <$> filter (fun x => rec_ctrKey x = ctr_key ctr)
                             (included_records' items))
          /\ forall j cti,
               pb.ctr_ContactTracingInfo ctr !! j = Some cti ->
               pb.cti_DiagnosisKeys cti
               = key_of <$> group (ctr_key ctr) (cti_pair cti)
                              (included_records' items)).
Proof.
  intros Hf Hr.
  destruct (fetch_run _ _ _ _ _ _ _ _ _ _ Hf Hr)
    as (n & items & it_n & Hh & HR & _).
  exists n, items, it_n. rewrite HR.
  split; [done|]. split; [apply state_after_ctr_keys|].
  intros Hnc p ctr Hp.
  destruct (state_after_Inv ToUpper DiagnosisStatus_name req items)
    as [Hwf Hct].
  destruct (state_after_grouped items Hnc) as [Hcr Hin].
  set (st := state_after ToUpper DiagnosisStatus_name req items) in *.
  assert (HJ : ctr_key ctr = Join (pb.ctr_RegionIdentifiers ctr)).
  { unfold ctr_key, ctrKey_of. rewrite (wf_sorted st Hwf p); [done|].
    unfold regs_at. now rewrite Hp. }
  split.
  - specialize (Hin p (ctr_key ctr)). unfold regs_at, pairs_at in Hin.
    rewrite Hp in Hin. simpl in Hin. rewrite HJ in Hin at 1.
    specialize (Hin eq_refl). congruence.
  - intros j cti Hj.
    assert (Hat : at_path (pb.Response (response st)) (p, j)
                  = Some (pb.ctr_RegionIdentifiers ctr, cti)).
    { unfold at_path. simpl. now rewrite Hp, Hj. }
    assert (Hq : ctiMap st !! path_key (pb.ctr_RegionIdentifiers ctr, cti)
                 = Some (p, j)).
    { apply (wf_cti st Hwf). now rewrite Hat. }
    pose proof (ct_keys _ _ Hct _ _ Hq) as Hk. unfold keys_at in Hk.
    rewrite Hat in Hk. simpl in Hk. injection Hk as ->.
    destruct (Hcr _ _ Hq) as (r0 & rg & cti0 & Hr0 & Hk0 & Hat0 & HJ0 & Hp0).
    rewrite Hat in Hat0. injection Hat0 as <- <-.
    unfold keyseq, group. f_equal.
    apply filter_ext_in. intros x Hx. rewrite HJ, HJ0, Hp0. split.
    + intros Hkx. apply Hnc; [done|done|congruence].
    + intros [HKx Hpx]. rewrite <- Hk0. now apply rec_ctiKey_eq.
Qed.
End ReturnedGrouping.

(** * The scenarios of the specification, replayed *)

(** Records with regions [US; CA] and [CA; US], then exhaustion: one
    [ContactTracingResponse] for [CA; US] with one [ContactTracingInfo]
    holding both keys in order. *)
Example scenario_same_regions :
  Calls.resp1
  = pb.mkResponse
      [pb.mkCtr ["CA"; "US"]
         [pb.mkInfo 1 "ha" [key_of Replay.r1; key_of Replay.r2]]]
      7 false "".
Proof. reflexivity. Qed.

(** A record without diagnosis key between the two leaves no trace. *)
Example scenario_malformed_between :
  Scripted.run 4 Scripted.never (Scripted.request [] [])
    [Scripted.gives Replay.r1 "c1"; Scripted.gives Calls.keyless "c2";
     Scripted.gives Replay.r2 "c3"]
  = Some (mkOutcome (Scripted.request [] []) (Some (("c3", None), []))
            (Some Calls.resp1, None)).
Proof. vm_compute. reflexivity. Qed.

(** The context is cancelled after the first of three records. *)
Example scenario_cancelled_after_first :
  Scripted.run 3 (Scripted.fires_at 1 context.Canceled)
    (Scripted.request [] [])
    [Scripted.gives Replay.r1 "c1"; Scripted.gives Calls.rb "c2";
     Scripted.gives Replay.r2 "c3"]
  = Some (mkOutcome (Scripted.request [] [])
            (Some (("c1", None),
                   [Scripted.gives Calls.rb "c2"; Scripted.gives Replay.r2 "c3"]))
            (Some (pb.mkResponse
                     [pb.mkCtr ["CA"; "US"]
                        [pb.mkInfo 1 "ha" [key_of Replay.r1]]]
                     5 true "c1"),
             None)).
Proof. vm_compute. reflexivity. Qed.

(** Lower-case request regions are upper-cased; record regions are not. *)
Example scenario_case_folding :
  check_request ascii_ToUpper Scripted.status_names
    (Scripted.request ["us"] ["ca"]) Replay.r1 = None
  /\ check_request ascii_ToUpper Scripted.status_names
       (Scripted.request ["us"] []) Calls.lower
     = Some NoRequestedRegion.
Proof. split; vm_compute; reflexivity. Qed.

(** * The deadline bounds the loop *)

Section Deadline.
Variable ToUpper : string -> string.
Variable DiagnosisStatus_name : gmap Z string.
Context {It : Type}.
Variable iter : database.InfectionIterator It.
Variable ctx : context.Context.

Lemma loop_by_deadline (included excluded : gset string) (m : nat) :
  forall (i fuel : nat) (it : It) (st : Agg) (e : context.Err),
    ctx (i + m)%nat = Some e ->
    pb.PartialResponse (response st) = false ->
    (m + 2 <= fuel)%nat ->
    exists k r,
      (k <= m)%nat
      /\ loop DiagnosisStatus_name iter ctx included excluded fuel i it st
         = Some (advance iter k it, r).
Proof.
  induction m as [|m IH]; intros i fuel it st e Hc Hp Hfuel.
  - rewrite Nat.add_0_r in Hc.
    destruct fuel as [|[|fuel]]; try lia.
    cbn [loop]. rewrite Hp. unfold body. rewrite Hc.
    destruct (context.unexpected e).
    { exists 0%nat. eexists. split; [lia|reflexivity]. }
    destruct (database.Cursor iter it) as [cursor [err|]].
    { exists 0%nat. eexists. split; [lia|reflexivity]. }
    cbn. exists 0%nat. eexists. split; [lia|reflexivity].
  - destruct fuel as [|fuel]; [lia|].
    destruct (ctx i) as [e0|] eqn:Hc0.
    + destruct fuel as [|fuel]; [lia|].
      cbn [loop]. rewrite Hp. unfold body. rewrite Hc0.
      destruct (context.unexpected e0).
      { exists 0%nat. eexists. split; [lia|reflexivity]. }
      destruct (database.Cursor iter it) as [cursor [err|]].
      { exists 0%nat. eexists. split; [lia|reflexivity]. }
      cbn. exists 0%nat. eexists. split; [lia|reflexivity].
    + cbn [loop]. rewrite Hp. unfold body. rewrite Hc0.
      destruct (database.Next iter it) as [[[inf done] err] it1] eqn:Hn.
      assert (Hadv : forall k, advance iter (S k) it = advance iter k it1).
      { intros k. cbn [advance]. now rewrite Hn. }
      destruct err as [err|].
      { exists 1%nat. eexists. split; [lia|]. now rewrite Hadv. }
      destruct done.
      { exists 1%nat. eexists. split; [lia|]. now rewrite Hadv. }
      replace (i + S m)%nat with (S i + m)%nat in Hc by lia.
      destruct inf as [r|].
      * destruct (IH (S i) fuel it1
                    (absorb DiagnosisStatus_name included excluded st r) e)
          as (k & res & Hk & Hl); auto; [now rewrite absorb_Partial|lia|].
        exists (S k), res. split; [lia|]. now rewrite Hadv.
      * destruct (IH (S i) fuel it1 st e) as (k & res & Hk & Hl); auto; [lia|].
        exists (S k), res. split; [lia|]. now rewrite Hadv.
Qed.

(** Once the context has fired at its [m]-th poll, a call returns, and it
    has called [Next] at most [m] times, whatever the iterator hands out and
    even if it never reports exhaustion. *)
Theorem fetch_returns_by_deadline (req : pb.FederationFetchRequest)
    (itFunc : fetchIterator It) (fetchUntil : time.Time) (m fuel : nat)
    (e : context.Err) :
  ctx m = Some e ->
  (m + 2 <= fuel)%nat ->
  exists out,
    fetch ToUpper DiagnosisStatus_name iter fuel ctx req itFunc fetchUntil
    = Some out
    /\ match out_iterator out with
       | None =>
           exists err,
             snd (itFunc (build_criteria (normalize ToUpper req) fetchUntil))
             = Some err
       | Some it' =>
           exists k,
             (k <= m)%nat
             /\ it' = advance iter k
                        (fst (itFunc (build_criteria (normalize ToUpper req)
                                        fetchUntil)))
       end.
Proof.
  intros Hc Hfuel. unfold fetch.
  destruct (itFunc _) as [it0 [err|]] eqn:Hit.
  { eexists. split; [reflexivity|]. simpl. eauto. }
  destruct (loop_by_deadline (includedRegions (normalize ToUpper req))
              (excludedRegions (normalize ToUpper req)) m 0 fuel it0
              init_Agg e) as (k & r & Hk & Hl); auto.
  rewrite Hl. eexists. split; [reflexivity|]. simpl. eauto.
Qed.

(** What the flags of a returned response say: without [PartialResponse]
    the token is empty and the iterator has reported exhaustion, after
    handing out the records the response is made of; with it the context
    had fired with deadline-exceeded or cancellation and the token is the
    cursor of the iterator where the call left it. *)
Theorem returned_flags (req : pb.FederationFetchRequest)
    (itFunc : fetchIterator It) (fetchUntil : time.Time) (fuel : nat)
    (out : Outcome It) (resp : pb.FederationFetchResponse) :
  fetch ToUpper DiagnosisStatus_name iter fuel ctx req itFunc fetchUntil
  = Some out ->
  out_result out = (Some resp, None) ->
  exists n items it_n,
    handed_out ToUpper iter req itFunc fetchUntil n items it_n
    /\ quiet ctx 0 n
    /\ pb.Response resp
       = pb.Response (response (state_after ToUpper DiagnosisStatus_name req
                                  items))
    /\ if pb.PartialResponse resp
       then (exists e,
               ctx n = Some e
               /\ (e = context.DeadlineExceeded \/ e = context.Canceled))
            /\ database.Cursor iter it_n = (pb.NextFetchToken resp, None)
            /\ out_iterator out = Some it_n
       else pb.NextFetchToken resp = ""
            /\ ctx n = None
            /\ exists inf it',
                 database.Next iter it_n = ((inf, true, None), it')
                 /\ out_iterator out = Some it'.
Proof.
  unfold fetch. intros Hf Hr.
  destruct (itFunc _) as [it0 [err|]] eqn:Hit.
  { simplify_eq; simpl in *; discriminate. }
  destruct (loop _ _ _ _ _ _ _ _ _) as [[it' r]|] eqn:Hl; [|discriminate].
  simplify_eq; simpl in *.
  apply loop_Ending in Hl; [|done].
  inversion Hl as [n items it_n inf it1 Hq Hp Hn
                  |n items it_n e cursor Hq Hp Hc Hu Hcur| | |];
    simplify_eq.
  - exists n, items, it_n.
    split; [exists it0; done|].
    split; [intros k Hk; apply Hq; lia|]. split; [done|].
    fold (state_after ToUpper DiagnosisStatus_name req items).
    rewrite state_after_Partial, state_after_Token.
    split; [done|]. split; [apply (Hq n); lia|]. now exists inf, it'.
  - exists n, items, it'.
    split; [exists it0; done|]. split; [done|]. split; [done|].
    simpl. apply (unexpected_false ToUpper) in Hu. simpl in Hc.
    split; [now exists e|]. split; done.
Qed.

End Deadline.

(** * Where the entries of a response come from *)

Lemma origin_init : origin [] init_Agg.
Proof. split; simpl; intros; cbn in *; discriminate. Qed.

Lemma origin_mono (seen seen' : list model.Infection) (st : Agg) :
  (forall r, r ∈ seen -> r ∈ seen') -> origin seen st -> origin seen' st.
Proof.
  intros Hsub [Hc Hi]. split.
  - intros p regs Hp. destruct (Hc p regs Hp) as (r0 & Hr0 & H). eauto.
  - intros q regs cti Hq. destruct (Hi q regs cti Hq) as (r0 & Hr0 & H). eauto.
Qed.

Lemma find_ctr_origin (seen : list model.Infection) (st : Agg)
    (r : model.Infection) (K : string) :
  r ∈ seen -> origin seen st ->
  origin seen (snd (find_ctr st (sort_Strings (model.Regions r)) K)).
Proof.
  intros Hr [Hc Hi]. unfold find_ctr.
  destruct (ctrMap st !! K) as [p|]; simpl; [by split|].
  split; simpl.
  - intros p regs. rewrite regs_at_push. case_decide; [|apply Hc].
    intros [= <-]. eauto.
  - intros q regs cti. rewrite at_path_push. apply Hi.
Qed.

Lemma find_cti_origin (seen : list model.Infection) (st : Agg)
    (r : model.Infection) (p : nat) :
  wf st -> r ∈ seen -> origin seen st ->
  ctrMap st !! rec_ctrKey r = Some p ->
  origin seen
    (snd (find_cti st p (rec_ctiKey r) (int32 (model.DiagnosisStatus r))
            (model.VerificationAuthorityName r))).
Proof.
  intros Hwf Hr [Hc Hi] HK. unfold find_cti.
  destruct (ctiMap st !! rec_ctiKey r) as [q|]; simpl; [by split|].
  apply (wf_ctr st Hwf) in HK.
  destruct (regs_at (pb.Response (response st)) p) as [regs|] eqn:Hregs;
    [|discriminate].
  simpl in HK. injection HK as HJ.
  split; simpl.
  - intros p' regs'. rewrite regs_at_append_cti. apply Hc.
  - intros q regs' cti. rewrite (at_path_append_cti _ _ regs) by done.
    case_decide; [|apply Hi].
    intros [= <- <-]. exists r. split; [done|].
    unfold path_key, rec_ctiKey. simpl. now rewrite HJ.
Qed.

Lemma add_key_origin (seen : list model.Infection) (st : Agg)
    (q : nat * nat) (dk : pb.DiagnosisKey) (t : Z) :
  origin seen st -> origin seen (add_key st q dk t).
Proof.
  intros [Hc Hi]. split.
  - intros p regs. rewrite add_key_Response, regs_at_append_key. apply Hc.
  - intros q' regs cti. rewrite add_key_Response, at_path_append_key.
    case_decide; [|apply Hi].
    destruct (at_path (pb.Response (response st)) q) as [[regs0 cti0]|] eqn:Hq;
      [|discriminate].
    simpl. intros [= <- <-].
    destruct (Hi q regs0 cti0 Hq) as (r0 & Hr0 & Hk & Hp).
    exists r0. repeat split; done.
Qed.

Lemma aggregate_origin (seen : list model.Infection) (st : Agg)
    (r : model.Infection) :
  wf st -> origin seen st -> origin (seen ++ [r]) (aggregate st r).
Proof.
  intros Hwf Hor. rewrite aggregate_eq. cbv zeta.
  assert (Hr : r ∈ seen ++ [r]) by (apply elem_of_app; right; now left).
  apply (origin_mono seen (seen ++ [r])) in Hor;
    [|intros x Hx; apply elem_of_app; now left].
  pose proof (find_ctr_wf st (sort_Strings (model.Regions r)) Hwf
                (sort_Strings_idem _)) as [Hwf1 HK].
  apply add_key_origin, find_cti_origin; try done.
  now apply find_ctr_origin.
Qed.

Lemma aggregate_all_origin (items seen : list model.Infection) (st : Agg) :
  wf st -> origin seen st -> origin (seen ++ items) (foldl aggregate st items).
Proof.
  revert seen st. induction items as [|r l IH]; intros seen st Hwf Hor; simpl.
  - now rewrite app_nil_r.
  - replace (seen ++ r :: l) with ((seen ++ [r]) ++ l)
      by now rewrite <- app_assoc.
    apply IH; [now apply aggregate_wf|now apply aggregate_origin].
Qed.

Lemma elem_of_eligible_records (DiagnosisStatus_name : gmap Z string)
    (included excluded : gset string) (items : list model.Infection)
    (r : model.Infection) :
  r ∈ eligible_records DiagnosisStatus_name included excluded items
  <-> Rules.eligible DiagnosisStatus_name included excluded r /\ r ∈ items.
Proof.
  unfold eligible_records. rewrite list_elem_of_filter, check_None_iff. done.
Qed.

Section WellFormed.
Variable ToUpper : string -> string.
Variable DiagnosisStatus_name : gmap Z string.
Context {It : Type}.
Variable iter : database.InfectionIterator It.
Variable ctx : context.Context.
Variable req : pb.FederationFetchRequest.
Variable itFunc : fetchIterator It.
Variable fetchUntil : time.Time.

#[local] Abbreviation included_records' :=
  (included_records ToUpper DiagnosisStatus_name req).

Lemma state_after_origin (items : list model.Infection) :
  origin (included_records' items)
    (state_after ToUpper DiagnosisStatus_name req items).
Proof.
  unfold state_after. rewrite absorb_all_eq.
  apply (aggregate_all_origin _ [] init_Agg wf_init origin_init).
Qed.

(** Every entry of a returned response stems from eligible records of the
    run: the region list of a [ContactTracingResponse] is the sorted,
    non-empty region list of one, with a region that is not excluded and,
    when inclusion regions were given, a region that is included; every
    [ContactTracingInfo] has a recognised status and at least one key; and
    every key has non-empty key bytes and is the key of an eligible record
    of local provenance.  A [ContactTracingResponse] has at least one
    [ContactTracingInfo] when no two eligible records render the same
    [ctiMap] key string for different triples. *)
Theorem response_well_formed (fuel : nat) (out : Outcome It)
    (resp : pb.FederationFetchResponse) :
  fetch ToUpper DiagnosisStatus_name iter fuel ctx req itFunc fetchUntil
  = Some out ->
  out_result out = (Some resp, None) ->
  exists n items it_n,
    run_records ToUpper iter ctx req itFunc fetchUntil n items it_n
    /\ all_keys (pb.Response resp) ≡ₚ key_of <$> included_records' items
    /\ forall ctr,
         ctr ∈ pb.Response resp ->
         (exists r, r ∈ included_records' items
                    /\ pb.ctr_RegionIdentifiers ctr
                       = sort_Strings (model.Regions r))
         /\ Sorted string_le (pb.ctr_RegionIdentifiers ctr)
         /\ pb.ctr_RegionIdentifiers ctr <> []
         /\ (exists region,
               region ∈ pb.ctr_RegionIdentifiers ctr
               /\ region ∉ excludedRegions (normalize ToUpper req))
         /\ (includedRegions (normalize ToUpper req) = ∅
             \/ exists region,
                  region ∈ pb.ctr_RegionIdentifiers ctr
                  /\ region ∈ includedRegions (normalize ToUpper req))
         /\ (no_collision (included_records' items) ->
             pb.ctr_ContactTracingInfo ctr <> [])
         /\ forall cti,
              cti ∈ pb.ctr_ContactTracingInfo ctr ->
              is_Some (DiagnosisStatus_name !! pb.cti_DiagnosisStatus cti)
              /\ pb.cti_DiagnosisKeys cti <> []
              /\ forall dk,
                   dk ∈ pb.cti_DiagnosisKeys cti ->
                   pb.dk_DiagnosisKey dk <> []
                   /\ exists r, r ∈ included_records' items
                                /\ key_of r = dk
                                /\ model.LocalProvenance r = true.
Proof.
  intros Hf Hr.
  destruct (fetch_run _ _ _ _ _ _ _ _ _ _ Hf Hr)
    as (n & items & it_n & Hh & HR & _).
  exists n, items, it_n. rewrite HR. split; [done|].
  destruct (state_after_Inv ToUpper DiagnosisStatus_name req items)
    as [Hwf Hct].
  destruct (state_after_origin items) as [Hoc Hoi].
  pose proof (state_after_grouped ToUpper DiagnosisStatus_name req items)
    as Hgr.
  set (st := state_after ToUpper DiagnosisStatus_name req items) in *.
  split; [apply (ct_all _ _ Hct)|].
  intros ctr Hin. apply list_elem_of_lookup in Hin as [p Hp].
  destruct (Hoc p (pb.ctr_RegionIdentifiers ctr)) as (r & Hr0 & Hregs).
  { unfold regs_at. now rewrite Hp. }
  pose proof Hr0 as Hel. apply elem_of_eligible_records in Hel
    as [(H1 & H2 & H3 & H4 & (x & Hx & Hxe) & H6) _].
  assert (Hmem : forall y, y ∈ pb.ctr_RegionIdentifiers ctr
                           <-> y ∈ model.Regions r).
  { intros y. rewrite Hregs. now rewrite sort_Strings_Permutation. }
  split; [eauto|]. split; [rewrite Hregs; apply sort_Strings_Sorted|].
  split.
  { intros Hnil. apply H2. apply Permutation_nil_r.
    rewrite <- (sort_Strings_Permutation (model.Regions r)), <- Hregs, Hnil.
    done. }
  split; [exists x; split; [now apply Hmem|done]|].
  split.
  { destruct H6 as [H6|(y & Hy & Hyi)]; [now left|].
    right. exists y. split; [now apply Hmem|done]. }
  split.
  { intros Hnc Hnil. destruct (Hgr Hnc) as [_ Hinfos].
    specialize (Hinfos p (rec_ctrKey r)).
    unfold regs_at, pairs_at in Hinfos. rewrite Hp in Hinfos.
    simpl in Hinfos. rewrite Hregs, Hnil in Hinfos.
    specialize (Hinfos eq_refl). simpl in Hinfos.
    injection Hinfos as Hinfos.
    assert (Hpair : pair_of r
                    ∈ first_seen
                        (pair_of <$> filter (fun x => rec_ctrKey x
                                                      = rec_ctrKey r)
                                       (included_records' items))).
    { apply elem_of_first_seen, list_elem_of_fmap_2, list_elem_of_filter.
      done. }
    rewrite <- Hinfos in Hpair. inversion Hpair. }
  intros cti Hcti. apply list_elem_of_lookup in Hcti as [j Hj].
  assert (Hat : at_path (pb.Response (response st)) (p, j)
                = Some (pb.ctr_RegionIdentifiers ctr, cti)).
  { unfold at_path. simpl. now rewrite Hp, Hj. }
  destruct (Hoi _ _ _ Hat) as (r0 & Hr1 & Hk0 & Hp0).
  assert (Hq : ctiMap st !! path_key (pb.ctr_RegionIdentifiers ctr, cti)
               = Some (p, j)).
  { apply (wf_cti st Hwf). now rewrite Hat. }
  pose proof (ct_keys _ _ Hct _ _ Hq) as Hk. unfold keys_at in Hk.
  rewrite Hat in Hk. simpl in Hk. injection Hk as Hk.
  split.
  { pose proof Hr1 as Hel1. apply elem_of_eligible_records in Hel1
      as [(_ & _ & _ & H4' & _) _].
    unfold Rules.status_recognized in H4'.
    unfold cti_pair, pair_of in Hp0. injection Hp0 as -> _. done. }
  split.
  { rewrite Hk. unfold keyseq. intros Hnil.
    apply fmap_nil_inv in Hnil.
    assert (Hin0 : r0 ∈ filter (fun x => rec_ctiKey x
                      = path_key (pb.ctr_RegionIdentifiers ctr, cti))
                     (included_records' items)).
    { apply list_elem_of_filter. done. }
    rewrite Hnil in Hin0. inversion Hin0. }
  intros dk Hdk. rewrite Hk in Hdk. unfold keyseq in Hdk.
  apply list_elem_of_fmap in Hdk as (r2 & -> & Hr2).
  apply list_elem_of_filter in Hr2 as [_ Hr2].
  pose proof Hr2 as Hel2. apply elem_of_eligible_records in Hel2
    as [(H1' & _ & H3' & _) _].
  split; [exact H1'|]. exists r2. repeat split; done.
Qed.
End WellFormed.

(** * Responses only grow *)

Lemma cti_extends_refl (c : pb.ContactTracingInfo) : cti_extends c c.
Proof. split; done. Qed.

Lemma ctr_extends_refl (c : pb.ContactTracingResponse) : ctr_extends c c.
Proof. split; [done|]. intros j cti Hj. eauto using cti_extends_refl. Qed.

Lemma extends_refl (L : list pb.ContactTracingResponse) : extends L L.
Proof. intros p ctr Hp. eauto using ctr_extends_refl. Qed.

Lemma cti_extends_trans (c1 c2 c3 : pb.ContactTracingInfo) :
  cti_extends c1 c2 -> cti_extends c2 c3 -> cti_extends c1 c3.
Proof. intros [H1 H2] [H3 H4]. split; [congruence|]. by etrans. Qed.

Lemma ctr_extends_trans (c1 c2 c3 : pb.ContactTracingResponse) :
  ctr_extends c1 c2 -> ctr_extends c2 c3 -> ctr_extends c1 c3.
Proof.
  intros [H1 H2] [H3 H4]. split; [congruence|].
  intros j cti Hj. destruct (H2 j cti Hj) as (cti2 & Hj2 & He2).
  destruct (H4 j cti2 Hj2) as (cti3 & Hj3 & He3).
  eauto using cti_extends_trans.
Qed.

Lemma extends_trans (L1 L2 L3 : list pb.ContactTracingResponse) :
  extends L1 L2 -> extends L2 L3 -> extends L1 L3.
Proof.
  intros H12 H23 p ctr Hp. destruct (H12 p ctr Hp) as (c2 & Hp2 & He2).
  destruct (H23 p c2 Hp2) as (c3 & Hp3 & He3).
  eauto using ctr_extends_trans.
Qed.

Lemma extends_snoc (L : list pb.ContactTracingResponse)
    (c : pb.ContactTracingResponse) :
  extends L (L ++ [c]).
Proof.
  intros p ctr Hp. exists ctr. split; [|apply ctr_extends_refl].
  rewrite lookup_app_l; [done|]. eapply lookup_lt_Some; eauto.
Qed.

Lemma extends_alter (L : list pb.ContactTracingResponse) (p : nat)
    (f : pb.ContactTracingResponse -> pb.ContactTracingResponse) :
  (forall ctr, ctr_extends ctr (f ctr)) -> extends L (alter f p L).
Proof.
  intros Hf p' ctr Hp. destruct (decide (p = p')) as [->|Hne].
  - exists (f ctr). rewrite list_lookup_alter_eq, Hp. split; [done|apply Hf].
  - exists ctr. rewrite list_lookup_alter_ne by done.
    split; [done|apply ctr_extends_refl].
Qed.

Lemma aggregate_extends (st : Agg) (r : model.Infection) :
  extends (pb.Response (response st)) (pb.Response (response (aggregate st r)))
  /\ (pb.FetchResponseKeyTimestamp (response st)
      <= pb.FetchResponseKeyTimestamp (response (aggregate st r)))%Z.
Proof.
  split.
  - rewrite aggregate_eq. cbv zeta. rewrite add_key_Response.
    eapply extends_trans; [|eapply extends_trans].
    + instantiate (1 := pb.Response (response (snd (find_ctr st _ _)))).
      unfold find_ctr. case_match; simpl;
        [apply extends_refl|apply extends_snoc].
    + instantiate (1 := pb.Response (response (snd (find_cti _ _ _ _ _)))).
      unfold find_cti. case_match; simpl; [apply extends_refl|].
      apply extends_alter. intros ctr. split; [done|].
      intros j cti Hj. exists cti. split; [|apply cti_extends_refl].
      simpl. rewrite lookup_app_l; [done|]. eapply lookup_lt_Some; eauto.
    + unfold append_key_at. apply extends_alter. intros ctr.
      split; [done|]. intros j cti Hj. simpl.
      destruct (decide (snd (fst (find_cti
                  (snd (find_ctr st (sort_Strings (model.Regions r))
                          (rec_ctrKey r)))
                  (fst (find_ctr st (sort_Strings (model.Regions r))
                          (rec_ctrKey r)))
                  (rec_ctiKey r) (int32 (model.DiagnosisStatus r))
                  (model.VerificationAuthorityName r))) = j)) as [Hq|Hq].
      * exists (append_key (key_of r) cti).
        rewrite Hq, list_lookup_alter_eq, Hj. split; [done|].
        split; [done|]. simpl. now apply prefix_app_r.
      * exists cti. rewrite list_lookup_alter_ne by done.
        split; [done|apply cti_extends_refl].
  - rewrite aggregate_Timestamp. case_match; lia.
Qed.

Lemma absorb_all_extends (DiagnosisStatus_name : gmap Z string)
    (included excluded : gset string) (items : list model.Infection)
    (st : Agg) :
  extends (pb.Response (response st))
    (pb.Response
       (response (foldl (absorb DiagnosisStatus_name included excluded)
                    st items)))
  /\ (pb.FetchResponseKeyTimestamp (response st)
      <= pb.FetchResponseKeyTimestamp
           (response (foldl (absorb DiagnosisStatus_name included excluded)
                        st items)))%Z.
Proof.
  revert st. induction items as [|r l IH]; intros st; simpl.
  - split; [apply extends_refl|lia].
  - destruct (IH (absorb DiagnosisStatus_name included excluded st r))
      as [He Ht].
    assert (Hstep : extends (pb.Response (response st))
                      (pb.Response
                         (response (absorb DiagnosisStatus_name included
                                      excluded st r)))
                    /\ (pb.FetchResponseKeyTimestamp (response st)
                        <= pb.FetchResponseKeyTimestamp
                             (response (absorb DiagnosisStatus_name included
                                          excluded st r)))%Z).
    { unfold absorb. case_match; [split; [apply extends_refl|lia]|].
      apply aggregate_extends. }
    destruct Hstep as [He0 Ht0].
    split; [eapply extends_trans; eauto|lia].
Qed.

(** ** Records handed out by longer and shorter runs *)

Lemma pull_app {It : Type} (iter : database.InfectionIterator It)
    (n k : nat) (it : It) :
  pull iter (n + k) it
  = match pull iter n it with
    | Some (l1, it1) =>
        match pull iter k it1 with
        | Some (l2, it2) => Some (l1 ++ l2, it2)
        | None => None
        end
    | None => None
    end.
Proof.
  revert it. induction n as [|n IH]; intros it; simpl.
  - destruct (pull iter k it) as [[l2 it2]|]; reflexivity.
  - destruct (database.Next iter it) as [[[inf done] err] it1].
    destruct done; [done|]. destruct err; [done|].
    rewrite IH. destruct (pull iter n it1) as [[l1 it1']|]; [|done].
    destruct (pull iter k it1') as [[l2 it2]|]; [|done].
    now destruct inf.
Qed.

Lemma pull_S_inv {It : Type} (iter : database.InfectionIterator It)
    (k : nat) (it it' : It) (l : list model.Infection) :
  pull iter (S k) it = Some (l, it') ->
  exists inf it1, database.Next iter it = ((inf, false, None), it1).
Proof.
  simpl. destruct (database.Next iter it) as [[[inf done] err] it1].
  destruct done; [discriminate|]. destruct err; [discriminate|]. eauto.
Qed.

Lemma state_after_app (ToUpper : string -> string)
    (DiagnosisStatus_name : gmap Z string) (req : pb.FederationFetchRequest)
    (l1 l2 : list model.Infection) :
  state_after ToUpper DiagnosisStatus_name req (l1 ++ l2)
  = foldl (absorb DiagnosisStatus_name
             (includedRegions (normalize ToUpper req))
             (excludedRegions (normalize ToUpper req)))
      (state_after ToUpper DiagnosisStatus_name req l1) l2.
Proof. unfold state_after. apply foldl_app. Qed.

(** How a call that returns a response has ended, with the iterator the
    call opened. *)
Lemma fetch_ending (ToUpper : string -> string)
    (DiagnosisStatus_name : gmap Z string) {It : Type}
    (iter : database.InfectionIterator It) (ctx : context.Context)
    (req : pb.FederationFetchRequest) (itFunc : fetchIterator It)
    (fetchUntil : time.Time) (fuel : nat) (out : Outcome It)
    (resp : pb.FederationFetchResponse) :
  fetch ToUpper DiagnosisStatus_name iter fuel ctx req itFunc fetchUntil
  = Some out ->
  out_result out = (Some resp, None) ->
  exists it0 n items it_n,
    itFunc (build_criteria (normalize ToUpper req) fetchUntil) = (it0, None)
    /\ pull iter n it0 = Some (items, it_n)
    /\ quiet ctx 0 n
    /\ pb.Response resp
       = pb.Response (response (state_after ToUpper DiagnosisStatus_name req
                                  items))
    /\ pb.FetchResponseKeyTimestamp resp
       = pb.FetchResponseKeyTimestamp
           (response (state_after ToUpper DiagnosisStatus_name req items))
    /\ ((exists e cursor,
           ctx n = Some e /\ pb.PartialResponse resp = true
           /\ database.Cursor iter it_n = (cursor, None)
           /\ pb.NextFetchToken resp = cursor
           /\ out_iterator out = Some it_n)
        \/ (ctx n = None /\ pb.PartialResponse resp = false
            /\ exists inf it',
                 database.Next iter it_n = ((inf, true, None), it'))).
Proof.
  unfold fetch. intros Hf Hr.
  destruct (itFunc _) as [it0 [err|]] eqn:Hit.
  { simplify_eq; simpl in *; discriminate. }
  destruct (loop _ _ _ _ _ _ _ _ _) as [[it' r]|] eqn:Hl; [|discriminate].
  simplify_eq; simpl in *.
  apply loop_Ending in Hl; [|done].
  inversion Hl as [n items it_n inf it1 Hq Hp Hn
                  |n items it_n e cursor Hq Hp Hc Hu Hcur| | |];
    simplify_eq.
  - exists it0, n, items, it_n.
    split; [done|]. split; [done|].
    split; [intros k Hk; apply Hq; lia|]. split; [done|]. split; [done|].
    right. split; [apply (Hq n); lia|].
    fold (state_after ToUpper DiagnosisStatus_name req items).
    split; [apply state_after_Partial; exact ctx|]. eauto.
  - exists it0, n, items, it'.
    split; [done|]. split; [done|]. split; [done|]. split; [done|].
    split; [done|]. left. exists e, cursor. simpl in Hc. done.
Qed.

Section Budgets.
Variable ToUpper : string -> string.
Variable DiagnosisStatus_name : gmap Z string.
Context {It : Type}.
Variable iter : database.InfectionIterator It.
Variable req : pb.FederationFetchRequest.
Variable itFunc : fetchIterator It.
Variable fetchUntil : time.Time.

(** Two calls on the same request and iterator: if the context of the
    second fires no earlier than that of the first, the response of the
    second extends that of the first, entry by entry and key by key (same
    positions, same regions, same status and authority, the keys of the
    first a prefix of the keys of the second), and its high-watermark is
    no smaller. *)
Theorem later_deadline_extends (ctx1 ctx2 : context.Context)
    (fuel1 fuel2 : nat) (out1 out2 : Outcome It)
    (resp1 resp2 : pb.FederationFetchResponse) :
  fetch ToUpper DiagnosisStatus_name iter fuel1 ctx1 req itFunc fetchUntil
  = Some out1 ->
  out_result out1 = (Some resp1, None) ->
  fetch ToUpper DiagnosisStatus_name iter fuel2 ctx2 req itFunc fetchUntil
  = Some out2 ->
  out_result out2 = (Some resp2, None) ->
  (forall i e, ctx2 i = Some e -> exists j, (j <= i)%nat /\ ctx1 j <> None) ->
  extends (pb.Response resp1) (pb.Response resp2)
  /\ (pb.FetchResponseKeyTimestamp resp1
      <= pb.FetchResponseKeyTimestamp resp2)%Z.
Proof.
  intros Hf1 Hr1 Hf2 Hr2 Hlater.
  destruct (fetch_ending _ _ _ _ _ _ _ _ _ _ Hf1 Hr1)
    as (it0 & n1 & items1 & it1 & Hit & Hp1 & Hq1 & HR1 & HT1 & _).
  destruct (fetch_ending _ _ _ _ _ _ _ _ _ _ Hf2 Hr2)
    as (it0' & n2 & items2 & it2 & Hit' & Hp2 & Hq2 & HR2 & HT2 & Hend).
  rewrite Hit in Hit'. injection Hit' as <-.
  assert (Hle : (n1 <= n2)%nat).
  { destruct (Nat.le_gt_cases n1 n2) as [|Hlt]; [done|]. exfalso.
    destruct Hend as [(e & cursor & Hc & _)|(_ & _ & inf & it' & Hn)].
    - destruct (Hlater n2 e Hc) as (j & Hj & Hfired).
      apply Hfired. apply (Hq1 j). lia.
    - replace n1 with (n2 + S (n1 - n2 - 1))%nat in Hp1 by lia.
      rewrite pull_app, Hp2 in Hp1.
      destruct (pull iter (S (n1 - n2 - 1)) it2) as [[l it3]|] eqn:Hp3;
        [|discriminate].
      apply pull_S_inv in Hp3 as (inf' & it3' & Hn'). congruence. }
  replace n2 with (n1 + (n2 - n1))%nat in Hp2 by lia.
  rewrite pull_app, Hp1 in Hp2.
  destruct (pull iter (n2 - n1) it1) as [[more it3]|]; [|discriminate].
  injection Hp2 as <- <-.
  rewrite HR1, HR2, HT1, HT2, state_after_app.
  apply absorb_all_extends.
Qed.
End Budgets.

(** * Resuming after a partial response *)

Lemma watermark_app (l1 l2 : list model.Infection) :
  watermark (l1 ++ l2) = Z.max (watermark l1) (watermark l2).
Proof.
  induction l2 as [|r l IH] using rev_ind.
  - rewrite app_nil_r. pose proof (watermark_nonneg l1). cbn. lia.
  - rewrite app_assoc, !watermark_snoc, IH. lia.
Qed.

Lemma pull_past_exhaustion {It : Type} (iter : database.InfectionIterator It)
    (a k : nat) (it0 ita it' : It) (la : list model.Infection)
    (inf : option model.Infection) :
  pull iter a it0 = Some (la, ita) ->
  database.Next iter ita = ((inf, true, None), it') ->
  pull iter (a + S k) it0 = None.
Proof.
  intros Ha Hn. rewrite pull_app, Ha.
  destruct (pull iter (S k) ita) as [[l it1]|] eqn:Hp; [|done].
  apply pull_S_inv in Hp as (inf' & it1' & Hn'). congruence.
Qed.

Lemma pull_exhausted_unique {It : Type} (iter : database.InfectionIterator It)
    (a b : nat) (it0 ita itb it' it'' : It) (la lb : list model.Infection)
    (inf inf' : option model.Infection) :
  pull iter a it0 = Some (la, ita) ->
  database.Next iter ita = ((inf, true, None), it') ->
  pull iter b it0 = Some (lb, itb) ->
  database.Next iter itb = ((inf', true, None), it'') ->
  a = b.
Proof.
  intros Ha Hna Hb Hnb.
  destruct (Nat.lt_trichotomy a b) as [Hlt|[Heq|Hgt]]; [exfalso|done|exfalso].
  - replace b with (a + S (b - a - 1))%nat in Hb by lia.
    rewrite (pull_past_exhaustion iter _ _ _ _ _ _ _ Ha Hna) in Hb.
    discriminate.
  - replace a with (b + S (a - b - 1))%nat in Ha by lia.
    rewrite (pull_past_exhaustion iter _ _ _ _ _ _ _ Hb Hnb) in Ha.
    discriminate.
Qed.

Lemma state_after_same_filters (ToUpper : string -> string)
    (DiagnosisStatus_name : gmap Z string)
    (req req' : pb.FederationFetchRequest) (items : list model.Infection) :
  same_filters ToUpper req req' ->
  state_after ToUpper DiagnosisStatus_name req' items
  = state_after ToUpper DiagnosisStatus_name req items
  /\ included_records ToUpper DiagnosisStatus_name req' items
     = included_records ToUpper DiagnosisStatus_name req items.
Proof.
  intros [Hi He]. unfold state_after, included_records. now rewrite Hi, He.
Qed.

Lemma included_records_app (ToUpper : string -> string)
    (DiagnosisStatus_name : gmap Z string) (req : pb.FederationFetchRequest)
    (l1 l2 : list model.Infection) :
  included_records ToUpper DiagnosisStatus_name req (l1 ++ l2)
  = included_records ToUpper DiagnosisStatus_name req l1
    ++ included_records ToUpper DiagnosisStatus_name req l2.
Proof. unfold included_records, eligible_records. apply filter_app. Qed.

Section Resumption.
Variable ToUpper : string -> string.
Variable DiagnosisStatus_name : gmap Z string.
Context {It : Type}.
Variable iter : database.InfectionIterator It.

(** A caller that gets a partial response and calls again, with the same
    region lists and an iterator that resumes where the first call left
    it, loses and gains nothing against a single call that runs to
    exhaustion: the keys of the two responses together are the keys of
    the single response (as multisets), and the larger of the two
    high-watermarks is the high-watermark of the single response. *)
Theorem resumption_loses_nothing
    (req req' : pb.FederationFetchRequest)
    (itFunc itFunc' : fetchIterator It) (fetchUntil fetchUntil' : time.Time)
    (ctx0 ctx1 ctx2 : context.Context) (fuel0 fuel1 fuel2 : nat)
    (out0 out1 out2 : Outcome It)
    (resp0 resp1 resp2 : pb.FederationFetchResponse) (it_r : It) :
  fetch ToUpper DiagnosisStatus_name iter fuel1 ctx1 req itFunc fetchUntil
  = Some out1 ->
  out_result out1 = (Some resp1, None) ->
  pb.PartialResponse resp1 = true ->
  out_iterator out1 = Some it_r ->
  same_filters ToUpper req req' ->
  itFunc' (build_criteria (normalize ToUpper req') fetchUntil')
  = (it_r, None) ->
  fetch ToUpper DiagnosisStatus_name iter fuel2 ctx2 req' itFunc' fetchUntil'
  = Some out2 ->
  out_result out2 = (Some resp2, None) ->
  pb.PartialResponse resp2 = false ->
  fetch ToUpper DiagnosisStatus_name iter fuel0 ctx0 req itFunc fetchUntil
  = Some out0 ->
  out_result out0 = (Some resp0, None) ->
  pb.PartialResponse resp0 = false ->
  all_keys (pb.Response resp0)
  ≡ₚ all_keys (pb.Response resp1) ++ all_keys (pb.Response resp2)
  /\ pb.FetchResponseKeyTimestamp resp0
     = Z.max (pb.FetchResponseKeyTimestamp resp1)
         (pb.FetchResponseKeyTimestamp resp2).
Proof.
  intros Hf1 Hr1 Hpart1 Hleft Hsame Hopen Hf2 Hr2 Hpart2 Hf0 Hr0 Hpart0.
  destruct (fetch_ending _ _ _ _ _ _ _ _ _ _ Hf1 Hr1)
    as (it0 & n1 & items1 & it1 & Hit & Hp1 & _ & HR1 & HT1 & Hend1).
  destruct (fetch_ending _ _ _ _ _ _ _ _ _ _ Hf2 Hr2)
    as (it0' & n2 & items2 & it2 & Hit' & Hp2 & _ & HR2 & HT2 & Hend2).
  destruct (fetch_ending _ _ _ _ _ _ _ _ _ _ Hf0 Hr0)
    as (it0'' & n0 & items0 & it3 & Hit'' & Hp0 & _ & HR0 & HT0 & Hend0).
  destruct Hend1 as [(e & cursor & _ & _ & _ & _ & Hleft')|(_ & Hno & _)];
    [|congruence].
  destruct Hend2 as [(e2 & c2 & _ & Hyes & _)|(_ & _ & inf2 & it2' & Hn2)];
    [congruence|].
  destruct Hend0 as [(e0 & c0 & _ & Hyes & _)|(_ & _ & inf0 & it3' & Hn0)];
    [congruence|].
  assert (it1 = it_r) as -> by congruence.
  assert (it0' = it_r) as -> by congruence.
  assert (it0'' = it0) as -> by congruence.
  assert (Hp12 : pull iter (n1 + n2) it0 = Some (items1 ++ items2, it2)).
  { now rewrite pull_app, Hp1, Hp2. }
  assert (n0 = (n1 + n2)%nat) as ->.
  { eapply pull_exhausted_unique; eauto. }
  assert (items0 = items1 ++ items2) as -> by congruence.
  destruct (state_after_same_filters ToUpper DiagnosisStatus_name req req'
              items2 Hsame) as [Hst Hinc].
  rewrite Hst in HR2, HT2.
  pose proof (proj2 (state_after_Inv ToUpper DiagnosisStatus_name req
                       (items1 ++ items2))) as C0.
  pose proof (proj2 (state_after_Inv ToUpper DiagnosisStatus_name req
                       items1)) as C1.
  pose proof (proj2 (state_after_Inv ToUpper DiagnosisStatus_name req
                       items2)) as C2.
  split.
  - rewrite HR0, HR1, HR2, (ct_all _ _ C0), (ct_all _ _ C1), (ct_all _ _ C2).
    now rewrite included_records_app, fmap_app.
  - rewrite HT0, HT1, HT2, (ct_time _ _ C0), (ct_time _ _ C1),
      (ct_time _ _ C2).
    rewrite included_records_app. apply watermark_app.
Qed.
End Resumption.

(** * When the key strings are exact *)

Lemma append_nil_l (b : string) : "" +:+ b = b.
Proof. reflexivity. Qed.

Lemma append_cons_l (c : ascii) (a b : string) :
  String c a +:+ b = String c (a +:+ b).
Proof. reflexivity. Qed.

Lemma sep_cons (b : string) : sep +:+ b = String ":" (String ":" b).
Proof. reflexivity. Qed.

Lemma colon_free_app (a b : string) :
  colon_free (a +:+ b) = colon_free a && colon_free b.
Proof.
  induction a as [|c a IH]; [done|].
  rewrite append_cons_l. cbn [colon_free]. rewrite IH. now rewrite andb_assoc.
Qed.

Lemma colon_free_sep (a b : string) : colon_free (a +:+ sep +:+ b) = false.
Proof.
  rewrite colon_free_app, sep_cons. cbn. now rewrite andb_false_r.
Qed.

(** Cutting at the last separator. *)
Lemma split_last_sep (a a' b b' : string) :
  colon_free b = true -> colon_free b' = true ->
  a +:+ sep +:+ b = a' +:+ sep +:+ b' -> a = a' /\ b = b'.
Proof.
  intros Hb Hb'. revert a'.
  induction a as [|c a IH]; intros [|c' a'];
    rewrite ?append_nil_l, ?append_cons_l; intros Heq.
  - rewrite !sep_cons in Heq. injection Heq as ->. done.
  - exfalso. rewrite sep_cons in Heq at 1. injection Heq as <- Heq.
    destruct a' as [|c2 a3]; rewrite ?append_nil_l, ?append_cons_l in Heq.
    + rewrite sep_cons in Heq. injection Heq as ->. cbn in Hb. discriminate.
    + injection Heq as _ ->. rewrite colon_free_sep in Hb. discriminate.
  - exfalso. rewrite (sep_cons b') in Heq. injection Heq as -> Heq.
    destruct a as [|c2 a3]; rewrite ?append_nil_l, ?append_cons_l in Heq.
    + rewrite sep_cons in Heq. injection Heq as <-. cbn in Hb'. discriminate.
    + injection Heq as _ <-. rewrite colon_free_sep in Hb'. discriminate.
  - injection Heq as -> Heq. destruct (IH a' Heq) as [-> ->]. done.
Qed.

(** Cutting at the first separator. *)
Lemma split_first_sep (a a' b b' : string) :
  colon_free a = true -> colon_free a' = true ->
  a +:+ sep +:+ b = a' +:+ sep +:+ b' -> a = a' /\ b = b'.
Proof.
  revert a'.
  induction a as [|c a IH]; intros [|c' a'];
    rewrite ?append_nil_l, ?append_cons_l; intros Ha Ha' Heq.
  - rewrite !sep_cons in Heq. injection Heq as ->. done.
  - rewrite sep_cons in Heq. injection Heq as <- _. cbn in Ha'. discriminate.
  - rewrite sep_cons in Heq. injection Heq as -> _. cbn in Ha. discriminate.
  - injection Heq as -> Heq. cbn [colon_free] in Ha, Ha'.
    apply andb_true_iff in Ha as [_ Ha]. apply andb_true_iff in Ha' as [_ Ha'].
    destruct (IH a' Ha Ha' Heq) as [-> ->]. done.
Qed.

Lemma colon_free_pretty_N_go (x : N) (s : string) :
  colon_free s = true -> colon_free (pretty_N_go x s) = true.
Proof.
  revert s. induction (N.lt_wf_0 x) as [x _ IH]; intros s Hs.
  assert (x = 0 \/ 0 < x)%N as [->|Hpos] by lia.
  - now rewrite pretty_N_go_0.
  - rewrite pretty_N_go_step by done. apply IH.
    + now apply N.div_lt.
    + simpl. rewrite Hs. unfold pretty_N_char. now repeat case_match.
Qed.

Lemma colon_free_Sprintf_d (z : Z) : colon_free (Sprintf_d z) = true.
Proof.
  unfold Sprintf_d, pretty, pretty_Z.
  assert (Hp : forall p : positive, colon_free (pretty p) = true).
  { intros p. unfold pretty, pretty_positive, pretty, pretty_N.
    case_decide; [done|]. now apply colon_free_pretty_N_go. }
  destruct z as [|p|p]; [done|apply Hp|].
  rewrite colon_free_app, Hp. done.
Qed.

Lemma ctiKey_of_inj (K K' : string) (s s' : Z) (name name' : string) :
  colon_free name = true -> colon_free name' = true ->
  ctiKey_of K s name = ctiKey_of K' s' name' ->
  K = K' /\ s = s' /\ name = name'.
Proof.
  intros Hn Hn'. unfold ctiKey_of. intros Heq.
  assert (Hassoc : forall a b c : string,
            a +:+ sep +:+ b +:+ sep +:+ c = (a +:+ sep +:+ b) +:+ sep +:+ c).
  { intros a b c. induction a as [|x a IH]; [done|].
    rewrite !append_cons_l. now rewrite IH. }
  rewrite !Hassoc in Heq.
  apply split_last_sep in Heq as [Heq ->]; [|done..].
  apply split_last_sep in Heq as [-> Hs];
    [|apply colon_free_Sprintf_d..].
  apply (inj pretty) in Hs. done.
Qed.

Lemma forallb_colon_free_perm (l l' : list string) :
  l ≡ₚ l' -> forallb colon_free l = true -> forallb colon_free l' = true.
Proof.
  intros Hp. rewrite !forallb_forall. intros H x Hx. apply H.
  eapply Permutation_in; [symmetry; exact Hp|done].
Qed.

Lemma Join_inj (l l' : list string) :
  l <> [] -> l' <> [] ->
  forallb colon_free l = true -> forallb colon_free l' = true ->
  Join l = Join l' -> l = l'.
Proof.
  revert l'. induction l as [|x l IH]; intros l' Hne Hne' Hc Hc' Heq; [done|].
  destruct l' as [|x' l']; [done|].
  simpl in Hc, Hc'.
  apply andb_true_iff in Hc as [Hx Hl]. apply andb_true_iff in Hc' as [Hx' Hl'].
  destruct l as [|y l], l' as [|y' l'].
  - change (x = x') in Heq. now subst.
  - change (x = x' +:+ sep +:+ Join (y' :: l')) in Heq. subst x.
    rewrite colon_free_sep in Hx. discriminate.
  - change (x +:+ sep +:+ Join (y :: l) = x') in Heq. subst x'.
    rewrite colon_free_sep in Hx'. discriminate.
  - change (x +:+ sep +:+ Join (y :: l) = x' +:+ sep +:+ Join (y' :: l'))
      in Heq.
    apply split_first_sep in Heq as [-> Heq]; [|done..].
    f_equal. apply IH; done.
Qed.

(** The [ctiMap] key strings of two records can only collide through a
    colon in a verification authority name: among records whose authority
    names hold no colon, equal key strings mean equal canonical region-set
    keys, equal (32-bit) status codes and equal authority names. *)
Theorem collisions_need_colon (seen : list model.Infection) :
  forallb (fun r => colon_free (model.VerificationAuthorityName r)) seen
  = true ->
  no_collision seen.
Proof.
  rewrite forallb_forall. intros Hc ra rb Ha Hb Heq.
  apply list_elem_of_In in Ha, Hb.
  unfold rec_ctiKey in Heq.
  apply ctiKey_of_inj in Heq as (HK & Hs & Hn); [|apply Hc; done..].
  split; [done|]. unfold pair_of. now rewrite Hs, Hn.
Qed.

(** Which records share a [ContactTracingResponse]: for records with
    regions, none of which holds a colon, the canonical region-set keys
    are equal exactly when the region lists are equal up to order (with
    multiplicities). *)
Theorem ctrKey_exact (ra rb : model.Infection) :
  model.Regions ra <> [] -> model.Regions rb <> [] ->
  forallb colon_free (model.Regions ra) = true ->
  forallb colon_free (model.Regions rb) = true ->
  rec_ctrKey ra = rec_ctrKey rb <-> model.Regions ra ≡ₚ model.Regions rb.
Proof.
  intros Hne Hne' Hc Hc'. unfold rec_ctrKey, ctrKey_of. split.
  - intros Heq.
    rewrite <- (sort_Strings_Permutation (model.Regions ra)),
      <- (sort_Strings_Permutation (model.Regions rb)).
    assert (Hnil : forall l, l <> [] -> sort_Strings l <> []).
    { intros l Hl Hs. apply Hl. apply Permutation_nil_r.
      rewrite <- Hs. symmetry. apply sort_Strings_Permutation. }
    apply Join_inj in Heq; [now rewrite Heq|auto..].
    + eapply forallb_colon_free_perm; [|exact Hc].
      symmetry. apply sort_Strings_Permutation.
    + eapply forallb_colon_free_perm; [|exact Hc'].
      symmetry. apply sort_Strings_Permutation.
  - intros Hp. now rewrite (sort_Strings_perm _ _ Hp).
Qed.

(** * Replayed calls: deadlines, resumption, exact keys *)

Lemma fetch_returns_by_deadline_witness :
  exists out,
    fetch ascii_ToUpper Scripted.status_names Scripted.iterator 3 Resume.ctx1
      (Scripted.request [] []) (Scripted.opens Calls.script1) Scripted.horizon
    = Some out
    /\ match out_iterator out with
       | None =>
           exists err,
             snd (Scripted.opens Calls.script1
                    (build_criteria
                       (normalize ascii_ToUpper (Scripted.request [] []))
                       Scripted.horizon))
             = Some err
       | Some it' =>
           exists k,
             (k <= 1)%nat
             /\ it' = advance Scripted.iterator k
                        (fst (Scripted.opens Calls.script1
                                (build_criteria
                                   (normalize ascii_ToUpper
                                      (Scripted.request [] []))
                                   Scripted.horizon)))
       end.
Proof.
  apply (fetch_returns_by_deadline ascii_ToUpper Scripted.status_names
           Scripted.iterator Resume.ctx1 (Scripted.request [] [])
           (Scripted.opens Calls.script1) Scripted.horizon 1 3
           context.DeadlineExceeded).
  - reflexivity.
  - lia.
Defined.

Lemma returned_flags_witness :
  exists n items it_n,
    handed_out ascii_ToUpper Scripted.iterator (Scripted.request [] [])
      (Scripted.opens Calls.script1) Scripted.horizon n items it_n
    /\ quiet Resume.ctx1 0 n
    /\ pb.Response Resume.respP
       = pb.Response
           (response (state_after ascii_ToUpper Scripted.status_names
                        (Scripted.request [] []) items))
    /\ if pb.PartialResponse Resume.respP
       then (exists e,
               Resume.ctx1 n = Some e
               /\ (e = context.DeadlineExceeded \/ e = context.Canceled))
            /\ database.Cursor Scripted.iterator it_n
               = (pb.NextFetchToken Resume.respP, None)
            /\ out_iterator Resume.outP = Some it_n
       else pb.NextFetchToken Resume.respP = ""
            /\ Resume.ctx1 n = None
            /\ exists inf it',
                 database.Next Scripted.iterator it_n
                 = ((inf, true, None), it')
                 /\ out_iterator Resume.outP = Some it'.
Proof.
  apply (returned_flags ascii_ToUpper Scripted.status_names Scripted.iterator
           Resume.ctx1 (Scripted.request [] []) (Scripted.opens Calls.script1)
           Scripted.horizon 3 Resume.outP Resume.respP).
  - vm_compute. reflexivity.
  - vm_compute. reflexivity.
Defined.

(** The run of [Mixed.groups]: two region sets, two pairs under the first. *)
Lemma response_well_formed_witness :
  (exists n items it_n,
     plain_run Mixed.groups n items it_n
     /\ all_keys (pb.Response Mixed.resp_groups)
        ≡ₚ key_of <$> plain_included items
     /\ forall ctr,
          ctr ∈ pb.Response Mixed.resp_groups ->
          (exists r, r ∈ plain_included items
                     /\ pb.ctr_RegionIdentifiers ctr
                        = sort_Strings (model.Regions r))
          /\ Sorted string_le (pb.ctr_RegionIdentifiers ctr)
          /\ pb.ctr_RegionIdentifiers ctr <> []
          /\ (exists region,
                region ∈ pb.ctr_RegionIdentifiers ctr
                /\ region ∉ excludedRegions (normalize ascii_ToUpper plain))
          /\ (includedRegions (normalize ascii_ToUpper plain) = ∅
              \/ exists region,
                   region ∈ pb.ctr_RegionIdentifiers ctr
                   /\ region ∈ includedRegions (normalize ascii_ToUpper plain))
          /\ (no_collision (plain_included items) ->
              pb.ctr_ContactTracingInfo ctr <> [])
          /\ forall cti,
               cti ∈ pb.ctr_ContactTracingInfo ctr ->
               is_Some (Scripted.status_names !! pb.cti_DiagnosisStatus cti)
               /\ pb.cti_DiagnosisKeys cti <> []
               /\ forall dk,
                    dk ∈ pb.cti_DiagnosisKeys cti ->
                    pb.dk_DiagnosisKey dk <> []
                    /\ exists r,
                         r ∈ plain_included items
                         /\ key_of r = dk
                         /\ model.LocalProvenance r = true)
  /\ length (pb.Response Mixed.resp_groups) = 2%nat.
Proof.
  split; [|reflexivity].
  apply (response_well_formed ascii_ToUpper Scripted.status_names
           Scripted.iterator Scripted.never (Scripted.request [] [])
           (Scripted.opens Mixed.groups) Scripted.horizon 6 Mixed.out_groups
           Mixed.resp_groups).
  - vm_compute. reflexivity.
  - vm_compute. reflexivity.
Defined.

(** The run of [Mixed.groups]: the region set [CA; US] is seen first and
    comes first, with the pair (1, ha) before (0, hb); the keys of each
    group are in processing order. *)
Lemma grouping_without_collisions_witness :
  (exists n items it_n,
     plain_run Mixed.groups n items it_n
     /\ ctr_key <$> pb.Response Mixed.resp_groups
        = first_seen (rec_ctrKey <$> plain_included items)
     /\ (no_collision (plain_included items) ->
         forall p ctr,
           pb.Response Mixed.resp_groups !! p = Some ctr ->
           cti_pair <$> pb.ctr_ContactTracingInfo ctr
           = first_seen
               (pair_of <$> filter (fun x => rec_ctrKey x = ctr_key ctr)
                              (plain_included items))
           /\ forall j cti,
                pb.ctr_ContactTracingInfo ctr !! j = Some cti ->
                pb.cti_DiagnosisKeys cti
                = key_of <$> group (ctr_key ctr) (cti_pair cti)
                               (plain_included items)))
  /\ no_collision
       (plain_included [Mixed.g1; Mixed.g2; Mixed.g3; Mixed.g4; Mixed.g5])
  /\ pb.Response Mixed.resp_groups
     = [pb.mkCtr ["CA"; "US"]
          [pb.mkInfo 1 "ha" [key_of Mixed.g1; key_of Mixed.g5];
           pb.mkInfo 0 "hb" [key_of Mixed.g3]];
        pb.mkCtr ["US"]
          [pb.mkInfo 0 "hb" [key_of Mixed.g2; key_of Mixed.g4]]].
Proof.
  split; [|split; [|reflexivity]].
  - apply (grouping_without_collisions ascii_ToUpper Scripted.status_names
             Scripted.iterator Scripted.never (Scripted.request [] [])
             (Scripted.opens Mixed.groups) Scripted.horizon 6
             Mixed.out_groups Mixed.resp_groups).
    + vm_compute. reflexivity.
    + vm_compute. reflexivity.
  - assert (Hall : Forall
                     (fun r => colon_free (model.VerificationAuthorityName r)
                               = true)
                     (plain_included
                        [Mixed.g1; Mixed.g2; Mixed.g3; Mixed.g4; Mixed.g5])).
    { vm_compute. repeat constructor. }
    rewrite Forall_forall in Hall.
    intros ra rb Ha Hb Heq. unfold rec_ctiKey in Heq.
    apply ctiKey_of_inj in Heq as (HK & Hs & Hn); [|apply Hall; done..].
    split; [done|]. unfold pair_of. now rewrite Hs, Hn.
Defined.

Lemma later_deadline_extends_witness :
  extends (pb.Response Resume.respP) (pb.Response Resume.respQ)
  /\ (pb.FetchResponseKeyTimestamp Resume.respP
      <= pb.FetchResponseKeyTimestamp Resume.respQ)%Z.
Proof.
  apply (later_deadline_extends ascii_ToUpper Scripted.status_names
           Scripted.iterator (Scripted.request [] [])
           (Scripted.opens Calls.script1) Scripted.horizon
           Resume.ctx1 Resume.ctx2 3 4 Resume.outP Resume.outQ).
  - vm_compute. reflexivity.
  - vm_compute. reflexivity.
  - vm_compute. reflexivity.
  - vm_compute. reflexivity.
  - intros i e Hfired. exists 1%nat. split.
    + destruct i as [|i]; [vm_compute in Hfired; discriminate Hfired|lia].
    + vm_compute. discriminate.
Defined.

Lemma resumption_loses_nothing_witness :
  all_keys (pb.Response Calls.resp1)
  ≡ₚ all_keys (pb.Response Resume.respP) ++ all_keys (pb.Response Resume.respR)
  /\ pb.FetchResponseKeyTimestamp Calls.resp1
     = Z.max (pb.FetchResponseKeyTimestamp Resume.respP)
         (pb.FetchResponseKeyTimestamp Resume.respR).
Proof.
  apply (resumption_loses_nothing ascii_ToUpper Scripted.status_names
           Scripted.iterator (Scripted.request [] []) Resume.resumed
           (Scripted.opens Calls.script1)
           (Scripted.opens [Scripted.gives Replay.r2 "c2"])
           Scripted.horizon Scripted.horizon
           Scripted.never Resume.ctx1 Scripted.never 3 3 3
           Calls.out1 Resume.outP Resume.outR
           Calls.resp1 Resume.respP Resume.respR Resume.left_at).
  - vm_compute. reflexivity.
  - vm_compute. reflexivity.
  - reflexivity.
  - vm_compute. reflexivity.
  - split; reflexivity.
  - vm_compute. reflexivity.
  - vm_compute. reflexivity.
  - vm_compute. reflexivity.
  - reflexivity.
  - vm_compute. reflexivity.
  - vm_compute. reflexivity.
  - reflexivity.
Defined.

Lemma collisions_need_colon_witness : no_collision [Replay.r1; Replay.r2].
Proof.
  apply (collisions_need_colon [Replay.r1; Replay.r2]). reflexivity.
Defined.

Lemma ctrKey_exact_witness :
  rec_ctrKey Replay.r1 = rec_ctrKey Replay.r2
  <-> model.Regions Replay.r1 ≡ₚ model.Regions Replay.r2.
Proof.
  apply (ctrKey_exact Replay.r1 Replay.r2).
  - vm_compute. discriminate.
  - vm_compute. discriminate.
  - reflexivity.
  - reflexivity.
Defined.

(** * What of a record the response depends on *)

Lemma only_excluded_perm (excluded : gset string) (l l' : list string) :
  l ≡ₚ l' -> only_excluded excluded l = only_excluded excluded l'.
Proof.
  induction 1 as [|x l l' _ IH|x y l|l l' l'' _ IH1 _ IH2]; simpl;
    repeat case_bool_decide; congruence.
Qed.

Lemma none_included_perm (included : gset string) (l l' : list string) :
  l ≡ₚ l' -> none_included included l = none_included included l'.
Proof.
  induction 1 as [|x l l' _ IH|x y l|l l' l'' _ IH1 _ IH2]; simpl;
    repeat case_bool_decide; congruence.
Qed.

Lemma check_up_to_order (DiagnosisStatus_name : gmap Z string)
    (included excluded : gset string) (r r' : model.Infection) :
  same_up_to_order r r' ->
  check DiagnosisStatus_name included excluded r
  = check DiagnosisStatus_name included excluded r'.
Proof.
  intros (Hk & Hp & Hl & Hs & _). unfold check.
  rewrite Hk, Hl, Hs, (Permutation_length Hp),
    (only_excluded_perm _ _ _ Hp), (none_included_perm _ _ _ Hp).
  reflexivity.
Qed.

Lemma aggregate_up_to_order (st : Agg) (r r' : model.Infection) :
  same_up_to_order r r' -> aggregate st r = aggregate st r'.
Proof.
  intros (Hk & Hp & _ & Hs & Hn & Hin & Hic & Hc).
  unfold aggregate, key_of.
  now rewrite (sort_Strings_perm _ _ Hp), Hk, Hs, Hn, Hin, Hic, Hc.
Qed.

(** The response depends on a record only through its key bytes, interval,
    provenance, status, authority name, creation time and the set of its
    regions with multiplicities: handing out records that differ in their
    datastore key and in the order of their regions leads the aggregation
    to the same state, so to the same response. *)
Theorem region_order_irrelevant (ToUpper : string -> string)
    (DiagnosisStatus_name : gmap Z string) (req : pb.FederationFetchRequest)
    (items items' : list model.Infection) :
  Forall2 same_up_to_order items items' ->
  state_after ToUpper DiagnosisStatus_name req items
  = state_after ToUpper DiagnosisStatus_name req items'.
Proof.
  unfold state_after. generalize init_Agg.
  intros st H. revert st.
  induction H as [|r r' l l' Hr _ IH]; intros st; simpl; [done|].
  unfold absorb at 2 4.
  rewrite (check_up_to_order _ _ _ _ _ Hr), (aggregate_up_to_order _ _ _ Hr).
  apply IH.
Qed.

Lemma region_order_irrelevant_witness :
  state_after ascii_ToUpper Scripted.status_names (Scripted.request [] [])
    [Replay.r1; Replay.r2]
  = state_after ascii_ToUpper Scripted.status_names (Scripted.request [] [])
      [r1_swapped; Replay.r2].
Proof.
  apply (region_order_irrelevant ascii_ToUpper Scripted.status_names
           (Scripted.request [] []) [Replay.r1; Replay.r2]
           [r1_swapped; Replay.r2]).
  repeat constructor.
Defined.

(** * The records of a run are determined *)

(** A call has one run: where the loop ends, the records handed out until
    then and the iterator state left are fixed by the context and the
    iterator. *)
Lemma run_records_unique (ToUpper : string -> string) {It : Type}
    (iter : database.InfectionIterator It) (ctx : context.Context)
    (req : pb.FederationFetchRequest) (itFunc : fetchIterator It)
    (fetchUntil : time.Time) (n n' : nat) (items items' : list model.Infection)
    (it_n it_n' : It) :
  run_records ToUpper iter ctx req itFunc fetchUntil n items it_n ->
  run_records ToUpper iter ctx req itFunc fetchUntil n' items' it_n' ->
  n = n' /\ items = items' /\ it_n = it_n'.
Proof.
  intros ((it0 & Hit & Hp) & Hq & Hend) ((it0' & Hit' & Hp') & Hq' & Hend').
  assert (it0' = it0) as -> by congruence.
  assert (Hlt : forall a b la ita lb itb,
            pull iter a it0 = Some (la, ita) -> quiet ctx 0 a ->
            ((exists e, ctx a = Some e)
             \/ (ctx a = None
                 /\ exists inf it',
                      database.Next iter ita = ((inf, true, None), it'))) ->
            pull iter b it0 = Some (lb, itb) -> quiet ctx 0 b ->
            ~ (a < b)%nat).
  { intros a b la ita lb itb Ha _ Hea Hb Hqb Hab.
    destruct Hea as [(e & He)|(_ & inf & it' & Hn)].
    - specialize (Hqb a Hab). simpl in Hqb. congruence.
    - replace b with (a + S (b - a - 1))%nat in Hb by lia.
      rewrite (pull_past_exhaustion iter _ _ _ _ _ _ _ Ha Hn) in Hb.
      discriminate. }
  assert (n = n') as <-.
  { pose proof (Hlt _ _ _ _ _ _ Hp Hq Hend Hp' Hq').
    pose proof (Hlt _ _ _ _ _ _ Hp' Hq' Hend' Hp Hq). lia. }
  split; [done|]. split; congruence.
Qed.
